(** * The gamebryo plugin persistor (PluginPersistor.ts)

    A shallow embedding of the class [PluginPersistor], which keeps the
    in-memory plugin table in step with the files [loadorder.txt] and
    [plugins.txt], followed by the properties its specification states.

    Conventions of the embedding.
    - A JavaScript string is a [string]: one [ascii] per code unit, so
      the repertoire is U+0000..U+00FF, what the Latin-1 encoding of
      [plugins.txt] can carry. Names with a code unit beyond it are
      not in the embedding; a UTF-8 text that holds one is read with
      question marks in its place. A [Buffer] is a list of bytes.
    - A [loadOrder] is an integer, a [Z]; the table has the type the
      source declares for it, [IPluginMap]. The JSON text of a number
      is the digits of the integer, which is what [JSON.stringify]
      writes for the integers that a double holds exactly, up to 2^53.
    - [path.join] is taken on a directory that is written without a
      separator at its end.
    - [Object.prototype] is as the language makes it in [initKey], and
      so in the loads: the one line that [initFromKeyList] can throw
      on, [enabled] once a line [__proto__] has been read, is followed
      in [initKeyStrict], and the loads are taken without it.
    - The object is a record with the fields of the class. A method is
      a function on the [World]: the object, the count of requests made
      of the file system, and the trace of what the outside has seen.
    - The file system answers through an [Env], request by request, so
      that two reads of one file need not agree.
    - A promise chain runs to its end in one step: no other method of
      the object runs between the reads of a [deserialize] or between
      the writes of a pass. The callbacks of the host return normally.
    - [loadFiles] takes its three values from [gameSupport], which is
      not part of the sources at hand: its three functions are handed
      to [loadFiles] as a [GameSupport], and a step of [reachable] sets
      the path, the format and the native set to any values. *)

From Stdlib Require Import ZArith Ascii String List Lia Permutation Sorted.
From Stdlib.Strings Require Import Byte.
From stdpp Require Import base list strings gmap sorting pretty.

Local Open Scope Z_scope.

(** ** JavaScript strings *)

Module JS.

Definition LF : ascii := "010"%char.
Definition CR : ascii := "013"%char.
Definition CRLF : string := String CR (String LF "").

Definition code (c : ascii) : Z := Z.of_N (N_of_ascii c).
Definition chr (n : Z) : ascii := ascii_of_N (Z.to_N n).

(** [c.toLowerCase()] on the repertoire: A-Z, and the Latin-1 capitals
    U+00C0..U+00DE without the multiplication sign U+00D7. *)
Definition lowerChar (c : ascii) : ascii :=
  let n := code c in
  if ((65 <=? n) && (n <=? 90)) || ((192 <=? n) && (n <=? 222) && negb (n =? 215))
  then chr (n + 32) else c.

(** [s.toLowerCase()] *)
Fixpoint toLowerCase (s : string) : string :=
  match s with
  | EmptyString => EmptyString
  | String c r => String (lowerChar c) (toLowerCase r)
  end.

(** [s.startsWith(p)] *)
Definition startsWith (s p : string) : bool := String.prefix p s.

(** [s[0] === c] ([s[0]] is [undefined] on the empty string). *)
Definition firstIs (s : string) (c : ascii) : bool :=
  match s with
  | String d _ => Ascii.eqb d c
  | EmptyString => false
  end.

(** [s.slice(1)] *)
Definition slice1 (s : string) : string :=
  match s with
  | String _ r => r
  | EmptyString => EmptyString
  end.

(** [lines.join(sep)] *)
Fixpoint join (sep : string) (lines : list string) : string :=
  match lines with
  | [] => ""
  | [x] => x
  | x :: r => x +:+ sep +:+ join sep r
  end.

(** [s.split(/\r?\n/)]: the leftmost match at each position, so a
    carriage return belongs to the separator only when a line feed
    follows it at once. The result is never empty. *)
Fixpoint splitLines (s : string) : list string :=
  match s with
  | EmptyString => [""]
  | String c r =>
      let keep := match splitLines r with
                  | l :: ls => String c l :: ls
                  | [] => [String c ""]
                  end in
      if Ascii.eqb c LF then "" :: splitLines r
      else if Ascii.eqb c CR then
        match r with
        | String d r' => if Ascii.eqb d LF then "" :: splitLines r' else keep
        | EmptyString => keep
        end
      else keep
  end.

(** The names every plain object inherits from [Object.prototype]:
    [o[name] !== undefined] holds for them on the empty object. What an
    assignment through such a name does to the inherited object is not
    followed here. *)
Definition inherited : list string :=
  [ "constructor"; "hasOwnProperty"; "isPrototypeOf"; "propertyIsEnumerable";
    "toLocaleString"; "toString"; "valueOf"; "__proto__";
    "__defineGetter__"; "__defineSetter__"; "__lookupGetter__"; "__lookupSetter__" ].

Definition isInherited (name : string) : bool :=
  bool_decide (name ∈ inherited).

(** [Array.prototype.sort(compareFn)], as a stable insertion sort:
    [x] goes before the first [y] with [compareFn(x, y) <= 0]. The
    properties rest on no more than that the result is the argument
    rearranged and in order, which every engine grants. *)
Section Sort.
Context {A : Type} (compareFn : A -> A -> Z).

Fixpoint insert (x : A) (l : list A) : list A :=
  match l with
  | [] => [x]
  | y :: r => if compareFn x y <=? 0 then x :: y :: r else y :: insert x r
  end.

Definition sort (l : list A) : list A := foldr insert [] l.
End Sort.

End JS.

(** ** iconv-lite: [encode] and [decode] *)

Module Iconv.

Inductive encoding := utf8 | latin1.

Definition byteOf (n : Z) : Byte.byte := byte_of_ascii (JS.chr n).
Definition valOf (b : Byte.byte) : Z := JS.code (ascii_of_byte b).

(** UTF-8 of a code point below U+0100: one byte, or two. *)
Definition encodeChar (c : ascii) : list Byte.byte :=
  let n := JS.code c in
  if n <? 128 then [byteOf n]
  else [byteOf (192 + n / 64); byteOf (128 + n mod 64)].

Fixpoint encodeUtf8 (s : string) : list Byte.byte :=
  match s with
  | EmptyString => []
  | String c r => encodeChar c ++ encodeUtf8 r
  end.

(** A byte that is not part of the encoding of a code point below
    U+0100 stands for text beyond the repertoire; it is kept as a
    question mark. *)
Fixpoint decodeUtf8 (data : list Byte.byte) : string :=
  match data with
  | [] => ""
  | b :: r =>
      let n := valOf b in
      if n <? 128 then String (JS.chr n) (decodeUtf8 r)
      else
        match r with
        | b' :: r' =>
            let m := valOf b' in
            if ((n =? 194) || (n =? 195)) && (128 <=? m) && (m <? 192)
            then String (JS.chr ((n - 192) * 64 + (m - 128))) (decodeUtf8 r')
            else String "?" (decodeUtf8 r)
        | [] => "?"
        end
  end.

(** The decoder for UTF-8 drops a leading byte order mark. *)
Definition stripBOM (data : list Byte.byte) : list Byte.byte :=
  match data with
  | b1 :: b2 :: b3 :: r =>
      if (valOf b1 =? 239) && (valOf b2 =? 187) && (valOf b3 =? 191) then r else data
  | _ => data
  end.

Definition encode (s : string) (enc : encoding) : list Byte.byte :=
  match enc with
  | utf8 => encodeUtf8 s
  | latin1 => String.list_byte_of_string s
  end.

Definition decode (data : list Byte.byte) (enc : encoding) : string :=
  match enc with
  | utf8 => decodeUtf8 (stripBOM data)
  | latin1 => String.string_of_list_byte data
  end.

End Iconv.

(** ** The plugin table *)

Inductive PluginFormat := original | fallout4.

(** [ILoadOrder], as [initFromKeyList] builds it. *)
Record ILoadOrder := mkLoadOrder { enabled : bool; loadOrder : Z }.

(** [IPluginMap]: a plain object from plugin name to [ILoadOrder]. The
    list holds its own properties in the order they were created, each
    name once. *)
Definition IPluginMap := list (string * ILoadOrder).

Module Obj.

(** [o[name]] among the own properties. *)
Fixpoint get (o : IPluginMap) (name : string) : option ILoadOrder :=
  match o with
  | [] => None
  | (k, v) :: r => if String.eqb k name then Some v else get r name
  end.

(** [o[name] = v]: an existing property keeps its place. *)
Fixpoint set (o : IPluginMap) (name : string) (v : ILoadOrder) : IPluginMap :=
  match o with
  | [] => [(name, v)]
  | (k, w) :: r => if String.eqb k name then (k, v) :: r else (k, w) :: set r name v
  end.

(** [delete o[name]] *)
Definition delete (o : IPluginMap) (name : string) : IPluginMap :=
  List.filter (fun kv => negb (String.eqb (fst kv) name)) o.

Definition isDigit (c : ascii) : bool :=
  (48 <=? JS.code c) && (JS.code c <=? 57).

Fixpoint digits (s : string) (acc : Z) : option Z :=
  match s with
  | EmptyString => Some acc
  | String c r => if isDigit c then digits r (10 * acc + (JS.code c - 48)) else None
  end.

(** The array index a property name denotes, if it is the canonical
    decimal form of an integer below 2^32 - 1. *)
Definition arrayIndex (name : string) : option Z :=
  match name with
  | EmptyString => None
  | String c r =>
      if Ascii.eqb c "0" && negb (String.eqb r "") then None
      else match digits name 0 with
           | Some n => if n <? 4294967295 then Some n else None
           | None => None
           end
  end.

Definition isIndex (name : string) : bool :=
  match arrayIndex name with Some _ => true | None => false end.

Definition indexOf (name : string) : Z :=
  match arrayIndex name with Some n => n | None => 0 end.

(** [Object.keys(o)]: the array indices in ascending order, then the
    other names in the order of their creation. *)
Definition keys (o : IPluginMap) : list string :=
  JS.sort (fun a b => indexOf a - indexOf b) (List.filter isIndex (map fst o))
  ++ List.filter (fun k => negb (isIndex k)) (map fst o).

End Obj.

(** ** [JSON.parse] and [JSON.stringify] *)

Module JSON.

(** A parsed value. A number is [m * 10^e]; a string is its code
    units, which a [\u] escape can take beyond the repertoire. *)
#[warnings="-register-all"] Inductive value :=
| Null
| Bool (b : bool)
| Number (m e : Z)
| Str (s : list Z)
| Array (items : list value)
| Object (members : list (list Z * value)).

Inductive token :=
| TLBrace | TRBrace | TLBracket | TRBracket | TColon | TComma
| TString (s : list Z)
| TNumber (m e : Z)
| TTrue | TFalse | TNull.

(** Where the scanner stands inside a number. *)
Inductive numStage :=
| NMinus | NZero | NInt | NDot | NFrac | NExp | NExpSign | NExpDigits.

Record num := mkNum {
  stage : numStage; neg : bool; mant : Z; scale : Z; eneg : bool; expo : Z }.

Inductive lstate :=
| LIdle
| LStr (acc : list Z)
| LEsc (acc : list Z)
| LUni (acc : list Z) (todo : nat) (v : Z)
| LLit (rest : string) (t : token)
| LNum (n : num).

Definition isWhite (c : ascii) : bool :=
  let n := JS.code c in (n =? 32) || (n =? 9) || (n =? 10) || (n =? 13).

Definition digit (c : ascii) : option Z :=
  let n := JS.code c in
  if (48 <=? n) && (n <=? 57) then Some (n - 48) else None.

Definition hexDigit (c : ascii) : option Z :=
  let n := JS.code c in
  if (48 <=? n) && (n <=? 57) then Some (n - 48)
  else if (97 <=? n) && (n <=? 102) then Some (n - 87)
  else if (65 <=? n) && (n <=? 70) then Some (n - 55)
  else None.

Definition isE (c : ascii) : bool := (JS.code c =? 101) || (JS.code c =? 69).

Definition numFinal (n : num) : bool :=
  match stage n with
  | NZero | NInt | NFrac | NExpDigits => true
  | _ => false
  end.

Definition numToken (n : num) : token :=
  TNumber (if neg n then - mant n else mant n)
          ((if eneg n then - expo n else expo n) - scale n).

(** One more character of a number; [None] when it is not part of it. *)
Definition numChar (n : num) (c : ascii) : option (option num) :=
  let at_ (s : numStage) := mkNum s (neg n) (mant n) (scale n) (eneg n) (expo n) in
  let more (s : numStage) (d : Z) :=
    mkNum s (neg n) (10 * mant n + d) (scale n) (eneg n) (expo n) in
  match stage n, digit c with
  | NMinus, Some d => Some (Some (more (if d =? 0 then NZero else NInt) d))
  | NMinus, None => None
  | NZero, Some _ => Some None
  | NInt, Some d => Some (Some (more NInt d))
  | (NZero | NInt), None =>
      if JS.code c =? 46 then Some (Some (at_ NDot))
      else if isE c then Some (Some (at_ NExp)) else Some None
  | (NDot | NFrac), Some d =>
      Some (Some (mkNum NFrac (neg n) (10 * mant n + d) (scale n + 1) (eneg n) (expo n)))
  | NDot, None => None
  | NFrac, None => if isE c then Some (Some (at_ NExp)) else Some None
  | (NExp | NExpSign | NExpDigits), Some d =>
      Some (Some (mkNum NExpDigits (neg n) (mant n) (scale n) (eneg n) (10 * expo n + d)))
  | NExp, None =>
      if JS.code c =? 43 then Some (Some (at_ NExpSign))
      else if JS.code c =? 45
           then Some (Some (mkNum NExpSign (neg n) (mant n) (scale n) true (expo n)))
           else None
  | NExpSign, None => None
  | NExpDigits, None => Some None
  end.

(** A character between tokens. [None] is a [SyntaxError]. *)
Definition idleChar (c : ascii) : option (lstate * list token) :=
  let n := JS.code c in
  if isWhite c then Some (LIdle, [])
  else if n =? 123 then Some (LIdle, [TLBrace])
  else if n =? 125 then Some (LIdle, [TRBrace])
  else if n =? 91 then Some (LIdle, [TLBracket])
  else if n =? 93 then Some (LIdle, [TRBracket])
  else if n =? 58 then Some (LIdle, [TColon])
  else if n =? 44 then Some (LIdle, [TComma])
  else if n =? 34 then Some (LStr [], [])
  else if n =? 45 then Some (LNum (mkNum NMinus true 0 0 false 0), [])
  else if n =? 116 then Some (LLit "rue" TTrue, [])
  else if n =? 102 then Some (LLit "alse" TFalse, [])
  else if n =? 110 then Some (LLit "ull" TNull, [])
  else match digit c with
       | Some d => Some (LNum (mkNum (if d =? 0 then NZero else NInt) false d 0 false 0), [])
       | None => None
       end.

Definition escapeChar (c : ascii) : option Z :=
  let n := JS.code c in
  if (n =? 34) || (n =? 92) || (n =? 47) then Some n
  else if n =? 98 then Some 8
  else if n =? 102 then Some 12
  else if n =? 110 then Some 10
  else if n =? 114 then Some 13
  else if n =? 116 then Some 9
  else None.

Definition lexChar (st : lstate) (c : ascii) : option (lstate * list token) :=
  match st with
  | LIdle => idleChar c
  | LStr acc =>
      let n := JS.code c in
      if n =? 34 then Some (LIdle, [TString (rev acc)])
      else if n =? 92 then Some (LEsc acc, [])
      else if n <? 32 then None
      else Some (LStr (n :: acc), [])
  | LEsc acc =>
      if JS.code c =? 117 then Some (LUni acc 4 0, [])
      else match escapeChar c with
           | Some n => Some (LStr (n :: acc), [])
           | None => None
           end
  | LUni acc todo v =>
      match hexDigit c with
      | Some h =>
          match todo with
          | 1%nat => Some (LStr ((16 * v + h) :: acc), [])
          | _ => Some (LUni acc (Nat.pred todo) (16 * v + h), [])
          end
      | None => None
      end
  | LLit rest t =>
      match rest with
      | String d r =>
          if Ascii.eqb c d
          then match r with
               | EmptyString => Some (LIdle, [t])
               | _ => Some (LLit r t, [])
               end
          else None
      | EmptyString => None
      end
  | LNum n =>
      match numChar n c with
      | Some (Some n') => Some (LNum n', [])
      | Some None =>
          if numFinal n
          then match idleChar c with
               | Some (st', ts) => Some (st', numToken n :: ts)
               | None => None
               end
          else None
      | None => None
      end
  end.

Definition lexEnd (st : lstate) : option (list token) :=
  match st with
  | LIdle => Some []
  | LNum n => if numFinal n then Some [numToken n] else None
  | _ => None
  end.

Fixpoint lex (st : lstate) (text : string) : option (list token) :=
  match text with
  | EmptyString => lexEnd st
  | String c r =>
      match lexChar st c with
      | Some (st', ts) =>
          match lex st' r with
          | Some ts' => Some (ts ++ ts')
          | None => None
          end
      | None => None
      end
  end.

(** The containers still open, innermost first, with what they hold so
    far (latest first). *)
Inductive frame :=
| FArray (items : list value)
| FObject (members : list (list Z * value)) (key : list Z).

Inductive expect :=
| EValue | EArrayStart | EObjectStart | EKey
| EColon (key : list Z)
| EAfter
| EDone (v : value).

Definition complete (v : value) (stack : list frame) : list frame * expect :=
  match stack with
  | [] => ([], EDone v)
  | FArray items :: s => (FArray (v :: items) :: s, EAfter)
  | FObject members key :: s => (FObject ((key, v) :: members) key :: s, EAfter)
  end.

Definition scalar (t : token) : option value :=
  match t with
  | TString s => Some (Str s)
  | TNumber m e => Some (Number m e)
  | TTrue => Some (Bool true)
  | TFalse => Some (Bool false)
  | TNull => Some Null
  | _ => None
  end.

Definition parseToken (stack : list frame) (ex : expect) (t : token)
    : option (list frame * expect) :=
  match ex with
  | EValue | EArrayStart =>
      match t with
      | TLBrace => Some (FObject [] [] :: stack, EObjectStart)
      | TLBracket => Some (FArray [] :: stack, EArrayStart)
      | TRBracket =>
          match ex, stack with
          | EArrayStart, FArray [] :: s => Some (complete (Array []) s)
          | _, _ => None
          end
      | _ => match scalar t with
             | Some v => Some (complete v stack)
             | None => None
             end
      end
  | EObjectStart =>
      match t, stack with
      | TString k, _ => Some (stack, EColon k)
      | TRBrace, FObject [] _ :: s => Some (complete (Object []) s)
      | _, _ => None
      end
  | EKey =>
      match t with
      | TString k => Some (stack, EColon k)
      | _ => None
      end
  | EColon k =>
      match t, stack with
      | TColon, FObject members _ :: s => Some (FObject members k :: s, EValue)
      | _, _ => None
      end
  | EAfter =>
      match stack, t with
      | FArray items :: s, TComma => Some (stack, EValue)
      | FArray items :: s, TRBracket => Some (complete (Array (rev items)) s)
      | FObject members _ :: s, TComma => Some (stack, EKey)
      | FObject members _ :: s, TRBrace => Some (complete (Object (rev members)) s)
      | _, _ => None
      end
  | EDone _ => None
  end.

Fixpoint parseTokens (stack : list frame) (ex : expect) (ts : list token)
    : option value :=
  match ts with
  | [] => match ex with EDone v => Some v | _ => None end
  | t :: r =>
      match parseToken stack ex t with
      | Some (stack', ex') => parseTokens stack' ex' r
      | None => None
      end
  end.

(** [JSON.parse(text)]; [None] is the [SyntaxError] it throws. *)
Definition parse (text : string) : option value :=
  match lex LIdle text with
  | Some ts => parseTokens [] EValue ts
  | None => None
  end.

(** The value as an [IPluginMap]. [JSON.parse] returns [any], so
    nothing checks the type at run time; a value that is not an object
    of entries [{enabled, loadOrder}], with names in the repertoire and
    integers a double holds exactly, has no counterpart here. *)
Fixpoint asString (s : list Z) : option string :=
  match s with
  | [] => Some ""
  | n :: r =>
      if n <? 256
      then match asString r with
           | Some r' => Some (String (JS.chr n) r')
           | None => None
           end
      else None
  end.

Definition asInteger (m e : Z) : option Z :=
  let n := if 0 <=? e then Some (m * 10 ^ e)
           else if m mod 10 ^ (- e) =? 0 then Some (m / 10 ^ (- e)) else None in
  match n with
  | Some n => if Z.abs n <=? 2 ^ 53 then Some n else None
  | None => None
  end.

Definition asLoadOrder (v : value) : option ILoadOrder :=
  match v with
  | Object [(k1, Bool b); (k2, Number m e)] =>
      match asString k1, asString k2, asInteger m e with
      | Some "enabled", Some "loadOrder", Some n => Some (mkLoadOrder b n)
      | _, _, _ => None
      end
  | _ => None
  end.

Fixpoint asMembers (members : list (list Z * value)) (o : IPluginMap)
    : option IPluginMap :=
  match members with
  | [] => Some o
  | (k, v) :: r =>
      match asString k, asLoadOrder v with
      | Some name, Some entry => asMembers r (Obj.set o name entry)
      | _, _ => None
      end
  end.

Definition asPluginMap (v : value) : option IPluginMap :=
  match v with
  | Object members => asMembers members []
  | _ => None
  end.

Definition dquote : string := String "034" "".
Definition backslash : string := String "092" "".

Definition hex (n : Z) : string :=
  String (JS.chr (if n <? 10 then 48 + n else 87 + n)) "".

Definition quoteChar (c : ascii) : string :=
  let n := JS.code c in
  if n =? 34 then backslash +:+ dquote
  else if n =? 92 then backslash +:+ backslash
  else if n =? 8 then backslash +:+ "b"
  else if n =? 9 then backslash +:+ "t"
  else if n =? 10 then backslash +:+ "n"
  else if n =? 12 then backslash +:+ "f"
  else if n =? 13 then backslash +:+ "r"
  else if n <? 32 then backslash +:+ "u00" +:+ hex (n / 16) +:+ hex (n mod 16)
  else String c "".

Fixpoint quoteChars (s : string) : string :=
  match s with
  | EmptyString => ""
  | String c r => quoteChar c +:+ quoteChars r
  end.

Definition quote (s : string) : string := dquote +:+ quoteChars s +:+ dquote.

Definition stringifyEntry (v : ILoadOrder) : string :=
  "{" +:+ quote "enabled" +:+ ":" +:+ (if enabled v then "true" else "false")
  +:+ "," +:+ quote "loadOrder" +:+ ":" +:+ pretty (loadOrder v) +:+ "}".

Definition stringifyMember (o : IPluginMap) (name : string) : string :=
  quote name +:+ ":" +:+
  match Obj.get o name with Some v => stringifyEntry v | None => "null" end.

(** [JSON.stringify(o)] for a table. *)
Definition stringify (o : IPluginMap) : string :=
  "{" +:+ JS.join "," (map (stringifyMember o) (Obj.keys o)) +:+ "}".

End JSON.

(** ** The object and its surroundings *)

(** [Error], with the [code] Node puts on file-system errors. *)
Record Error := mkError { code : option string; message : string }.

(** A function value handed in by the host, known by its identity. *)
Definition Callback := nat.

Inductive Value :=
| VNull
| VString (s : string)
| VStrings (l : list string)
| VError (e : Error).

Inductive ReadResult :=
| ReadOk (data : list Byte.byte)
| ReadFail (err : Error).

(** The file system: how it answers the [n]th request made of it.
    [writeFile] and [watch] give the error raised, if any. *)
Record Env := mkEnv {
  readFile : nat -> string -> ReadResult;
  writeFile : nat -> string -> list Byte.byte -> option Error;
  watch : nat -> string -> option Error
}.

(** What the outside sees, in the order it happens. *)
Inductive Event :=
| Call (f : Callback) (args : list Value)
| Log (level text : string)
| ReadFile (path : string)
| WriteFile (path : string) (data : list Byte.byte) (failure : option Error)
| SetTimeout (ms : Z)
| ClearTimeout
| WatchDir (path : string)
| CloseWatch.

(** [mRefreshTimer]: [undefined] at first, [null] once the timer has
    run, a pending timer in between. *)
Inductive Timer := TimerUndefined | TimerNull | TimerPending (ms : Z).

(** What hangs on the promise chain [mSerializeQueue], and on the
    promises [setItem] and [removeItem] return, in the order it runs. *)
Inductive Task :=
| DoSerialize
| Notify (cb : Callback).

Definition retryCount : Z := 3.

Record PluginPersistor := mkPersistor {
  mPluginPath : option string;
  mPluginFormat : option PluginFormat;
  mNativePlugins : option (gset string);
  mResetCallback : option Callback;
  mWatch : option string;
  mRefreshTimer : Timer;
  mSerializing : bool;
  mSerializeQueue : list Task;
  mPlugins : IPluginMap;
  mRetryCounter : Z;
  mLoaded : bool;
  mFailed : bool;
  mOnError : Callback
}.

Record World := mkWorld {
  self : PluginPersistor;
  requests : nat;
  trace : list Event
}.

(** [new PluginPersistor(onError)] *)
Definition constructor (onError : Callback) : PluginPersistor :=
  {| mPluginPath := None; mPluginFormat := None; mNativePlugins := None;
     mResetCallback := None; mWatch := None; mRefreshTimer := TimerUndefined;
     mSerializing := false; mSerializeQueue := []; mPlugins := [];
     mRetryCounter := retryCount; mLoaded := false; mFailed := false;
     mOnError := onError |}.

Definition with_context (p : option string) (f : option PluginFormat)
    (n : option (gset string)) (t : PluginPersistor) : PluginPersistor :=
  mkPersistor p f n (mResetCallback t) (mWatch t) (mRefreshTimer t)
    (mSerializing t) (mSerializeQueue t) (mPlugins t) (mRetryCounter t)
    (mLoaded t) (mFailed t) (mOnError t).

Definition with_mResetCallback (v : option Callback) (t : PluginPersistor) :=
  mkPersistor (mPluginPath t) (mPluginFormat t) (mNativePlugins t) v (mWatch t)
    (mRefreshTimer t) (mSerializing t) (mSerializeQueue t) (mPlugins t)
    (mRetryCounter t) (mLoaded t) (mFailed t) (mOnError t).

Definition with_mWatch (v : option string) (t : PluginPersistor) :=
  mkPersistor (mPluginPath t) (mPluginFormat t) (mNativePlugins t)
    (mResetCallback t) v (mRefreshTimer t) (mSerializing t) (mSerializeQueue t)
    (mPlugins t) (mRetryCounter t) (mLoaded t) (mFailed t) (mOnError t).

Definition with_mRefreshTimer (v : Timer) (t : PluginPersistor) :=
  mkPersistor (mPluginPath t) (mPluginFormat t) (mNativePlugins t)
    (mResetCallback t) (mWatch t) v (mSerializing t) (mSerializeQueue t)
    (mPlugins t) (mRetryCounter t) (mLoaded t) (mFailed t) (mOnError t).

Definition with_mSerializing (v : bool) (t : PluginPersistor) :=
  mkPersistor (mPluginPath t) (mPluginFormat t) (mNativePlugins t)
    (mResetCallback t) (mWatch t) (mRefreshTimer t) v (mSerializeQueue t)
    (mPlugins t) (mRetryCounter t) (mLoaded t) (mFailed t) (mOnError t).

Definition with_mSerializeQueue (v : list Task) (t : PluginPersistor) :=
  mkPersistor (mPluginPath t) (mPluginFormat t) (mNativePlugins t)
    (mResetCallback t) (mWatch t) (mRefreshTimer t) (mSerializing t) v
    (mPlugins t) (mRetryCounter t) (mLoaded t) (mFailed t) (mOnError t).

Definition with_mPlugins (v : IPluginMap) (t : PluginPersistor) :=
  mkPersistor (mPluginPath t) (mPluginFormat t) (mNativePlugins t)
    (mResetCallback t) (mWatch t) (mRefreshTimer t) (mSerializing t)
    (mSerializeQueue t) v (mRetryCounter t) (mLoaded t) (mFailed t) (mOnError t).

Definition with_mRetryCounter (v : Z) (t : PluginPersistor) :=
  mkPersistor (mPluginPath t) (mPluginFormat t) (mNativePlugins t)
    (mResetCallback t) (mWatch t) (mRefreshTimer t) (mSerializing t)
    (mSerializeQueue t) (mPlugins t) v (mLoaded t) (mFailed t) (mOnError t).

Definition with_mLoaded (v : bool) (t : PluginPersistor) :=
  mkPersistor (mPluginPath t) (mPluginFormat t) (mNativePlugins t)
    (mResetCallback t) (mWatch t) (mRefreshTimer t) (mSerializing t)
    (mSerializeQueue t) (mPlugins t) (mRetryCounter t) v (mFailed t) (mOnError t).

Definition with_mFailed (v : bool) (t : PluginPersistor) :=
  mkPersistor (mPluginPath t) (mPluginFormat t) (mNativePlugins t)
    (mResetCallback t) (mWatch t) (mRefreshTimer t) (mSerializing t)
    (mSerializeQueue t) (mPlugins t) (mRetryCounter t) (mLoaded t) v (mOnError t).

(** A step on the object alone, and an observation. *)
Definition update (f : PluginPersistor -> PluginPersistor) (w : World) : World :=
  mkWorld (f (self w)) (requests w) (trace w).

Definition emit (e : Event) (w : World) : World :=
  mkWorld (self w) (requests w) (trace w ++ [e]).

(** [path.join(dir, file)] *)
Definition path_join (dir file : string) : string := dir +:+ "/" +:+ file.

(** [fs.readFileAsync(path)] and [fs.writeFileAsync(path, data)], once
    settled. *)
Definition readFileAsync (env : Env) (path : string) (w : World) : ReadResult * World :=
  (readFile env (requests w) path,
   mkWorld (self w) (S (requests w)) (trace w ++ [ReadFile path])).

Definition writeFileAsync (env : Env) (path : string) (data : list Byte.byte)
    (w : World) : option Error * World :=
  let r := writeFile env (requests w) path data in
  (r, mkWorld (self w) (S (requests w)) (trace w ++ [WriteFile path data r])).

(** ** The methods of [PluginPersistor] *)

(** What a call that may throw comes to. *)
Inductive Completion (A : Type) :=
| Return (a : A)
| Throw (name : string).
Arguments Return {A} a.
Arguments Throw {A} name.

(** [f && f(args)] and [if (f) f(args)] on an optional callback. *)
Definition callIfSet (f : option Callback) (args : list Value) (w : World) : World :=
  match f with
  | Some g => emit (Call g args) w
  | None => w
  end.

(** [this.mNativePlugins.has(name)]. The set is there whenever the path
    is, since [loadFiles] and [stopSync] assign the two together (see
    [reachable_invariant]); [doSerialize] and [deserialize] ask for the
    path before they come here. *)
Definition has (natives : option (gset string)) (name : string) : bool :=
  match natives with
  | Some set => bool_decide (name ∈ set)
  | None => false
  end.

(** [this.mPlugins[name].enabled] and [this.mPlugins[name].loadOrder],
    asked of names that [Object.keys] has just listed. *)
Definition enabledOf (o : IPluginMap) (name : string) : bool :=
  match Obj.get o name with Some v => enabled v | None => false end.

Definition loadOrderOf (o : IPluginMap) (name : string) : Z :=
  match Obj.get o name with Some v => loadOrder v | None => 0 end.

Definition disable (w : World) : World :=
  let w := update (with_mPlugins []) w in
  let w := update (with_mLoaded true) w in
  match mResetCallback (self w) with
  | Some cb =>
      let w := emit (Call cb []) w in
      update (with_mRetryCounter retryCount) w
  | None => w
  end.

Definition stopSync (w : World) : World :=
  let w := update (with_context None None None) w in
  match mWatch (self w) with
  | Some _ =>
      let w := emit CloseWatch w in
      update (with_mWatch None) w
  | None => w
  end.

Definition setResetCallback (cb : Callback) (w : World) : World :=
  update (with_mResetCallback (Some cb)) w.

(** [getItem] hands back the value its promise is resolved with. *)
Definition getItem (key : string) (cb : option Callback) (w : World) : string * World :=
  let res := JSON.stringify (mPlugins (self w)) in
  let w := callIfSet cb [VNull; VString res] w in
  (res, w).

Definition getAllKeys (cb : option Callback) (w : World) : World :=
  callIfSet cb [VNull; VStrings ["loadOrder"]] w.

Definition reportError (text : string) (detail : Error) (w : World) : World :=
  if negb (mFailed (self w)) then
    let w := emit (Call (mOnError (self w)) [VString text; VError detail]) w in
    update (with_mFailed true) w
  else w.

Definition toPluginListOriginal (t : PluginPersistor) (input : list string) : list string :=
  List.filter (fun pluginName => enabledOf (mPlugins t) pluginName) input.

Definition toPluginListFallout4 (t : PluginPersistor) (input : list string) : list string :=
  map (fun name => if enabledOf (mPlugins t) name then "*" +:+ name else name) input.

Definition toPluginList (t : PluginPersistor) (input : list string) : list string :=
  match mPluginFormat t with
  | Some original => toPluginListOriginal t input
  | _ => toPluginListFallout4 t input
  end.

(** [serialize] puts a pass at the end of the promise chain, once the
    first load is over. *)
Definition serialize (w : World) : World :=
  if negb (mLoaded (self w)) then w
  else update (fun t => with_mSerializeQueue (mSerializeQueue t ++ [DoSerialize]) t) w.

(** [promise.then(() => cb && cb(null))] on what [serialize] returned. *)
Definition thenNotify (cb : option Callback) (w : World) : World :=
  match cb with
  | Some f => update (fun t => with_mSerializeQueue (mSerializeQueue t ++ [Notify f]) t) w
  | None => w
  end.

(** [setItem]. [JSON.parse] throws before anything is assigned. [None]
    stands for a text that parses to a value which is no [IPluginMap]. *)
Definition setItem (key value : string) (cb : option Callback) (w : World)
    : option (Completion World) :=
  match JSON.parse value with
  | None => Some (Throw "SyntaxError")
  | Some v =>
      match JSON.asPluginMap v with
      | Some table =>
          let w := update (with_mPlugins table) w in
          Some (Return (thenNotify cb (serialize w)))
      | None => None
      end
  end.

Definition removeItem (key : string) (cb : option Callback) (w : World) : World :=
  let w := update (fun t => with_mPlugins (Obj.delete (mPlugins t) key) t) w in
  thenNotify cb (serialize w).

Definition header : string := "# Automatically generated by Vortex" +:+ JS.CRLF.

Definition sortedKeys (t : PluginPersistor) : list string :=
  JS.sort (fun lhs rhs => loadOrderOf (mPlugins t) lhs - loadOrderOf (mPlugins t) rhs)
    (List.filter (fun pluginName => negb (has (mNativePlugins t) (JS.toLowerCase pluginName)))
       (Obj.keys (mPlugins t))).

Definition doSerialize (env : Env) (w : World) : World :=
  match mPluginPath (self w) with
  | None => w
  | Some dir =>
      let w := update (with_mSerializing true) w in
      let sorted := sortedKeys (self w) in
      let '(r, w) :=
        writeFileAsync env (path_join dir "loadorder.txt")
          (Iconv.encode (header +:+ JS.join JS.CRLF sorted) Iconv.utf8) w in
      let w :=
        match r with
        | None =>
            let filtered := toPluginList (self w) sorted in
            let '(r, w) :=
              writeFileAsync env (path_join dir "plugins.txt")
                (Iconv.encode (header +:+ JS.join JS.CRLF filtered) Iconv.latin1) w in
            match r with
            | None => update (with_mFailed false) w
            | Some err => reportError "failed to write plugin list" err w
            end
        | Some err => reportError "failed to write plugin list" err w
        end in
      update (with_mSerializing false) w
  end.

Definition filterFileData (input : string) (plugins : bool) : list string :=
  List.filter (fun value => negb (JS.startsWith value "#") && (0 <? Z.of_nat (String.length value)))
    (JS.splitLines input).

(** One turn of the [forEach] in [initFromKeyList]. A name the empty
    object inherits is not [undefined], so the assignment lands on what
    is inherited and the table stays as it is. The prototype is taken
    as the language makes it; [initKeyStrict] below follows what the
    assignment does to it. *)
Definition initKey (t : PluginPersistor) (enabled : bool)
    (acc : IPluginMap * Z) (key : string) : IPluginMap * Z :=
  let '(plugins, loadOrderPos) := acc in
  let keyEnabled :=
    enabled && (match mPluginFormat t with Some original => true | _ => false end
                || JS.firstIs key "*") in
  let key :=
    if match mPluginFormat t with Some fallout4 => true | _ => false end && JS.firstIs key "*"
    then JS.slice1 key else key in
  if has (mNativePlugins t) (JS.toLowerCase key) then acc
  else
    match Obj.get plugins key with
    | Some v => (Obj.set plugins key (mkLoadOrder keyEnabled (loadOrder v)), loadOrderPos)
    | None =>
        if JS.isInherited key then acc
        else (Obj.set plugins key (mkLoadOrder keyEnabled loadOrderPos), loadOrderPos + 1)
    end.

Definition initFromKeyList (t : PluginPersistor) (plugins : IPluginMap)
    (keys : list string) (enabled : bool) : IPluginMap :=
  let loadOrderPos := Z.of_nat (length (Obj.keys plugins)) in
  fst (fold_left (initKey t enabled) keys (plugins, loadOrderPos)).

(** One turn of the [forEach] in [initFromKeyList] with the prototype
    followed. [plugins[key]] with [key] no property of the table itself
    goes to [Object.prototype]. The names of [JS.inherited] are there
    from the start and hold functions, but for [__proto__], which holds
    the prototype itself: [plugins[key].enabled = keyEnabled] under that
    name gives every object the property [enabled], a boolean. From
    then on the same assignment under [enabled] is one to a property of
    a boolean, and throws a [TypeError] in the strict code of a module.
    [polluted] tells that the prototype has the property; [None] is the
    throw. *)
Definition initKeyStrict (t : PluginPersistor) (enabled : bool)
    (acc : IPluginMap * Z * bool) (key : string) : option (IPluginMap * Z * bool) :=
  let '(plugins, loadOrderPos, polluted) := acc in
  let keyEnabled :=
    enabled && (match mPluginFormat t with Some original => true | _ => false end
                || JS.firstIs key "*") in
  let key :=
    if match mPluginFormat t with Some fallout4 => true | _ => false end && JS.firstIs key "*"
    then JS.slice1 key else key in
  if has (mNativePlugins t) (JS.toLowerCase key) then Some acc
  else
    match Obj.get plugins key with
    | Some v =>
        Some (Obj.set plugins key (mkLoadOrder keyEnabled (loadOrder v)), loadOrderPos, polluted)
    | None =>
        if String.eqb key "__proto__" then Some (plugins, loadOrderPos, true)
        else if JS.isInherited key then Some acc
        else if polluted && String.eqb key "enabled" then None
        else Some (Obj.set plugins key (mkLoadOrder keyEnabled loadOrderPos),
                   loadOrderPos + 1, polluted)
    end.

Fixpoint initKeysStrict (t : PluginPersistor) (enabled : bool) (keys : list string)
    (acc : IPluginMap * Z * bool) : option (IPluginMap * Z * bool) :=
  match keys with
  | [] => Some acc
  | key :: rest =>
      match initKeyStrict t enabled acc key with
      | Some acc' => initKeysStrict t enabled rest acc'
      | None => None
      end
  end.

(** [initFromKeyList] with the prototype followed: the table it leaves
    and whether the prototype has the property [enabled], or [None]
    when it has thrown. *)
Definition initFromKeyListStrict (t : PluginPersistor) (plugins : IPluginMap)
    (keys : list string) (enabled polluted : bool) : option (IPluginMap * bool) :=
  let loadOrderPos := Z.of_nat (length (Obj.keys plugins)) in
  match initKeysStrict t enabled keys (plugins, loadOrderPos, polluted) with
  | Some (plugins, _, polluted) => Some (plugins, polluted)
  | None => None
  end.

Definition scheduleRefresh (timeout : Z) (w : World) : World :=
  let w :=
    match mRefreshTimer (self w) with
    | TimerNull => w
    | _ => emit ClearTimeout w
    end in
  let w := emit (SetTimeout timeout) w in
  update (with_mRefreshTimer (TimerPending timeout)) w.

Definition isENOENT (err : Error) : bool :=
  match code err with
  | Some c => String.eqb c "ENOENT"
  | None => false
  end.

(** The handler [deserialize] gives to [catch]. *)
Definition readFailed (err : Error) (w : World) : World :=
  if isENOENT err then update (with_mLoaded true) w
  else
    let w := emit (Log "warn" "failed to read plugin file") w in
    if 0 <? mRetryCounter (self w) then
      let w := update (fun t => with_mRetryCounter (mRetryCounter t - 1) t) w in
      scheduleRefresh 100 w
    else
      let w := update (with_mLoaded true) w in
      reportError "failed to read plugin list" err w.

(** [phaseOne], once settled: what reading [plugins.txt] gave, after
    [loadorder.txt] has been read into [newPlugins] under [original]. *)
Definition phaseOne (env : Env) (dir : string) (newPlugins : IPluginMap) (w : World)
    : ReadResult * IPluginMap * World :=
  match mPluginFormat (self w) with
  | Some original =>
      let '(r, w) := readFileAsync env (path_join dir "loadorder.txt") w in
      match r with
      | ReadOk data =>
          let keys := filterFileData (Iconv.decode data Iconv.utf8) false in
          let newPlugins := initFromKeyList (self w) newPlugins keys false in
          let '(r, w) := readFileAsync env (path_join dir "plugins.txt") w in
          (r, newPlugins, w)
      | ReadFail err => (ReadFail err, newPlugins, w)
      end
  | _ =>
      let '(r, w) := readFileAsync env (path_join dir "plugins.txt") w in
      (r, newPlugins, w)
  end.

(** The end of the handler given to [then]: the new table goes in. *)
Definition loaded (newPlugins : IPluginMap) (w : World) : World :=
  let w := update (with_mPlugins newPlugins) w in
  let w := update (with_mLoaded true) w in
  let w :=
    match mResetCallback (self w) with
    | Some cb =>
        let w := emit (Call cb []) w in
        update (with_mRetryCounter retryCount) w
    | None => w
    end in
  update (with_mFailed false) w.

(** The body of [deserialize(retry)], with the call [this.deserialize(true)]
    it makes on an empty [plugins.txt] left open as [again]. *)
Definition deserializeBody (again : World -> World) (env : Env) (retry : bool)
    (w : World) : World :=
  match mPluginPath (self w) with
  | None => w
  | Some dir =>
      let newPlugins : IPluginMap := [] in
      let '(r, newPlugins, w) := phaseOne env dir newPlugins w in
      match r with
      | ReadOk data =>
          if (Z.of_nat (length data) =? 0) && negb retry then again w
          else
            let keys := filterFileData (Iconv.decode data Iconv.latin1) true in
            loaded (initFromKeyList (self w) newPlugins keys true) w
      | ReadFail err => readFailed err w
      end
  end.

(** [deserialize(retry)]. With [retry] set the body never calls itself,
    so the call it makes when [retry] is clear is the whole recursion. *)
Definition deserialize (env : Env) (retry : bool) (w : World) : World :=
  if retry then deserializeBody (fun w => w) env true w
  else deserializeBody (deserializeBody (fun w => w) env true) env false w.

(** [startWatch()]: it closes the watcher it has, returns when there is
    no path, and logs the error when [fs.watch] throws. *)
Definition startWatch (env : Env) (w : World) : World :=
  let w :=
    match mWatch (self w) with
    | Some _ => emit CloseWatch w
    | None => w
    end in
  match mPluginPath (self w) with
  | None => w
  | Some dir =>
      let r := watch env (requests w) dir in
      let w := mkWorld (self w) (S (requests w)) (trace w ++ [WatchDir dir]) in
      match r with
      | None => update (with_mWatch (Some dir)) w
      | Some err => emit (Log "error" "failed to look for plugin changes") w
      end
  end.

(** ** What the event loop does next *)

(** The timer set by [scheduleRefresh] runs out. *)
Definition timerFires (env : Env) (w : World) : World :=
  match mRefreshTimer (self w) with
  | TimerPending _ =>
      let w := update (with_mRefreshTimer TimerNull) w in
      deserialize env false w
  | _ => w
  end.

(** The watcher reports a change to [fileName]. *)
Definition watchEvent (fileName : string) (w : World) : World :=
  if negb (mSerializing (self w))
     && bool_decide (fileName ∈ ["loadorder.txt"; "plugins.txt"])
  then scheduleRefresh 500 w else w.

(** The promise at the head of the queue settles. *)
Definition runTask (env : Env) (w : World) : World :=
  match mSerializeQueue (self w) with
  | [] => w
  | DoSerialize :: rest =>
      doSerialize env (update (with_mSerializeQueue rest) w)
  | Notify cb :: rest =>
      emit (Call cb [VNull]) (update (with_mSerializeQueue rest) w)
  end.

(** The timer runs out [n] times in a row. *)
Fixpoint timersFire (env : Env) (n : nat) (w : World) : World :=
  match n with
  | O => w
  | S m => timersFire env m (timerFires env w)
  end.

(** The last data written to [path] in a trace, if any was. *)
Fixpoint written (tr : list Event) (path : string) : option (list Byte.byte) :=
  match tr with
  | [] => None
  | e :: r =>
      match written r path with
      | Some d => Some d
      | None =>
          match e with
          | WriteFile p d None => if String.eqb p path then Some d else None
          | _ => None
          end
      end
  end.

(** A file system at rest that holds what a trace has written. *)
Definition ENOENT : Error := mkError (Some "ENOENT") "no such file or directory".

Definition diskOf (tr : list Event) : Env :=
  mkEnv (fun _ path => match written tr path with
                       | Some d => ReadOk d
                       | None => ReadFail ENOENT
                       end)
        (fun _ _ _ => None)
        (fun _ _ => None).

(** A file system that takes every write. *)
Definition quiet : Env :=
  mkEnv (fun _ _ => ReadFail ENOENT) (fun _ _ _ => None) (fun _ _ => None).

(** * The words of the properties *)

(** Ordered by a rank. *)
Definition byRank {A : Type} (rank : A → Z) (x y : A) : Prop := rank x <= rank y.

(** A name the native set does not hold once it is in lower case. *)
Definition nonNative (t : PluginPersistor) (k : string) : Prop :=
  has (mNativePlugins t) (JS.toLowerCase k) = false.

(** No line feed in [s]. *)
Fixpoint noLF (s : string) : bool :=
  match s with
  | EmptyString => true
  | String c r => negb (Ascii.eqb c JS.LF) && noLF r
  end.

(** A line that [filterFileData] gives back as it was written. *)
Definition lineOk (s : string) : bool :=
  noLF s && negb (JS.startsWith s "#") && (0 <? Z.of_nat (String.length s)).

(** The table [initFromKeyList] builds from nothing: the names in the
    order given, numbered from [start], with the flag [f] gives. *)
Fixpoint numbered (start : Z) (f : string → bool) (ks : list string) : IPluginMap :=
  match ks with
  | [] => []
  | k :: r => (k, mkLoadOrder (f k) start) :: numbered (start + 1) f r
  end.

(** The names in [ks] switched on. *)
Definition enableAll (ks : list string) (o : IPluginMap) : IPluginMap :=
  map (fun kv => (fst kv, mkLoadOrder (enabled (snd kv) || bool_decide (fst kv ∈ ks))
                            (loadOrder (snd kv)))) o.

(** The pass [doSerialize] makes from [w] is granted both its writes. *)
Definition completes (env : Env) (w : World) : Prop :=
  ∀ path data, writeFile env (requests w) path data = None
               ∧ writeFile env (S (requests w)) path data = None.

(** The line [toPluginListFallout4] writes for a name. *)
Definition mark (o : IPluginMap) (name : string) : string :=
  if enabledOf o name then "*" +:+ name else name.

(** A name that comes back from the files as it went in: a line of its
    own that is no comment, not a name every object inherits, and under
    [fallout4] not one that begins with the mark of an enabled plugin.
    Being a [string], it is made of characters that Latin-1 carries. *)
Definition portable (fmt : PluginFormat) (k : string) : bool :=
  lineOk k && negb (JS.isInherited k)
  && match fmt with fallout4 => negb (JS.firstIs k "*") | original => true end.

(** The entries written out have load orders that differ. *)
Definition distinctOrders (t : PluginPersistor) : Prop :=
  ∀ k1 k2 v1 v2,
    Obj.get (mPlugins t) k1 = Some v1 → Obj.get (mPlugins t) k2 = Some v2 →
    nonNative t k1 → nonNative t k2 → loadOrder v1 = loadOrder v2 → k1 = k2.

(** Table [o'] holds the names of [o] that are not native, each with
    the flag it has in [o], and ranks them as [o] does. *)
Definition sameTable (t : PluginPersistor) (o o' : IPluginMap) : Prop :=
  (∀ k, k ∈ map fst o' ↔ k ∈ map fst o ∧ nonNative t k)
  ∧ (∀ k, k ∈ map fst o' → enabledOf o' k = enabledOf o k)
  ∧ (∀ k1 k2, k1 ∈ map fst o' → k2 ∈ map fst o' →
       (loadOrderOf o k1 < loadOrderOf o k2 ↔ loadOrderOf o' k1 < loadOrderOf o' k2)).

(** A pass from [w], and then a load from the files it wrote, gives the
    table of [w] back. *)
Definition roundTrips (env : Env) (w : World) : Prop :=
  let w1 := doSerialize env w in
  let w2 := deserialize (diskOf (trace w1)) false w1 in
  sameTable (self w) (mPlugins (self w)) (mPlugins (self w2)).

(** ** Worlds to try the properties on *)

Definition world (fmt : PluginFormat) (natives : list string) (reset : option Callback)
    (table : IPluginMap) : World :=
  mkWorld
    (with_mLoaded true
       (with_mPlugins table
          (with_mResetCallback reset
             (with_context (Some "dir") (Some fmt) (Some (list_to_set natives))
                (constructor 0%nat)))))
    0 [].

(** The table of the example in the specification. *)
Definition twoPlugins : IPluginMap :=
  [("a.esp", mkLoadOrder true 0); ("b.esp", mkLoadOrder false 1)].

(** A plugin whose file name begins with the sign of a comment. *)
Definition hashPlugin : IPluginMap := [("#a.esp", mkLoadOrder true 0)].

(** ** Reading a trace *)

(** The files asked for, the files written to, and the errors reported
    through [onError], each in the order of the trace. *)
Definition readsOf (tr : list Event) : list string :=
  omap (fun e => match e with ReadFile path => Some path | _ => None end) tr.

Definition writesOf (tr : list Event) : list string :=
  omap (fun e => match e with WriteFile path _ _ => Some path | _ => None end) tr.

Definition reportsOf (onError : Callback) (tr : list Event) : list (string * Error) :=
  omap (fun e => match e with
                 | Call f [VString text; VError detail] =>
                     if Nat.eqb f onError then Some (text, detail) else None
                 | _ => None
                 end) tr.

(** The timers set, by their delay. *)
Definition timersOf (tr : list Event) : list Z :=
  omap (fun e => match e with SetTimeout ms => Some ms | _ => None end) tr.

(** ** Failed and empty reads *)

(** An attempt that starts with request [n] fails to read, and not
    because a file is missing. *)
Definition attemptFails (env : Env) (fmt : option PluginFormat) (dir : string) (n : nat)
    : Prop :=
  match fmt with
  | Some original =>
      (∃ err, readFile env n (path_join dir "loadorder.txt") = ReadFail err
              ∧ isENOENT err = false)
      ∨ (∃ data err, readFile env n (path_join dir "loadorder.txt") = ReadOk data
                     ∧ readFile env (S n) (path_join dir "plugins.txt") = ReadFail err
                     ∧ isENOENT err = false)
  | _ => ∃ err, readFile env n (path_join dir "plugins.txt") = ReadFail err
                ∧ isENOENT err = false
  end.

(** The first attempt and the [k] that the timer brings after it. *)
Definition attempts (env : Env) (k : nat) (w : World) : World :=
  timersFire env k (deserialize env false w).

(** What the specification says of a run of [1 + retryCount] failed
    attempts: one report, the store loaded, the table as before. *)
Definition exhausted (env : Env) (w : World) : Prop :=
  (∃ report,
     reportsOf (mOnError (self w)) (trace (attempts env (Z.to_nat retryCount) w))
     = reportsOf (mOnError (self w)) (trace w) ++ [report])
  ∧ mLoaded (self (attempts env (Z.to_nat retryCount) w)) = true
  ∧ ∀ k, (k <= Z.to_nat retryCount)%nat →
         mPlugins (self (attempts env k w)) = mPlugins (self w).

(** A file system on which every read and every write fails with
    [EBUSY]. *)
Definition EBUSY : Error := mkError (Some "EBUSY") "resource busy or locked".

Definition locked : Env :=
  mkEnv (fun _ _ => ReadFail EBUSY) (fun _ _ _ => Some EBUSY) (fun _ _ => None).

(** The files one attempt reads when nothing fails. *)
Definition attemptReads (fmt : option PluginFormat) (dir : string) : list string :=
  match fmt with
  | Some original => [path_join dir "loadorder.txt"; path_join dir "plugins.txt"]
  | _ => [path_join dir "plugins.txt"]
  end.

(** No entry of the table is enabled. *)
Definition noneEnabled (o : IPluginMap) : Prop := ∀ k v, (k, v) ∈ o → enabled v = false.

(** A file system on which every file is there and empty. *)
Definition blank : Env :=
  mkEnv (fun _ _ => ReadOk []) (fun _ _ _ => None) (fun _ _ => None).

(** The store after a pass whose writes have failed. *)
Definition afterFailedWrite : World :=
  runTask locked (serialize (world original [] None twoPlugins)).



(** ** Native plugins *)

(** A name and an entry of the native set are the same but for case. *)
Definition matchesNative (natives : gset string) (k : string) : Prop :=
  ∃ e, e ∈ natives ∧ JS.toLowerCase e = JS.toLowerCase k.

(** The native set holds its names in lower case. *)
Definition lowerCased (natives : gset string) : Prop :=
  ∀ e, e ∈ natives → JS.toLowerCase e = e.

(** The data is the header and then lines, each the name of an entry of
    the table that matches no native plugin, bare or after a [*]. *)
Definition namesOnly (t : PluginPersistor) (natives : gset string) (data : list Byte.byte)
    : Prop :=
  ∃ enc lines,
    data = Iconv.encode (header +:+ JS.join JS.CRLF lines) enc
    ∧ ∀ line, line ∈ lines →
        ∃ name, (line = name ∨ line = "*" +:+ name)
                ∧ name ∈ map fst (mPlugins t) ∧ ¬ matchesNative natives name.

(** A native set that holds a name with a capital in it. *)
Definition capitalSet : list string := ["Skyrim.esm"].
Definition capitalPlugin : IPluginMap := [("Skyrim.esm", mkLoadOrder true 0)].

(** ** The key-value interface *)

(** [setItem] returns rather than throws. *)
Definition returns (r : option (Completion World)) : Prop :=
  ∃ w', r = Some (Return w').

(** ** The reach of the object *)

(** The worlds that the host, by calling the methods, and the event
    loop, by settling what is pending, can bring about. The step
    [reach_loadFiles] is [loadFiles] as far as its assignments and its
    line in the log; its [startWatch] and its [deserialize] are steps of
    their own. *)
Inductive reachable : World → Prop :=
| reach_new onError :
    reachable (mkWorld (constructor onError) 0 [])
| reach_loadFiles w dir fmt natives :
    reachable w →
    reachable (emit (Log "debug" "synching plugins")
                 (update (with_context (Some dir) (Some fmt) (Some (list_to_set natives))) w))
| reach_deserialize w env :
    reachable w → reachable (deserialize env false w)
| reach_startWatch w env :
    reachable w → reachable (startWatch env w)
| reach_stopSync w :
    reachable w → reachable (stopSync w)
| reach_disable w :
    reachable w → reachable (disable w)
| reach_setResetCallback w cb :
    reachable w → reachable (setResetCallback cb w)
| reach_getItem w key cb :
    reachable w → reachable (snd (getItem key cb w))
| reach_setItem w key value cb w' :
    reachable w → setItem key value cb w = Some (Return w') → reachable w'
| reach_removeItem w key cb :
    reachable w → reachable (removeItem key cb w)
| reach_getAllKeys w cb :
    reachable w → reachable (getAllKeys cb w)
| reach_timerFires w env :
    reachable w → reachable (timerFires env w)
| reach_watchEvent w fileName :
    reachable w → reachable (watchEvent fileName w)
| reach_runTask w env :
    reachable w → reachable (runTask env w).

(** What holds of the object between any two steps: the table has each
    name once; no pass is under way; the tries left are between none and
    [retryCount]; the path, the format and the native set are there
    together or not at all; and a pass is in the queue only once the
    first load is over. *)
Definition invariant (t : PluginPersistor) : Prop :=
  NoDup (map fst (mPlugins t))
  ∧ mSerializing t = false
  ∧ 0 <= mRetryCounter t <= retryCount
  ∧ (is_Some (mPluginPath t) ↔ is_Some (mNativePlugins t))
  ∧ (is_Some (mPluginPath t) ↔ is_Some (mPluginFormat t))
  ∧ (DoSerialize ∈ mSerializeQueue t → mLoaded t = true).

(** What [deserialize] does not undo. *)
Definition keeps (t t' : PluginPersistor) : Prop :=
  mPluginPath t' = mPluginPath t ∧ mPluginFormat t' = mPluginFormat t
  ∧ mNativePlugins t' = mNativePlugins t ∧ mSerializing t' = mSerializing t
  ∧ mSerializeQueue t' = mSerializeQueue t
  ∧ (mLoaded t = true → mLoaded t' = true)
  ∧ (0 <= mRetryCounter t <= retryCount → 0 <= mRetryCounter t' <= retryCount).

(** ** Files to try the reading on *)

(** A file system at rest with the given files, as Latin-1 text. *)
Fixpoint lookupFile (files : list (string * string)) (path : string) : ReadResult :=
  match files with
  | [] => ReadFail ENOENT
  | (p, text) :: r =>
      if String.eqb p path then ReadOk (Iconv.encode text Iconv.latin1)
      else lookupFile r path
  end.

Definition diskWith (files : list (string * string)) : Env :=
  mkEnv (fun _ path => lookupFile files path) (fun _ _ _ => None) (fun _ _ => None).

(** A [loadorder.txt] and a [plugins.txt] as a hand might leave them. *)
Definition handWritten : list (string * string) :=
  [("dir/loadorder.txt",
    "# my load order" +:+ JS.CRLF +:+ "Skyrim.esm" +:+ JS.CRLF +:+ "a.esp"
    +:+ String JS.LF "" +:+ JS.CRLF +:+ "b.esp" +:+ JS.CRLF);
   ("dir/plugins.txt",
    "b.esp" +:+ JS.CRLF +:+ "#a.esp" +:+ JS.CRLF +:+ "c.esp" +:+ JS.CRLF +:+ "UPDATE.ESM")].

(** ** Text files *)

(** No line break in [s]: neither a line feed nor a carriage return. *)
Fixpoint plain (s : string) : bool :=
  match s with
  | EmptyString => true
  | String c r => negb (Ascii.eqb c JS.LF) && negb (Ascii.eqb c JS.CR) && plain r
  end.

(** The test of the [filter] in [filterFileData]. *)
Definition kept (value : string) : bool :=
  negb (JS.startsWith value "#") && (0 <? Z.of_nat (String.length value)).

(** The two line ends a text file comes with. *)
Definition lineEnd (sep : string) : Prop := sep = JS.CRLF ∨ sep = String JS.LF "".

(** ** The lines of [plugins.txt] and [loadorder.txt] *)

(** The name a line stands for, and the flag it gives the name: what
    [initFromKeyList] makes of the line as [key] and [keyEnabled]. *)
Definition keyOf (t : PluginPersistor) (line : string) : string :=
  if match mPluginFormat t with Some fallout4 => true | _ => false end && JS.firstIs line "*"
  then JS.slice1 line else line.

Definition flagOf (t : PluginPersistor) (enabled : bool) (line : string) : bool :=
  enabled && (match mPluginFormat t with Some original => true | _ => false end
              || JS.firstIs line "*").

(** A name that makes an entry when it is not in the table yet. *)
Definition entered (t : PluginPersistor) (k : string) : Prop :=
  nonNative t k ∧ JS.isInherited k = false.

(** The load orders of the table are 0, 1, 2, ... in the order of its
    entries. *)
Definition dense (o : IPluginMap) : Prop :=
  map (fun kv => loadOrder (snd kv)) o = seqZ 0 (Z.of_nat (length o)).

(** Entry [b] is entry [a] but for the flag. *)
Definition sameButFlag (a b : string * ILoadOrder) : Prop :=
  fst a = fst b ∧ loadOrder (snd a) = loadOrder (snd b).

(** ** Reads that are granted *)

(** An attempt that starts with request [n] is granted its reads:
    [pl] is what [plugins.txt] holds and [lo] what [loadorder.txt]
    holds, which only [original] has the attempt read. *)
Definition attemptGives (env : Env) (fmt : option PluginFormat) (dir : string) (n : nat)
    (lo pl : list Byte.byte) : Prop :=
  match fmt with
  | Some original =>
      readFile env n (path_join dir "loadorder.txt") = ReadOk lo
      ∧ readFile env (S n) (path_join dir "plugins.txt") = ReadOk pl
  | _ => lo = [] ∧ readFile env n (path_join dir "plugins.txt") = ReadOk pl
  end.

(** [deserialize(retry)] takes the data of [plugins.txt] as it is: there
    is something in it, or this is the second go. *)
Definition taken (pl : list Byte.byte) (retry : bool) : Prop := pl ≠ [] ∨ retry = true.

(** The lines of the two files, as [deserialize] has them. *)
Definition loadorderLines (lo : list Byte.byte) : list string :=
  filterFileData (Iconv.decode lo Iconv.utf8) false.

Definition pluginsLines (pl : list Byte.byte) : list string :=
  filterFileData (Iconv.decode pl Iconv.latin1) true.

(** ** Files that are not there *)


(** ** Writes that are refused *)

(** The pass [doSerialize] makes from [w] is refused its first write,
    or granted the first and refused the second, with the error [err]. *)
Definition firstRefused (env : Env) (w : World) (err : Error) : Prop :=
  ∀ path data, writeFile env (requests w) path data = Some err.

Definition secondRefused (env : Env) (w : World) (err : Error) : Prop :=
  ∀ path data, writeFile env (requests w) path data = None
               ∧ writeFile env (S (requests w)) path data = Some err.

(** [n] passes, one after the other. *)
Fixpoint passes (env : Env) (n : nat) (w : World) : World :=
  match n with
  | O => w
  | S m => passes env m (doSerialize env w)
  end.

(** Every write is refused with the error [err]. *)
Definition readOnly (env : Env) (err : Error) : Prop :=
  ∀ n path data, writeFile env n path data = Some err.

(** ** With no path *)

(** What the host and the event loop can bring about from a world
    without a call of [loadFiles]. *)
Inductive idle : World → World → Prop :=
| idle_here w :
    idle w w
| idle_stopSync w w' :
    idle w w' → idle w (stopSync w')
| idle_disable w w' :
    idle w w' → idle w (disable w')
| idle_setResetCallback w w' cb :
    idle w w' → idle w (setResetCallback cb w')
| idle_getItem w w' key cb :
    idle w w' → idle w (snd (getItem key cb w'))
| idle_setItem w w' key value cb w'' :
    idle w w' → setItem key value cb w' = Some (Return w'') → idle w w''
| idle_removeItem w w' key cb :
    idle w w' → idle w (removeItem key cb w')
| idle_getAllKeys w w' cb :
    idle w w' → idle w (getAllKeys cb w')
| idle_timerFires w w' env :
    idle w w' → idle w (timerFires env w')
| idle_watchEvent w w' fileName :
    idle w w' → idle w (watchEvent fileName w')
| idle_runTask w w' env :
    idle w w' → idle w (runTask env w').

(** The requests a trace makes of the file system: reads, writes and
    watches. *)
Definition requestsOf (tr : list Event) : list Event :=
  List.filter (fun e => match e with
                        | ReadFile _ | WriteFile _ _ _ | WatchDir _ => true
                        | _ => false
                        end) tr.

(** ** JSON text, token by token *)

(** The code units of a string. *)
Definition codes (s : string) : list Z := map JS.code (list_ascii_of_string s).

(** The digits of a number in base ten, as text. *)
Definition digitsText (ds : list Z) : string :=
  string_of_list_ascii (map (fun d => JS.chr (48 + d)) ds).

(** Read from state [st], the text [a] is the tokens [ts], with the
    scanner between tokens at the end of it, whatever comes next. *)
Definition lexes (st : JSON.lstate) (a : string) (ts : list JSON.token) : Prop :=
  ∀ rest, JSON.lex st (a +:+ rest) = (ts ++.) <$> JSON.lex JSON.LIdle rest.

(** An entry of the table as [JSON.parse] has it, and as tokens. *)
Definition entryValue (v : ILoadOrder) : JSON.value :=
  JSON.Object [(codes "enabled", JSON.Bool (enabled v));
               (codes "loadOrder", JSON.Number (loadOrder v) 0)].

Definition entryTokens (v : ILoadOrder) : list JSON.token :=
  [JSON.TLBrace; JSON.TString (codes "enabled"); JSON.TColon;
   if enabled v then JSON.TTrue else JSON.TFalse; JSON.TComma;
   JSON.TString (codes "loadOrder"); JSON.TColon; JSON.TNumber (loadOrder v) 0;
   JSON.TRBrace].

Definition memberTokens (kv : string * ILoadOrder) : list JSON.token :=
  JSON.TString (codes (fst kv)) :: JSON.TColon :: entryTokens (snd kv).

Fixpoint membersTokens (l : list (string * ILoadOrder)) : list JSON.token :=
  match l with
  | [] => []
  | [kv] => memberTokens kv
  | kv :: r => memberTokens kv ++ JSON.TComma :: membersTokens r
  end.

(** The entries of a table in the order of [Object.keys]. *)
Definition entriesOf (o : IPluginMap) : IPluginMap :=
  omap (fun k => match Obj.get o k with Some v => Some (k, v) | None => None end) (Obj.keys o).

(** Every load order is an integer that a double holds exactly. *)
Definition safeOrders (o : IPluginMap) : Prop :=
  Forall (fun kv => Z.abs (loadOrder (snd kv)) <= 2 ^ 53) o.

(** ** [loadFiles] *)

(** [gameSupport]: what [pluginPath], [pluginFormat] and [nativePlugins]
    give for a game mode. That module is not among the sources, so its
    three functions are handed to [loadFiles] as they are. *)
Record GameSupport := mkGameSupport {
  pluginPath : string -> string;
  pluginFormat : string -> PluginFormat;
  nativePlugins : string -> list string
}.

(** [loadFiles(gameMode)]. The call [this.deserialize()] asks for the
    first file and returns; the handlers of its promise run once
    [startWatch] has returned, and so the chain is run here after it.
    The request for the first file, which the code makes before that
    for the watcher, thus counts after it here. *)
Definition loadFiles (gs : GameSupport) (env : Env) (gameMode : string) (w : World) : World :=
  let w := update (with_context (Some (pluginPath gs gameMode))
                     (Some (pluginFormat gs gameMode))
                     (Some (list_to_set (nativePlugins gs gameMode)))) w in
  let w := emit (Log "debug" "synching plugins") w in
  let w := startWatch env w in
  deserialize env false w.

(** ** The watcher *)

(** Whether a watcher is open, as a trace tells: [Opening] after a call
    of [fs.watch] whose outcome the next event shows (the line in the
    log that [startWatch] writes when the call has thrown), and [Leaked]
    once [fs.watch] has been called with a watcher still open. *)
Inductive Watching := NotWatching | Opening | IsWatching | Leaked.

Definition watchStep (s : Watching) (e : Event) : Watching :=
  match s, e with
  | Leaked, _ => Leaked
  | NotWatching, WatchDir _ => Opening
  | NotWatching, _ => NotWatching
  | Opening, Log level _ => if String.eqb level "error" then NotWatching else IsWatching
  | (Opening | IsWatching), CloseWatch => NotWatching
  | (Opening | IsWatching), WatchDir _ => Leaked
  | (Opening | IsWatching), _ => IsWatching
  end.

Definition watchingOf (tr : list Event) : Watching := fold_left watchStep tr NotWatching.

(** An event that neither opens nor closes a watcher, nor tells that
    one has failed to open. *)
Definition inert (e : Event) : bool :=
  match e with
  | WatchDir _ | CloseWatch => false
  | Log level _ => negb (String.eqb level "error")
  | _ => true
  end.

(** [fs.watch] has been called with a watcher still open. *)
Definition leaked (s : Watching) : bool :=
  match s with Leaked => true | _ => false end.

(** A game with the files of [handWritten] in its directory. *)
Definition skyrim : GameSupport :=
  mkGameSupport (fun _ => "dir") (fun _ => original) (fun _ => ["skyrim.esm"; "update.esm"]).

(** The lines that give the order of the plugins: those of
    [loadorder.txt] under [original], of [plugins.txt] under
    [fallout4]. *)
Definition orderLines (fmt : PluginFormat) (lo pl : list Byte.byte) : list string :=
  match fmt with
  | original => loadorderLines lo
  | fallout4 => pluginsLines pl
  end.

(** ** Lines that [initFromKeyList] takes *)

(** The name a line stands for under a format: [key] as
    [initFromKeyList] has it once the [*] is off. *)
Definition nameOf (fmt : option PluginFormat) (line : string) : string :=
  if match fmt with Some fallout4 => true | _ => false end && JS.firstIs line "*"
  then JS.slice1 line else line.

(** No line stands for the name [enabled]: the lines on which
    [initFromKeyList] does not throw, whatever the prototype has been
    given. [initKey] leaves the prototype as it was made, and is the
    code on these. *)
Definition noEnabledLine (fmt : option PluginFormat) (lines : list string) : bool :=
  forallb (fun line => negb (String.eqb (nameOf fmt line) "enabled")) lines.

(** * Properties *)

(** Case analysis along the branches of a method: [branches] for a
    step on the world, [cases] for a step on a table. *)
Ltac branches :=
  repeat match goal with
         | |- context [if ?x then _ else _] => destruct x; cbn [self requests trace]
         | |- context [match ?x with _ => _ end] => destruct x; cbn [self requests trace]
         end.

Ltac cases :=
  repeat match goal with
         | |- context [if ?x then _ else _] => destruct x
         | |- context [match ?x with _ => _ end] => destruct x
         end.

(** ** The embedding at work *)

Example splitLines_mixed :
  JS.splitLines ("# x" +:+ JS.CRLF +:+ "a" +:+ String JS.LF "" +:+ "b" +:+ String JS.CR "")
  = ["# x"; "a"; "b" +:+ String JS.CR ""].
Proof. reflexivity. Qed.

Example toLowerCase_mixed : JS.toLowerCase "Skyrim.ESM" = "skyrim.esm".
Proof. reflexivity. Qed.

Example keys_indices_first :
  Obj.keys [("b.esp", mkLoadOrder true 0); ("10", mkLoadOrder true 1);
            ("2", mkLoadOrder false 2); ("02", mkLoadOrder false 3)]
  = ["2"; "10"; "b.esp"; "02"].
Proof. reflexivity. Qed.

Example sort_by_loadOrder :
  sortedKeys (self (world original ["skyrim.esm"] None
                      [("z.esp", mkLoadOrder true 2); ("Skyrim.esm", mkLoadOrder true 0);
                       ("a.esp", mkLoadOrder false 7); ("m.esp", mkLoadOrder true (-1))]))
  = ["m.esp"; "z.esp"; "a.esp"].
Proof. reflexivity. Qed.

Example deserialize_handWritten_original :
  mPlugins (self (deserialize (diskWith handWritten) false
                    (world original ["skyrim.esm"; "update.esm"] None twoPlugins)))
  = [("a.esp", mkLoadOrder false 0); ("b.esp", mkLoadOrder true 1);
     ("c.esp", mkLoadOrder true 2)].
Proof. reflexivity. Qed.

Example deserialize_handWritten_fallout4 :
  mPlugins (self (deserialize
                    (diskWith [("dir/plugins.txt",
                                "*b.esp" +:+ JS.CRLF +:+ "a.esp" +:+ JS.CRLF +:+ "*Fallout4.esm"
                                +:+ JS.CRLF +:+ "*b.esp" +:+ JS.CRLF +:+ "toString")])
                    false (world fallout4 ["fallout4.esm"] None [])))
  = [("b.esp", mkLoadOrder true 0); ("a.esp", mkLoadOrder false 1)].
Proof. reflexivity. Qed.

Example deserialize_missing_files :
  self (deserialize quiet false (update (with_mLoaded false) (world original [] None twoPlugins)))
  = self (world original [] None twoPlugins).
Proof. reflexivity. Qed.

(** ** Sorting *)

Section SortFacts.
Context {A : Type} (cmp : A -> A -> Z).

Lemma insert_Permutation x l : JS.insert cmp x l ≡ₚ x :: l.
Proof.
  induction l as [|y r IH]; simpl; [done|].
  destruct (cmp x y <=? 0); [done|].
  rewrite IH. apply perm_swap.
Qed.

Lemma sort_Permutation l : JS.sort cmp l ≡ₚ l.
Proof.
  induction l as [|x r IH]; simpl; [done|].
  unfold JS.sort in *. simpl. rewrite insert_Permutation. by rewrite IH.
Qed.

Lemma sort_elem_of x l : x ∈ JS.sort cmp l ↔ x ∈ l.
Proof. by rewrite sort_Permutation. Qed.

Lemma sort_NoDup l : NoDup l → NoDup (JS.sort cmp l).
Proof. intros H. by rewrite sort_Permutation. Qed.

End SortFacts.

(** A comparator that subtracts ranks sorts by rank. *)
Section SortByRank.
Context {A : Type} (rank : A -> Z).

Lemma insert_sorted x l :
  StronglySorted (byRank rank) l →
  StronglySorted (byRank rank) (JS.insert (fun a b => rank a - rank b) x l).
Proof.
  induction 1 as [|y r Hr IH Hy]; simpl.
  - repeat constructor.
  - destruct (Z.leb_spec (rank x - rank y) 0) as [Hle|Hgt].
    + constructor; [by constructor|].
      constructor; [unfold byRank; lia|].
      eapply Forall_impl; [exact Hy|]. unfold byRank. intros z Hz. simpl in Hz. lia.
    + constructor; [exact IH|].
      rewrite (insert_Permutation _ x r). constructor; [unfold byRank; lia|exact Hy].
Qed.

Lemma sort_sorted l : StronglySorted (byRank rank) (JS.sort (fun a b => rank a - rank b) l).
Proof.
  induction l as [|x r IH]; [constructor|].
  unfold JS.sort in *. simpl. by apply insert_sorted.
Qed.
End SortByRank.

(** ** Objects *)

Lemma filter_split_Permutation {A} (f : A -> bool) (l : list A) :
  List.filter f l ++ List.filter (fun x => negb (f x)) l ≡ₚ l.
Proof.
  induction l as [|x r IH]; simpl; [done|].
  destruct (f x); simpl.
  - by rewrite IH.
  - rewrite <- Permutation_middle. by rewrite IH.
Qed.

Lemma elem_of_filter_bool {A} (f : A -> bool) (l : list A) x :
  x ∈ List.filter f l ↔ x ∈ l ∧ f x = true.
Proof. rewrite !list_elem_of_In. apply filter_In. Qed.

Lemma keys_Permutation (o : IPluginMap) : Obj.keys o ≡ₚ map fst o.
Proof.
  unfold Obj.keys. rewrite sort_Permutation. apply filter_split_Permutation.
Qed.

Lemma keys_elem_of (o : IPluginMap) k : k ∈ Obj.keys o ↔ k ∈ map fst o.
Proof. by rewrite keys_Permutation. Qed.

Lemma keys_NoDup (o : IPluginMap) : NoDup (map fst o) → NoDup (Obj.keys o).
Proof. intros H. by rewrite keys_Permutation. Qed.

Lemma get_None (o : IPluginMap) k : Obj.get o k = None ↔ k ∉ map fst o.
Proof.
  induction o as [|[k' v] r IH]; simpl.
  - split; [intros _; apply not_elem_of_nil|done].
  - rewrite not_elem_of_cons. destruct (String.eqb_spec k' k) as [->|Hne].
    + split; [done|]. intros [H _]. done.
    + rewrite IH. split; [intros H; split; [congruence|done]|intros [_ H]; done].
Qed.

Lemma get_Some_elem_of (o : IPluginMap) k v : Obj.get o k = Some v → (k, v) ∈ o.
Proof.
  induction o as [|[k' v'] r IH]; simpl; [done|].
  destruct (String.eqb_spec k' k) as [->|Hne].
  - intros [= ->]. left.
  - intros H. right. by apply IH.
Qed.

Lemma get_is_Some (o : IPluginMap) k : is_Some (Obj.get o k) ↔ k ∈ map fst o.
Proof.
  destruct (Obj.get o k) eqn:E.
  - split; [intros _|by eauto].
    apply get_Some_elem_of in E. apply list_elem_of_fmap. by exists (k, i).
  - apply get_None in E. split; [intros [? ?]; done|done].
Qed.

Lemma set_fresh (o : IPluginMap) k v : Obj.get o k = None → Obj.set o k v = o ++ [(k, v)].
Proof.
  induction o as [|[k' v'] r IH]; simpl; [done|].
  destruct (String.eqb_spec k' k); [done|]. intros H. by rewrite IH.
Qed.

(** ** Lines of text *)

Lemma append_cons c a b : String c a +:+ b = String c (a +:+ b).
Proof. reflexivity. Qed.

Lemma append_nil b : "" +:+ b = b.
Proof. reflexivity. Qed.

Lemma append_assoc a b c : (a +:+ b) +:+ c = a +:+ (b +:+ c).
Proof. induction a as [|x a IH]; [done|]. rewrite !append_cons. by rewrite IH. Qed.

Lemma splitLines_cons_keep c r :
  Ascii.eqb c JS.LF = false →
  (Ascii.eqb c JS.CR = true → ∀ r', r ≠ String JS.LF r') →
  JS.splitLines (String c r) =
    match JS.splitLines r with
    | l :: ls => String c l :: ls
    | [] => [String c ""]
    end.
Proof.
  intros Hlf Hcr. cbn [JS.splitLines]. rewrite Hlf.
  destruct (Ascii.eqb c JS.CR) eqn:E; [|done].
  destruct r as [|d r']; [done|].
  destruct (Ascii.eqb_spec d JS.LF) as [->|Hd]; [|done].
  by destruct (Hcr eq_refl r').
Qed.

Lemma splitLines_app_CRLF a b :
  noLF a = true → JS.splitLines (a +:+ JS.CRLF +:+ b) = a :: JS.splitLines b.
Proof.
  induction a as [|c a IH]; intros Ha.
  - rewrite append_nil. unfold JS.CRLF. rewrite !append_cons, append_nil. reflexivity.
  - simpl in Ha. apply andb_true_iff in Ha as [Hc Ha]. apply negb_true_iff in Hc.
    rewrite append_cons, splitLines_cons_keep, (IH Ha); [done|exact Hc|].
    intros _ r' Hr. destruct a as [|d a'].
    + rewrite append_nil in Hr. unfold JS.CRLF in Hr. rewrite append_cons in Hr. by inversion Hr.
    + rewrite append_cons in Hr. inversion Hr; subst. simpl in Ha. discriminate Ha.
Qed.

Lemma splitLines_noLF a : noLF a = true → JS.splitLines a = [a].
Proof.
  induction a as [|c a IH]; intros Ha; [done|].
  simpl in Ha. apply andb_true_iff in Ha as [Hc Ha]. apply negb_true_iff in Hc.
  rewrite splitLines_cons_keep, (IH Ha); [done|exact Hc|].
  intros _ r' ->. simpl in Ha. discriminate Ha.
Qed.

Lemma splitLines_join (l : string) (ls : list string) :
  Forall (fun s => noLF s = true) (l :: ls) →
  JS.splitLines (JS.join JS.CRLF (l :: ls)) = l :: ls.
Proof.
  revert l. induction ls as [|l' ls IH]; intros l H.
  - simpl. apply splitLines_noLF. by inversion H.
  - inversion H as [|? ? Hl Hls]; subst.
    change (JS.join JS.CRLF (l :: l' :: ls)) with (l +:+ JS.CRLF +:+ JS.join JS.CRLF (l' :: ls)).
    rewrite splitLines_app_CRLF by done. by rewrite IH.
Qed.

Lemma filter_lineOk (ls : list string) (f : string → bool) :
  (∀ s, lineOk s = true → f s = true) →
  Forall (fun s => lineOk s = true) ls → List.filter f ls = ls.
Proof.
  intros Hf. induction 1 as [|s ls Hs _ IH]; simpl; [done|].
  by rewrite (Hf s Hs), IH.
Qed.

(** Reading back a text that was written gives the lines written. *)
Lemma filterFileData_written (ls : list string) (plugins : bool) :
  Forall (fun s => lineOk s = true) ls →
  filterFileData (header +:+ JS.join JS.CRLF ls) plugins = ls.
Proof.
  intros H. unfold filterFileData, header. rewrite append_assoc.
  rewrite splitLines_app_CRLF by reflexivity.
  cbn [List.filter]. replace (negb (JS.startsWith _ "#") && _) with false by reflexivity.
  destruct ls as [|l ls]; [reflexivity|].
  rewrite splitLines_join.
  - apply filter_lineOk; [|done]. intros s Hs. unfold lineOk in Hs.
    apply andb_true_iff in Hs as [Hs H3]. apply andb_true_iff in Hs as [_ H2].
    by rewrite H2, H3.
  - eapply Forall_impl; [exact H|]. intros s Hs. unfold lineOk in Hs.
    apply andb_true_iff in Hs as [Hs _]. by apply andb_true_iff in Hs as [Hs _].
Qed.

(** ** Encodings *)

Lemma decodeUtf8_encodeChar c l :
  Iconv.decodeUtf8 (Iconv.encodeChar c ++ l) = String c (Iconv.decodeUtf8 l).
Proof. destruct c as [[] [] [] [] [] [] [] []]; reflexivity. Qed.

Lemma decodeUtf8_encodeUtf8 s : Iconv.decodeUtf8 (Iconv.encodeUtf8 s) = s.
Proof.
  induction s as [|c s IH]; [done|].
  cbn [Iconv.encodeUtf8]. by rewrite decodeUtf8_encodeChar, IH.
Qed.

Lemma stripBOM_encodeUtf8 s : Iconv.stripBOM (Iconv.encodeUtf8 s) = Iconv.encodeUtf8 s.
Proof.
  destruct s as [|c s]; [done|]. cbn [Iconv.encodeUtf8].
  assert (∃ b l, Iconv.encodeChar c = b :: l ∧ (Iconv.valOf b =? 239) = false) as (b & l & -> & Hb).
  { destruct c as [[] [] [] [] [] [] [] []]; eexists _, _; split; reflexivity. }
  unfold Iconv.stripBOM. simpl. destruct (l ++ Iconv.encodeUtf8 s) as [|b2 [|b3 r]]; [done..|].
  by rewrite Hb.
Qed.

Lemma decode_encode s enc : Iconv.decode (Iconv.encode s enc) enc = s.
Proof.
  destruct enc; simpl.
  - by rewrite stripBOM_encodeUtf8, decodeUtf8_encodeUtf8.
  - apply string_of_list_byte_of_string.
Qed.

Lemma encode_not_empty s enc :
  (Z.of_nat (length (Iconv.encode (header +:+ s) enc)) =? 0) = false.
Proof. by destruct enc. Qed.

(** ** [initFromKeyList] *)

Lemma numbered_keys s f ks : map fst (numbered s f ks) = ks.
Proof. revert s. induction ks as [|k r IH]; intros s; simpl; [done|]. by rewrite IH. Qed.

Lemma get_numbered s f ks k :
  k ∈ ks → ∃ n, Obj.get (numbered s f ks) k = Some (mkLoadOrder (f k) n) ∧ s <= n.
Proof.
  revert s. induction ks as [|k' r IH]; intros s Hk; [by apply elem_of_nil in Hk|].
  simpl. destruct (String.eqb_spec k' k) as [->|Hne].
  - exists s. split; [done|lia].
  - apply elem_of_cons in Hk as [->|Hk]; [done|].
    destruct (IH (s + 1) Hk) as (n & Hn & Hle). exists n. split; [done|lia].
Qed.

Section InitFromKeyList.
Context (t : PluginPersistor).

(** A new name goes to the end of the table with the next number. *)
Lemma initKey_new (en flag : bool) (P : IPluginMap) (pos : Z) (line k : string) :
  (en && (match mPluginFormat t with Some original => true | _ => false end
          || JS.firstIs line "*")) = flag →
  (if match mPluginFormat t with Some fallout4 => true | _ => false end && JS.firstIs line "*"
   then JS.slice1 line else line) = k →
  nonNative t k → Obj.get P k = None → JS.isInherited k = false →
  initKey t en (P, pos) line = (P ++ [(k, mkLoadOrder flag pos)], pos + 1).
Proof.
  intros Hflag Hk Hn Hget Hinh. unfold initKey. rewrite Hflag, Hk.
  unfold nonNative in Hn. rewrite Hn, Hget, Hinh. by rewrite set_fresh.
Qed.

Lemma initKeys_new (en : bool) (f : string → bool) (render : string → string)
    (ks : list string) (P : IPluginMap) (pos : Z) :
  (∀ k, k ∈ ks →
     (en && (match mPluginFormat t with Some original => true | _ => false end
             || JS.firstIs (render k) "*")) = f k
     ∧ (if match mPluginFormat t with Some fallout4 => true | _ => false end
           && JS.firstIs (render k) "*"
        then JS.slice1 (render k) else render k) = k
     ∧ nonNative t k ∧ JS.isInherited k = false) →
  NoDup ks → (∀ k, k ∈ ks → Obj.get P k = None) →
  fold_left (initKey t en) (map render ks) (P, pos)
  = (P ++ numbered pos f ks, pos + Z.of_nat (length ks)).
Proof.
  revert P pos. induction ks as [|k r IH]; intros P pos Hks Hnd Hfresh.
  - simpl. by rewrite app_nil_r, Z.add_0_r.
  - apply NoDup_cons in Hnd as [Hk Hnd]. cbn [map fold_left].
    destruct (Hks k) as (H1 & H2 & H3 & H4); [left|].
    rewrite (initKey_new en (f k) P pos (render k) k H1 H2 H3); [|apply Hfresh; left|done].
    rewrite IH; [| |done|].
    + rewrite <- app_assoc. cbn [numbered app length]. f_equal. lia.
    + intros k' Hk'. apply Hks. by right.
    + intros k' Hk'. apply get_None. rewrite map_app. simpl.
      intros [Hin|Hin]%elem_of_app.
      * assert (Obj.get P k' = None) as Hg by (apply Hfresh; by right).
        by apply get_None in Hg.
      * apply list_elem_of_singleton in Hin. by subst.
Qed.

End InitFromKeyList.

Lemma load_order_eta (v : ILoadOrder) : mkLoadOrder (enabled v) (loadOrder v) = v.
Proof. by destruct v. Qed.

Lemma enableAll_keys ks o : map fst (enableAll ks o) = map fst o.
Proof. unfold enableAll. rewrite map_map. by apply map_ext. Qed.

Lemma enableAll_absent k (o : IPluginMap) : k ∉ map fst o → enableAll [k] o = o.
Proof.
  induction o as [|[k' v] r IH]; simpl; [done|].
  rewrite not_elem_of_cons. intros [Hne Hr]. rewrite (IH Hr).
  rewrite bool_decide_eq_false_2 by (rewrite list_elem_of_singleton; congruence).
  by rewrite orb_false_r, load_order_eta.
Qed.

Lemma set_enable (o : IPluginMap) k v :
  NoDup (map fst o) → Obj.get o k = Some v →
  Obj.set o k (mkLoadOrder true (loadOrder v)) = enableAll [k] o.
Proof.
  induction o as [|[k' v'] r IH]; simpl; [done|].
  intros [Hk' Hr]%NoDup_cons. destruct (String.eqb_spec k' k) as [->|Hne].
  - intros [= ->]. rewrite (enableAll_absent k r Hk').
    rewrite bool_decide_eq_true_2 by apply list_elem_of_singleton, eq_refl.
    by rewrite orb_true_r.
  - intros Hg. rewrite (IH Hr Hg).
    rewrite bool_decide_eq_false_2 by (rewrite list_elem_of_singleton; congruence).
    by rewrite orb_false_r, load_order_eta.
Qed.

Lemma enableAll_app ks1 ks2 o : enableAll ks2 (enableAll ks1 o) = enableAll (ks1 ++ ks2) o.
Proof.
  unfold enableAll. rewrite map_map. apply map_ext. intros [k v]. simpl.
  rewrite <- orb_assoc. do 3 f_equal.
  destruct (decide (k ∈ ks1)) as [H1|H1], (decide (k ∈ ks2)) as [H2|H2];
    rewrite ?(bool_decide_eq_true_2 _ H1), ?(bool_decide_eq_false_2 _ H1),
            ?(bool_decide_eq_true_2 _ H2), ?(bool_decide_eq_false_2 _ H2); simpl;
    [rewrite bool_decide_eq_true_2|rewrite bool_decide_eq_true_2
    |rewrite bool_decide_eq_true_2|rewrite bool_decide_eq_false_2];
    rewrite ?elem_of_app; tauto.
Qed.

Lemma enableAll_nil o : enableAll [] o = o.
Proof.
  unfold enableAll. rewrite <- (map_id o) at 2. apply map_ext. intros [k [e l]]. simpl.
  by rewrite orb_false_r.
Qed.

Lemma enableAll_numbered ks' s ks :
  enableAll ks' (numbered s (fun _ => false) ks) = numbered s (fun k => bool_decide (k ∈ ks')) ks.
Proof. revert s. induction ks as [|k r IH]; intros s; simpl; [done|]. by rewrite <- IH. Qed.

Lemma numbered_ext s f g ks : (∀ k, k ∈ ks → f k = g k) → numbered s f ks = numbered s g ks.
Proof.
  revert s. induction ks as [|k r IH]; intros s H; simpl; [done|].
  rewrite (H k) by left. rewrite IH; [done|]. intros k' Hk'. apply H. by right.
Qed.

Section InitKnown.
Context (t : PluginPersistor) (Horiginal : mPluginFormat t = Some original).

(** Under [original], a name that is in the table already is switched
    on by its line in [plugins.txt]. *)
Lemma initKey_known (P : IPluginMap) (pos : Z) (k : string) v :
  nonNative t k → NoDup (map fst P) → Obj.get P k = Some v →
  initKey t true (P, pos) k = (enableAll [k] P, pos).
Proof.
  intros Hn Hnd Hg. unfold initKey. rewrite Horiginal. simpl.
  unfold nonNative in Hn. rewrite Hn, Hg. by rewrite set_enable.
Qed.

Lemma initKeys_known (ks : list string) (P : IPluginMap) (pos : Z) :
  (∀ k, k ∈ ks → nonNative t k ∧ k ∈ map fst P) → NoDup (map fst P) →
  fold_left (initKey t true) ks (P, pos) = (enableAll ks P, pos).
Proof.
  revert P. induction ks as [|k r IH]; intros P Hks Hnd.
  - simpl. by rewrite enableAll_nil.
  - cbn [fold_left]. destruct (Hks k) as [Hn Hin]; [left|].
    apply get_is_Some in Hin as [v Hv].
    rewrite (initKey_known P pos k v Hn Hnd Hv).
    rewrite IH.
    + by rewrite enableAll_app.
    + intros k' Hk'. rewrite enableAll_keys. apply Hks. by right.
    + by rewrite enableAll_keys.
Qed.

End InitKnown.

(** ** A pass of [doSerialize] *)

Lemma sortedKeys_elem_of t k :
  k ∈ sortedKeys t ↔ k ∈ map fst (mPlugins t) ∧ nonNative t k.
Proof.
  unfold sortedKeys, nonNative. rewrite sort_elem_of, elem_of_filter_bool, keys_elem_of.
  by rewrite negb_true_iff.
Qed.

Lemma sortedKeys_NoDup t : NoDup (map fst (mPlugins t)) → NoDup (sortedKeys t).
Proof.
  intros H. unfold sortedKeys. apply sort_NoDup, NoDup_ListNoDup, List.NoDup_filter.
  by apply NoDup_ListNoDup, keys_NoDup.
Qed.

Lemma sortedKeys_sorted t :
  StronglySorted (byRank (loadOrderOf (mPlugins t))) (sortedKeys t).
Proof. apply (sort_sorted (loadOrderOf (mPlugins t))). Qed.

Lemma toPluginListFallout4_mark t input :
  toPluginListFallout4 t input = map (mark (mPlugins t)) input.
Proof. reflexivity. Qed.

(** What a pass leaves behind when both writes are granted. *)
Lemma doSerialize_completes env w dir :
  mPluginPath (self w) = Some dir → completes env w →
  doSerialize env w =
    mkWorld (with_mSerializing false (with_mFailed false (with_mSerializing true (self w))))
      (S (S (requests w)))
      (trace w ++
       [WriteFile (path_join dir "loadorder.txt")
          (Iconv.encode (header +:+ JS.join JS.CRLF (sortedKeys (self w))) Iconv.utf8) None;
        WriteFile (path_join dir "plugins.txt")
          (Iconv.encode (header +:+ JS.join JS.CRLF (toPluginList (self w) (sortedKeys (self w))))
             Iconv.latin1) None]).
Proof.
  intros Hdir Hok. unfold doSerialize. rewrite Hdir.
  unfold writeFileAsync, update. cbn [self requests trace].
  rewrite (proj1 (Hok _ _)). cbn [self requests trace].
  rewrite (proj2 (Hok _ _)). cbn [self requests trace].
  rewrite <- app_assoc. reflexivity.
Qed.

(** ** Reading back what a pass wrote *)

Lemma portable_lineOk fmt k : portable fmt k = true → lineOk k = true.
Proof.
  unfold portable. intros H. apply andb_true_iff in H as [H _].
  by apply andb_true_iff in H as [H _].
Qed.

Lemma portable_not_inherited fmt k : portable fmt k = true → JS.isInherited k = false.
Proof.
  unfold portable. intros H. apply andb_true_iff in H as [H _].
  apply andb_true_iff in H as [_ H]. by apply negb_true_iff.
Qed.

Lemma portable_no_mark k : portable fallout4 k = true → JS.firstIs k "*" = false.
Proof. unfold portable. intros H. apply andb_true_iff in H as [_ H]. by apply negb_true_iff. Qed.

Lemma lineOk_star k : lineOk k = true → lineOk ("*" +:+ k) = true.
Proof.
  unfold lineOk. intros H. apply andb_true_iff in H as [H _].
  apply andb_true_iff in H as [H _].
  rewrite append_cons, append_nil. cbn [noLF]. rewrite H. reflexivity.
Qed.

Lemma lineOk_mark o k : lineOk k = true → lineOk (mark o k) = true.
Proof. unfold mark. destruct (enabledOf o k); [apply lineOk_star|done]. Qed.

Lemma initFromKeyList_nil t o en : initFromKeyList t o [] en = o.
Proof. reflexivity. Qed.

Lemma sortedKeys_lineOk t fmt :
  (∀ k, k ∈ sortedKeys t → portable fmt k = true) →
  Forall (fun s => lineOk s = true) (sortedKeys t).
Proof. intros H. apply Forall_forall. intros k Hk. eapply portable_lineOk, H, Hk. Qed.

(** The lines of [loadorder.txt], read with [enabled] off. *)
Lemma reload_loadorder t :
  mPluginFormat t = Some original →
  NoDup (map fst (mPlugins t)) →
  (∀ k, k ∈ sortedKeys t → portable original k = true) →
  initFromKeyList t [] (filterFileData (header +:+ JS.join JS.CRLF (sortedKeys t)) false) false
  = numbered 0 (fun _ => false) (sortedKeys t).
Proof.
  intros Hfmt Hnodup Hportable.
  rewrite filterFileData_written by (by eapply sortedKeys_lineOk).
  unfold initFromKeyList. rewrite <- (map_id (sortedKeys t)) at 1.
  rewrite (initKeys_new t false (fun _ => false) (fun k => k)); [done| |by apply sortedKeys_NoDup|done].
  intros k Hk. rewrite Hfmt. repeat split; [|by eapply portable_not_inherited, Hportable].
  by apply sortedKeys_elem_of in Hk as [_ Hn].
Qed.

(** The lines of [plugins.txt], read after [loadorder.txt] if the
    format has one. *)
Lemma reload_plugins t fmt :
  mPluginFormat t = Some fmt →
  NoDup (map fst (mPlugins t)) →
  (∀ k, k ∈ sortedKeys t → portable fmt k = true) →
  initFromKeyList t
    (match fmt with
     | original => numbered 0 (fun _ => false) (sortedKeys t)
     | fallout4 => []
     end)
    (filterFileData (header +:+ JS.join JS.CRLF (toPluginList t (sortedKeys t))) true) true
  = numbered 0 (enabledOf (mPlugins t)) (sortedKeys t).
Proof.
  intros Hfmt Hnodup Hportable.
  unfold toPluginList. rewrite Hfmt. destruct fmt.
  - rewrite filterFileData_written.
    2:{ unfold toPluginListOriginal. apply Forall_forall. intros k Hk.
        apply elem_of_filter_bool in Hk as [Hk _]. eapply portable_lineOk, Hportable, Hk. }
    unfold initFromKeyList. rewrite (initKeys_known t Hfmt).
    + cbn [fst]. rewrite enableAll_numbered. apply numbered_ext. intros k Hk.
      unfold toPluginListOriginal.
      destruct (enabledOf (mPlugins t) k) eqn:E.
      * apply bool_decide_eq_true_2, elem_of_filter_bool. by split.
      * apply bool_decide_eq_false_2. rewrite elem_of_filter_bool. intros [_ H]. congruence.
    + intros k Hk. apply elem_of_filter_bool in Hk as [Hk _]. rewrite numbered_keys.
      split; [|done]. by apply sortedKeys_elem_of in Hk as [_ Hn].
    + rewrite numbered_keys. by apply sortedKeys_NoDup.
  - rewrite toPluginListFallout4_mark. rewrite filterFileData_written.
    2:{ apply Forall_forall. intros line Hline. apply list_elem_of_fmap in Hline as (k & -> & Hk).
        eapply lineOk_mark, portable_lineOk, Hportable, Hk. }
    unfold initFromKeyList.
    rewrite (initKeys_new t true (enabledOf (mPlugins t)) (mark (mPlugins t)));
      [done| |by apply sortedKeys_NoDup|done].
    intros k Hk. rewrite Hfmt. pose proof (portable_no_mark k (Hportable k Hk)) as Hstar.
    assert (nonNative t k) as Hn by (by apply sortedKeys_elem_of in Hk as [_ Hn]).
    assert (JS.isInherited k = false) as Hi by (by eapply portable_not_inherited, Hportable).
    unfold mark. destruct (enabledOf (mPlugins t) k); cbn [andb orb].
    + rewrite append_cons, append_nil. by cbn.
    + by rewrite Hstar.
Qed.

Lemma initKey_ext t t' en acc key :
  mPluginFormat t = mPluginFormat t' → mNativePlugins t = mNativePlugins t' →
  initKey t en acc key = initKey t' en acc key.
Proof. intros H1 H2. unfold initKey. by rewrite H1, H2. Qed.

Lemma initFromKeyList_ext t t' o keys en :
  mPluginFormat t = mPluginFormat t' → mNativePlugins t = mNativePlugins t' →
  initFromKeyList t o keys en = initFromKeyList t' o keys en.
Proof.
  intros H1 H2. unfold initFromKeyList. generalize (o, Z.of_nat (length (Obj.keys o))).
  induction keys as [|k r IH]; intros acc; [done|].
  cbn [fold_left]. by rewrite (initKey_ext t t' en acc k H1 H2), IH.
Qed.

Lemma path_join_inj dir a b : path_join dir a = path_join dir b → a = b.
Proof.
  unfold path_join. intros H. apply String.app_inj in H.
  rewrite !append_cons, !append_nil in H. by inversion H.
Qed.

Lemma written_last tr p d : written (tr ++ [WriteFile p d None]) p = Some d.
Proof.
  induction tr as [|e r IH]; simpl.
  - by rewrite String.eqb_refl.
  - by rewrite IH.
Qed.

Lemma written_before tr p d p' d' :
  p ≠ p' → written (tr ++ [WriteFile p d None; WriteFile p' d' None]) p = Some d.
Proof.
  intros Hne. induction tr as [|e r IH]; simpl.
  - destruct (String.eqb_spec p' p); [congruence|]. by rewrite String.eqb_refl.
  - by rewrite IH.
Qed.

(** [deserialize] on reads that are granted, with something in
    [plugins.txt] or on the second go. *)
Lemma deserialize_loaded env retry w dir data P w1 :
  mPluginPath (self w) = Some dir →
  phaseOne env dir [] w = (ReadOk data, P, w1) →
  (Z.of_nat (length data) =? 0) && negb retry = false →
  deserialize env retry w
  = loaded (initFromKeyList (self w1) P (filterFileData (Iconv.decode data Iconv.latin1) true) true) w1.
Proof.
  intros Hdir Hphase Hcond. unfold deserialize.
  destruct retry; unfold deserializeBody at 1; rewrite Hdir, Hphase, Hcond; reflexivity.
Qed.

Lemma loaded_mPlugins P w : mPlugins (self (loaded P w)) = P.
Proof. unfold loaded. cbn. by destruct (mResetCallback (self w)). Qed.

(** What [phaseOne] finds on the disk a pass has left. *)
Lemma phaseOne_after_pass env w dir fmt :
  mPluginPath (self w) = Some dir → mPluginFormat (self w) = Some fmt →
  NoDup (map fst (mPlugins (self w))) →
  (∀ k, k ∈ sortedKeys (self w) → portable fmt k = true) →
  completes env w →
  let w1 := doSerialize env w in
  ∃ w2, phaseOne (diskOf (trace w1)) dir [] w1
        = (ReadOk (Iconv.encode (header +:+ JS.join JS.CRLF
                                   (toPluginList (self w) (sortedKeys (self w)))) Iconv.latin1),
           match fmt with
           | original => numbered 0 (fun _ => false) (sortedKeys (self w))
           | fallout4 => []
           end, w2)
        ∧ mPluginFormat (self w2) = mPluginFormat (self w)
        ∧ mNativePlugins (self w2) = mNativePlugins (self w).
Proof.
  intros Hdir Hfmt Hnd Hport Hok w1. subst w1.
  rewrite (doSerialize_completes env w dir Hdir Hok).
  assert (path_join dir "loadorder.txt" ≠ path_join dir "plugins.txt") as Hne.
  { intros H. by apply path_join_inj in H. }
  set (t1 := with_mSerializing false (with_mFailed false (with_mSerializing true (self w)))).
  assert (mPluginFormat t1 = Some fmt) as Hfmt1 by exact Hfmt.
  unfold phaseOne, readFileAsync. cbn [self requests trace].
  rewrite Hfmt1. destruct fmt.
  - cbn [readFile diskOf]. rewrite (written_before _ _ _ _ _ Hne).
    rewrite decode_encode.
    change (trace w ++ [?a; ?b]) with (trace w ++ [a] ++ [b]). rewrite app_assoc.
    rewrite written_last. eexists. split.
    { f_equal. f_equal.
      erewrite initFromKeyList_ext; [by apply reload_loadorder| |]; reflexivity. }
    split; [by rewrite Hfmt|reflexivity].
  - cbn [readFile diskOf].
    change (trace w ++ [?a; ?b]) with (trace w ++ [a] ++ [b]). rewrite app_assoc.
    rewrite written_last. eexists. split; [reflexivity|].
    split; [by rewrite Hfmt|reflexivity].
Qed.

Lemma loadOrderOf_numbered_ge s f ks k :
  k ∈ ks → s <= loadOrderOf (numbered s f ks) k.
Proof.
  intros Hk. destruct (get_numbered s f ks k Hk) as (n & Hn & Hle).
  unfold loadOrderOf. by rewrite Hn.
Qed.

Lemma enabledOf_numbered s f ks k : k ∈ ks → enabledOf (numbered s f ks) k = f k.
Proof.
  intros Hk. destruct (get_numbered s f ks k Hk) as (n & Hn & Hle).
  unfold enabledOf. by rewrite Hn.
Qed.

Lemma loadOrderOf_numbered_cons s f k r x :
  loadOrderOf (numbered s f (k :: r)) x
  = if String.eqb k x then s else loadOrderOf (numbered (s + 1) f r) x.
Proof. unfold loadOrderOf. simpl. by destruct (String.eqb k x). Qed.

(** Numbering a list sorted by a rank that tells its members apart
    keeps the order of the ranks. *)
Lemma numbered_order (rank : string → Z) s f ks k1 k2 :
  NoDup ks → StronglySorted (byRank rank) ks →
  (∀ a b, a ∈ ks → b ∈ ks → rank a = rank b → a = b) →
  k1 ∈ ks → k2 ∈ ks →
  (rank k1 < rank k2
   ↔ loadOrderOf (numbered s f ks) k1 < loadOrderOf (numbered s f ks) k2).
Proof.
  revert s. induction ks as [|k r IH]; intros s Hnd Hsorted Hinj H1 H2.
  - by apply elem_of_nil in H1.
  - apply NoDup_cons in Hnd as [Hk Hnd].
    apply StronglySorted_inv in Hsorted as [Hsorted Hall].
    rewrite Forall_forall in Hall. unfold byRank in Hall.
    rewrite !loadOrderOf_numbered_cons.
    assert (∀ x, x ∈ r → rank k < rank x) as Hlt.
    { intros x Hx. specialize (Hall x Hx).
      destruct (Z.eq_dec (rank k) (rank x)) as [E|E]; [|lia].
      apply Hinj in E; [by subst|left|by right]. }
    apply elem_of_cons in H1 as [->|H1], H2 as [->|H2].
    + rewrite String.eqb_refl. lia.
    + rewrite String.eqb_refl. destruct (String.eqb_spec k k2) as [->|_]; [done|].
      pose proof (loadOrderOf_numbered_ge (s + 1) f r k2 H2). specialize (Hlt k2 H2). lia.
    + rewrite String.eqb_refl. destruct (String.eqb_spec k k1) as [->|_]; [done|].
      pose proof (loadOrderOf_numbered_ge (s + 1) f r k1 H1). specialize (Hlt k1 H1). lia.
    + destruct (String.eqb_spec k k1) as [->|_]; [done|].
      destruct (String.eqb_spec k k2) as [->|_]; [done|].
      apply IH; [done..| |done|done].
      intros a b Ha Hb. apply Hinj; by right.
Qed.

(** The table a load gives back from the files of a pass. *)
Lemma numbered_sameTable t :
  NoDup (map fst (mPlugins t)) → distinctOrders t →
  sameTable t (mPlugins t) (numbered 0 (enabledOf (mPlugins t)) (sortedKeys t)).
Proof.
  intros Hnd Hdist. unfold sameTable. rewrite numbered_keys. split; [|split].
  - apply sortedKeys_elem_of.
  - intros k Hk. by apply enabledOf_numbered.
  - intros k1 k2 H1 H2. apply numbered_order; [by apply sortedKeys_NoDup|apply sortedKeys_sorted| |done..].
    intros a b [Ha Hna]%sortedKeys_elem_of [Hb Hnb]%sortedKeys_elem_of.
    apply get_is_Some in Ha as [va Hva], Hb as [vb Hvb].
    unfold loadOrderOf. rewrite Hva, Hvb. by apply (Hdist a b va vb).
Qed.

(** ** Round trip (C1) *)

Lemma doSerialize_mPluginPath env w : mPluginPath (self (doSerialize env w)) = mPluginPath (self w).
Proof.
  unfold doSerialize. destruct (mPluginPath (self w)) eqn:E; [|done].
  unfold writeFileAsync, reportError, update, emit. cbn [self requests trace].
  branches; exact E.
Qed.

(** C1 (amended). Take a table whose entries outside the native set
    have load orders that differ and names that are portable: made of
    characters up to U+00FF, which is what Latin-1 carries and what a
    [string] holds, a line of their own (not empty, no line feed), no
    comment (no leading [#]), not a name every object inherits, and
    under [fallout4] no leading [*]. A pass that is granted its writes, followed by a load from the
    files written, gives a table with the same names outside the native
    set, the same flag for each, and the same ranking by load order. *)
Theorem roundtrip_portable (env : Env) (w : World) (dir : string) (fmt : PluginFormat) :
  mPluginPath (self w) = Some dir →
  mPluginFormat (self w) = Some fmt →
  NoDup (map fst (mPlugins (self w))) →
  distinctOrders (self w) →
  (∀ k, k ∈ map fst (mPlugins (self w)) → nonNative (self w) k → portable fmt k = true) →
  completes env w →
  roundTrips env w.
Proof.
  intros Hdir Hfmt Hnd Hdist Hport Hok. unfold roundTrips.
  assert (∀ k, k ∈ sortedKeys (self w) → portable fmt k = true) as Hport'.
  { intros k [Hk Hn]%sortedKeys_elem_of. by apply Hport. }
  destruct (phaseOne_after_pass env w dir fmt Hdir Hfmt Hnd Hport' Hok) as (w2 & Hphase & Hf2 & Hn2).
  rewrite (deserialize_loaded _ false _ dir _ _ _
             (eq_trans (doSerialize_mPluginPath env w) Hdir) Hphase)
    by (by rewrite encode_not_empty).
  rewrite loaded_mPlugins, decode_encode.
  rewrite (initFromKeyList_ext (self w2) (self w) _ _ _ Hf2 Hn2).
  rewrite (reload_plugins (self w) fmt Hfmt Hnd Hport').
  by apply numbered_sameTable.
Qed.

(** The theorem at the table of the example, under [original]. *)
Lemma roundtrip_portable_witness : roundTrips quiet (world original [] None twoPlugins).
Proof.
  apply (roundtrip_portable quiet (world original [] None twoPlugins) "dir" original).
  - reflexivity.
  - reflexivity.
  - apply (bool_decide_unpack _). vm_compute. reflexivity.
  - intros k1 k2 v1 v2 H1 H2 _ _ Heq. unfold world, twoPlugins in H1, H2.
    cbn [self mPlugins with_mLoaded with_mPlugins Obj.get] in H1, H2.
    destruct (String.eqb_spec "a.esp" k1) as [<-|_];
      [|destruct (String.eqb_spec "b.esp" k1) as [<-|_]; [|done]];
      (destruct (String.eqb_spec "a.esp" k2) as [<-|_];
       [|destruct (String.eqb_spec "b.esp" k2) as [<-|_]; [|done]]);
      injection H1 as <-; injection H2 as <-; cbn in Heq; done.
  - intros k Hk _. unfold world, twoPlugins in Hk.
    cbn [self mPlugins with_mLoaded with_mPlugins map fst] in Hk.
    apply elem_of_cons in Hk as [->|Hk]; [reflexivity|].
    apply list_elem_of_singleton in Hk as ->. reflexivity.
  - intros path data. split; reflexivity.
Defined.

(** C1 as the specification words it fails on a plugin named [#a.esp]:
    its line is read back as a comment, so the name is lost, though the
    table has one entry, whose load order differs from no other. *)
Lemma roundtrip_counterexample :
  NoDup (map fst hashPlugin)
  ∧ distinctOrders (self (world original [] None hashPlugin))
  ∧ completes quiet (world original [] None hashPlugin)
  ∧ ¬ roundTrips quiet (world original [] None hashPlugin).
Proof.
  split; [|split; [|split]].
  - apply (bool_decide_unpack _). vm_compute. reflexivity.
  - intros k1 k2 v1 v2 H1 H2 _ _ _. unfold world, hashPlugin in H1, H2.
    cbn [self mPlugins with_mLoaded with_mPlugins Obj.get] in H1, H2.
    destruct (String.eqb_spec "#a.esp" k1) as [<-|_]; [|done].
    destruct (String.eqb_spec "#a.esp" k2) as [<-|_]; [done|done].
  - intros path data. split; reflexivity.
  - intros [H _]. specialize (H "#a.esp").
    assert (mPlugins (self (deserialize
              (diskOf (trace (doSerialize quiet (world original [] None hashPlugin)))) false
              (doSerialize quiet (world original [] None hashPlugin)))) = []) as E
      by (vm_compute; reflexivity).
    cbv zeta in H. rewrite E in H. destruct H as [_ H].
    eapply not_elem_of_nil, H. split; [left|]. vm_compute. reflexivity.
Qed.

(** ** The files of a pass (C5, C6) *)









(** ** The course of [deserialize] *)

Lemma phaseOne_direct env dir P w :
  mPluginFormat (self w) ≠ Some original →
  phaseOne env dir P w
  = (readFile env (requests w) (path_join dir "plugins.txt"), P,
     mkWorld (self w) (S (requests w)) (trace w ++ [ReadFile (path_join dir "plugins.txt")])).
Proof.
  intros H. unfold phaseOne, readFileAsync.
  destruct (mPluginFormat (self w)) as [[]|]; [done|reflexivity..].
Qed.

Lemma phaseOne_original_fail env dir P w err :
  mPluginFormat (self w) = Some original →
  readFile env (requests w) (path_join dir "loadorder.txt") = ReadFail err →
  phaseOne env dir P w
  = (ReadFail err, P,
     mkWorld (self w) (S (requests w)) (trace w ++ [ReadFile (path_join dir "loadorder.txt")])).
Proof. intros Hf Hr. unfold phaseOne, readFileAsync. by rewrite Hf, Hr. Qed.

Lemma phaseOne_original_ok env dir P w data :
  mPluginFormat (self w) = Some original →
  readFile env (requests w) (path_join dir "loadorder.txt") = ReadOk data →
  phaseOne env dir P w
  = (readFile env (S (requests w)) (path_join dir "plugins.txt"),
     initFromKeyList (self w) P (filterFileData (Iconv.decode data Iconv.utf8) false) false,
     mkWorld (self w) (S (S (requests w)))
       (trace w ++ [ReadFile (path_join dir "loadorder.txt");
                    ReadFile (path_join dir "plugins.txt")])).
Proof.
  intros Hf Hr. unfold phaseOne, readFileAsync. rewrite Hf, Hr.
  cbn [self requests trace]. by rewrite <- app_assoc.
Qed.

Lemma phaseOne_self env dir P w r P' w' :
  phaseOne env dir P w = (r, P', w') → self w' = self w.
Proof.
  unfold phaseOne, readFileAsync. intros H.
  destruct (mPluginFormat (self w)) as [[]|];
    [destruct (readFile env (requests w) _)|..]; by inversion H.
Qed.

Lemma deserialize_nopath env retry w :
  mPluginPath (self w) = None → deserialize env retry w = w.
Proof.
  intros H. unfold deserialize. destruct retry; unfold deserializeBody at 1; by rewrite H.
Qed.

Lemma deserialize_failed env retry w dir err P w1 :
  mPluginPath (self w) = Some dir →
  phaseOne env dir [] w = (ReadFail err, P, w1) →
  deserialize env retry w = readFailed err w1.
Proof.
  intros Hdir Hphase. unfold deserialize.
  destruct retry; unfold deserializeBody at 1; by rewrite Hdir, Hphase.
Qed.

Lemma deserialize_again env w dir P w1 :
  mPluginPath (self w) = Some dir →
  phaseOne env dir [] w = (ReadOk [], P, w1) →
  deserialize env false w = deserialize env true w1.
Proof.
  intros Hdir Hphase. unfold deserialize. unfold deserializeBody at 1.
  by rewrite Hdir, Hphase.
Qed.

Lemma readsOf_app tr tr' : readsOf (tr ++ tr') = readsOf tr ++ readsOf tr'.
Proof. apply omap_app. Qed.

Lemma writesOf_app tr tr' : writesOf (tr ++ tr') = writesOf tr ++ writesOf tr'.
Proof. apply omap_app. Qed.

Lemma reportsOf_app f tr tr' : reportsOf f (tr ++ tr') = reportsOf f tr ++ reportsOf f tr'.
Proof. apply omap_app. Qed.

Lemma timersOf_app tr tr' : timersOf (tr ++ tr') = timersOf tr ++ timersOf tr'.
Proof. apply omap_app. Qed.

(** A failed read with tries left: one try is spent and a timer set. *)
Lemma readFailed_retry err w :
  isENOENT err = false → 0 < mRetryCounter (self w) →
  ∃ evs, readFailed err w
         = mkWorld (with_mRefreshTimer (TimerPending 100)
                      (with_mRetryCounter (mRetryCounter (self w) - 1) (self w)))
             (requests w) (trace w ++ evs)
         ∧ readsOf evs = [] ∧ reportsOf (mOnError (self w)) evs = [] ∧ timersOf evs = [100].
Proof.
  intros He Hc. unfold readFailed, scheduleRefresh, emit, update. rewrite He.
  cbn [self requests trace mRetryCounter].
  rewrite (proj2 (Z.ltb_lt _ _) Hc). cbn [self requests trace mRefreshTimer with_mRetryCounter].
  destruct (mRefreshTimer (self w)); cbn [self requests trace];
    rewrite <- ?app_assoc; eexists; (split; [reflexivity|done]).
Qed.

(** A failed read with no try left: the store counts as loaded, and
    the error is reported unless one has been already. *)
Lemma readFailed_giveUp err w :
  isENOENT err = false → mRetryCounter (self w) <= 0 →
  ∃ evs, readFailed err w
         = mkWorld (with_mFailed true (with_mLoaded true (self w))) (requests w) (trace w ++ evs)
         ∧ readsOf evs = [] ∧ timersOf evs = []
         ∧ reportsOf (mOnError (self w)) evs
           = if mFailed (self w) then [] else [("failed to read plugin list", err)].
Proof.
  intros He Hc. unfold readFailed, reportError, emit, update. rewrite He.
  cbn [self requests trace mRetryCounter].
  rewrite (proj2 (Z.ltb_ge _ _) Hc). cbn [self requests trace mFailed with_mLoaded mOnError].
  destruct (mFailed (self w)) eqn:E; cbn [negb self requests trace].
  - exists [Log "warn" "failed to read plugin file"]. split; [|done].
    f_equal. destruct (self w); cbn in *. by subst.
  - rewrite <- app_assoc. eexists. split; [reflexivity|].
    cbn. by rewrite Nat.eqb_refl.
Qed.

(** ** Failed reads (C8) *)

Lemma phaseOne_fails env dir w :
  attemptFails env (mPluginFormat (self w)) dir (requests w) →
  ∃ err P rq evs,
    phaseOne env dir [] w = (ReadFail err, P, mkWorld (self w) rq (trace w ++ evs))
    ∧ isENOENT err = false
    ∧ (∀ f, reportsOf f evs = []) ∧ timersOf evs = [].
Proof.
  intros H. unfold attemptFails in H.
  destruct (mPluginFormat (self w)) as [[]|] eqn:Hf.
  - destruct H as [(err & Hr & He)|(data & err & Hr & Hr' & He)].
    + rewrite (phaseOne_original_fail env dir [] w err Hf Hr). by eexists _, _, _, _.
    + rewrite (phaseOne_original_ok env dir [] w data Hf Hr), Hr'. by eexists _, _, _, _.
  - destruct H as (err & Hr & He).
    rewrite phaseOne_direct, Hr by (rewrite Hf; discriminate). by eexists _, _, _, _.
  - destruct H as (err & Hr & He).
    rewrite phaseOne_direct, Hr by (rewrite Hf; discriminate). by eexists _, _, _, _.
Qed.

Lemma failed_attempt_retry env w dir :
  mPluginPath (self w) = Some dir →
  attemptFails env (mPluginFormat (self w)) dir (requests w) →
  0 < mRetryCounter (self w) →
  ∃ rq evs,
    deserialize env false w
    = mkWorld (with_mRefreshTimer (TimerPending 100)
                 (with_mRetryCounter (mRetryCounter (self w) - 1) (self w)))
        rq (trace w ++ evs)
    ∧ reportsOf (mOnError (self w)) evs = [] ∧ timersOf evs = [100].
Proof.
  intros Hdir Hfail Hc.
  destruct (phaseOne_fails env dir w Hfail) as (err & P & rq & evs & Hphase & He & Hrep & Htim).
  rewrite (deserialize_failed env false w dir err P _ Hdir Hphase).
  destruct (readFailed_retry err (mkWorld (self w) rq (trace w ++ evs)) He Hc)
    as (evs' & -> & _ & Hrep' & Htim').
  cbn [self requests trace] in *. exists rq, (evs ++ evs').
  rewrite app_assoc. split; [done|].
  by rewrite reportsOf_app, timersOf_app, Hrep, Hrep', Htim, Htim'.
Qed.

Lemma failed_attempt_giveUp env w dir :
  mPluginPath (self w) = Some dir →
  attemptFails env (mPluginFormat (self w)) dir (requests w) →
  mRetryCounter (self w) <= 0 →
  ∃ rq evs err,
    deserialize env false w
    = mkWorld (with_mFailed true (with_mLoaded true (self w))) rq (trace w ++ evs)
    ∧ timersOf evs = []
    ∧ reportsOf (mOnError (self w)) evs
      = if mFailed (self w) then [] else [("failed to read plugin list", err)].
Proof.
  intros Hdir Hfail Hc.
  destruct (phaseOne_fails env dir w Hfail) as (err & P & rq & evs & Hphase & He & Hrep & Htim).
  rewrite (deserialize_failed env false w dir err P _ Hdir Hphase).
  destruct (readFailed_giveUp err (mkWorld (self w) rq (trace w ++ evs)) He Hc)
    as (evs' & -> & _ & Htim' & Hrep').
  cbn [self requests trace] in *. exists rq, (evs ++ evs'), err.
  rewrite app_assoc. split; [done|].
  by rewrite reportsOf_app, timersOf_app, Hrep, Hrep', Htim, Htim'.
Qed.

Lemma timerFires_pending env t rq tr ms :
  mRefreshTimer t = TimerPending ms →
  timerFires env (mkWorld t rq tr)
  = deserialize env false (mkWorld (with_mRefreshTimer TimerNull t) rq tr).
Proof. intros H. unfold timerFires. cbn [self]. by rewrite H. Qed.

Lemma attempts_S env k w rq evs t :
  deserialize env false w = mkWorld t rq evs →
  mRefreshTimer t = TimerPending 100 →
  attempts env (S k) w = attempts env k (mkWorld (with_mRefreshTimer TimerNull t) rq evs).
Proof.
  intros H Ht. unfold attempts. rewrite H. cbn [timersFire].
  by rewrite (timerFires_pending env t rq evs 100 Ht).
Qed.

(** With [n] tries left, [1 + n] failed attempts in a row end the run. *)
Lemma failed_attempts env dir (n : nat) :
  ∀ w f fmt,
    mPluginPath (self w) = Some dir → mPluginFormat (self w) = fmt → mOnError (self w) = f →
    (∀ m, attemptFails env fmt dir m) →
    mRetryCounter (self w) = Z.of_nat n →
    (∃ err, reportsOf f (trace (attempts env n w))
            = reportsOf f (trace w)
              ++ if mFailed (self w) then [] else [("failed to read plugin list", err)])
    ∧ mLoaded (self (attempts env n w)) = true
    ∧ mRetryCounter (self (attempts env n w)) = 0
    ∧ timersOf (trace (attempts env n w)) = timersOf (trace w) ++ replicate n 100
    ∧ ∀ k, (k <= n)%nat → mPlugins (self (attempts env k w)) = mPlugins (self w).
Proof.
  induction n as [|n IH]; intros w f fmt Hdir Hfmt Hf Hfail Hc.
  - destruct (failed_attempt_giveUp env w dir Hdir) as (rq & evs & err & Hd & Htim & Hrep).
    { rewrite Hfmt. apply Hfail. }
    { lia. }
    unfold attempts. cbn [timersFire]. rewrite Hd. cbn [self trace].
    rewrite Hf in Hrep. rewrite reportsOf_app, timersOf_app, Hrep, Htim.
    split; [by exists err|]. split; [done|]. split; [exact Hc|]. split; [done|].
    intros k Hk. assert (k = 0%nat) as -> by lia. reflexivity.
  - destruct (failed_attempt_retry env w dir Hdir) as (rq & evs & Hd & Hrep & Htim).
    { rewrite Hfmt. apply Hfail. }
    { lia. }
    rewrite Hf in Hrep.
    pose proof (attempts_S env) as Hstep.
    specialize (fun k => Hstep k w _ _ _ Hd eq_refl).
    set (w1 := mkWorld _ rq (trace w ++ evs)) in Hstep.
    destruct (IH w1 f fmt) as ((err & Hr) & Hl & Hc' & Ht & Hp); [done..| |].
    { cbn. lia. }
    rewrite Hstep. split; [|split; [done|split; [done|split]]].
    + exists err. rewrite Hr. subst w1. cbn [self trace].
      rewrite reportsOf_app, Hrep, app_nil_r. reflexivity.
    + rewrite Ht. subst w1. cbn [self trace]. rewrite timersOf_app, Htim.
      rewrite <- app_assoc. reflexivity.
    + intros [|k] Hk.
      * unfold attempts. cbn [timersFire]. by rewrite Hd.
      * rewrite Hstep. rewrite Hp by lia. reflexivity.
Qed.

(** C8 (amended). With the path set and a full budget of tries, the
    first attempt and the [retryCount] attempts the timer brings, all
    failing with a read error other than a missing file, leave the store
    loaded and the table as it was after every one of them, set a timer
    of 100 ms [retryCount] times, and report the error once when the
    failed flag was clear at the start, and not at all when it was set. *)
Theorem retry_exhaustion (env : Env) (w : World) (dir : string) :
  mPluginPath (self w) = Some dir →
  mRetryCounter (self w) = retryCount →
  (∀ n, attemptFails env (mPluginFormat (self w)) dir n) →
  (mFailed (self w) = false → exhausted env w)
  ∧ (mFailed (self w) = true →
     reportsOf (mOnError (self w)) (trace (attempts env (Z.to_nat retryCount) w))
     = reportsOf (mOnError (self w)) (trace w))
  ∧ mLoaded (self (attempts env (Z.to_nat retryCount) w)) = true
  ∧ timersOf (trace (attempts env (Z.to_nat retryCount) w))
    = timersOf (trace w) ++ replicate (Z.to_nat retryCount) 100
  ∧ ∀ k, (k <= Z.to_nat retryCount)%nat →
         mPlugins (self (attempts env k w)) = mPlugins (self w).
Proof.
  intros Hdir Hc Hfail.
  destruct (failed_attempts env dir (Z.to_nat retryCount) w _ _ Hdir eq_refl eq_refl Hfail)
    as ((err & Hr) & Hl & _ & Ht & Hp); [by rewrite Hc|].
  split; [|split; [|split; [done|split; [done|done]]]].
  - intros Hfl. rewrite Hfl in Hr. split; [by eexists|]. split; [done|done].
  - intros Hfl. rewrite Hfl, app_nil_r in Hr. exact Hr.
Qed.

Lemma retry_exhaustion_witness : exhausted locked (world original [] None twoPlugins).
Proof.
  apply (retry_exhaustion locked (world original [] None twoPlugins) "dir").
  - reflexivity.
  - reflexivity.
  - intros n. left. exists EBUSY. split; reflexivity.
  - reflexivity.
Defined.

(** C8 as the specification words it fails after a pass whose writes
    have failed: that has been reported and has set the failed flag,
    the budget is full, the four attempts fail, and no report is added. *)
Lemma retry_exhaustion_counterexample :
  mPluginPath (self afterFailedWrite) = Some "dir"
  ∧ mRetryCounter (self afterFailedWrite) = retryCount
  ∧ (∀ n, attemptFails locked (mPluginFormat (self afterFailedWrite)) "dir" n)
  ∧ reportsOf (mOnError (self afterFailedWrite))
      (trace (attempts locked (Z.to_nat retryCount) afterFailedWrite))
    = reportsOf (mOnError (self afterFailedWrite)) (trace afterFailedWrite)
  ∧ ¬ exhausted locked afterFailedWrite.
Proof.
  split; [reflexivity|]. split; [reflexivity|]. split; [|split; [reflexivity|]].
  - intros n. left. exists EBUSY. split; reflexivity.
  - intros [[report H] _]. vm_compute in H. discriminate H.
Qed.

(** ** An empty [plugins.txt] (C9) *)

Lemma elem_of_set (o : IPluginMap) k v k' v' :
  (k', v') ∈ Obj.set o k v → (k', v') ∈ o ∨ (k', v') = (k, v).
Proof.
  induction o as [|[k2 v2] r IH]; simpl.
  - intros ->%list_elem_of_singleton. by right.
  - destruct (String.eqb_spec k2 k) as [->|Hne].
    + intros [->|H]%elem_of_cons; [by right|]. left. by right.
    + intros [->|H]%elem_of_cons; [left; left|].
      destruct (IH H) as [H'|H']; [left; by right|by right].
Qed.

Lemma initKey_disabled t acc key :
  noneEnabled (fst acc) → noneEnabled (fst (initKey t false acc key)).
Proof.
  destruct acc as [P pos]. unfold initKey. cbn [andb fst].
  intros HP.
  cases; cbn [fst]; try exact HP;
    intros k v [H| [= -> ->]]%elem_of_set; try (by eapply HP); done.
Qed.

Lemma initFromKeyList_disabled t o keys :
  noneEnabled o → noneEnabled (initFromKeyList t o keys false).
Proof.
  unfold initFromKeyList. generalize (Z.of_nat (length (Obj.keys o))). intros pos.
  change o with (fst (o, pos)) at 1. generalize (o, pos). clear o pos.
  induction keys as [|k r IH]; intros acc H; [exact H|].
  cbn [fold_left]. apply IH. by apply initKey_disabled.
Qed.

(** What [phaseOne] has done when it comes back with data. *)
Lemma phaseOne_ok env dir w data P w1 :
  phaseOne env dir [] w = (ReadOk data, P, w1) →
  self w1 = self w
  ∧ readsOf (trace w1) = readsOf (trace w) ++ attemptReads (mPluginFormat (self w)) dir
  ∧ timersOf (trace w1) = timersOf (trace w)
  ∧ (∀ f, reportsOf f (trace w1) = reportsOf f (trace w))
  ∧ noneEnabled P
  ∧ (mPluginFormat (self w) ≠ Some original → P = []).
Proof.
  intros H. assert (noneEnabled []) as Hnil by (intros k v Hk; by apply elem_of_nil in Hk).
  destruct (mPluginFormat (self w)) as [[]|] eqn:Hf.
  - destruct (readFile env (requests w) (path_join dir "loadorder.txt")) as [d|err] eqn:Hr.
    + rewrite (phaseOne_original_ok env dir [] w d Hf Hr) in H. inversion H; subst.
      cbn [self trace attemptReads]. rewrite readsOf_app, timersOf_app.
      repeat split; [by rewrite app_nil_r|by intros f; rewrite reportsOf_app, app_nil_r| |done].
      by apply initFromKeyList_disabled.
    + rewrite (phaseOne_original_fail env dir [] w err Hf Hr) in H. by inversion H.
  - rewrite phaseOne_direct in H by (rewrite Hf; discriminate). inversion H; subst.
    cbn [self trace attemptReads]. rewrite readsOf_app, timersOf_app.
    repeat split; [by rewrite app_nil_r|by intros f; rewrite reportsOf_app, app_nil_r|done].
  - rewrite phaseOne_direct in H by (rewrite Hf; discriminate). inversion H; subst.
    cbn [self trace attemptReads]. rewrite readsOf_app, timersOf_app.
    repeat split; [by rewrite app_nil_r|by intros f; rewrite reportsOf_app, app_nil_r|done].
Qed.

(** What [loaded] leaves. *)
Lemma loaded_spec P w :
  mPlugins (self (loaded P w)) = P
  ∧ mLoaded (self (loaded P w)) = true
  ∧ mFailed (self (loaded P w)) = false
  ∧ mRetryCounter (self (loaded P w))
    = match mResetCallback (self w) with
      | Some _ => retryCount
      | None => mRetryCounter (self w)
      end
  ∧ mRefreshTimer (self (loaded P w)) = mRefreshTimer (self w)
  ∧ readsOf (trace (loaded P w)) = readsOf (trace w)
  ∧ timersOf (trace (loaded P w)) = timersOf (trace w)
  ∧ trace (loaded P w)
    = trace w ++ match mResetCallback (self w) with Some cb => [Call cb []] | None => [] end.
Proof.
  unfold loaded, update, emit. cbn [self requests trace mResetCallback with_mLoaded with_mPlugins].
  destruct (mResetCallback (self w)); cbn [self requests trace];
    rewrite ?readsOf_app, ?timersOf_app, ?app_nil_r; done.
Qed.

(** C9. When [plugins.txt] comes back empty on the first attempt of a
    [deserialize], the whole of it is run once more, so that every file
    of an attempt is read twice and no more. When [plugins.txt] is empty
    again, that is taken as the list: the table goes in with no plugin
    enabled (and nothing at all in it unless [loadorder.txt] gave names),
    the store is loaded, no timer is set and no try is spent. *)
Theorem empty_plugins_retried_once (env : Env) (w w1 w2 : World) (dir : string)
    (P1 P2 : IPluginMap) :
  mPluginPath (self w) = Some dir →
  phaseOne env dir [] w = (ReadOk [], P1, w1) →
  phaseOne env dir [] w1 = (ReadOk [], P2, w2) →
  readsOf (trace (deserialize env false w))
  = readsOf (trace w) ++ attemptReads (mPluginFormat (self w)) dir
                      ++ attemptReads (mPluginFormat (self w)) dir
  ∧ mPlugins (self (deserialize env false w)) = P2
  ∧ noneEnabled P2
  ∧ (mPluginFormat (self w) ≠ Some original → P2 = [])
  ∧ mLoaded (self (deserialize env false w)) = true
  ∧ timersOf (trace (deserialize env false w)) = timersOf (trace w)
  ∧ mRefreshTimer (self (deserialize env false w)) = mRefreshTimer (self w)
  ∧ mRetryCounter (self (deserialize env false w))
    = match mResetCallback (self w) with
      | Some _ => retryCount
      | None => mRetryCounter (self w)
      end.
Proof.
  intros Hdir H1 H2.
  destruct (phaseOne_ok env dir w [] P1 w1 H1) as (Hs1 & Hr1 & Ht1 & _ & _ & _).
  destruct (phaseOne_ok env dir w1 [] P2 w2 H2) as (Hs2 & Hr2 & Ht2 & _ & Hnone & Hnil).
  rewrite (deserialize_again env w dir P1 w1 Hdir H1).
  rewrite (deserialize_loaded env true w1 dir [] P2 w2) by (by rewrite ?Hs1).
  cbn [Iconv.decode String.string_of_list_byte]. change (filterFileData _ true) with (@nil string).
  rewrite initFromKeyList_nil.
  destruct (loaded_spec P2 w2) as (Hp & Hl & _ & Hc & Htm & Hr & Ht & _).
  rewrite Hp, Hl, Hc, Htm, Hr, Ht, Hr2, Hr1, Ht2, Ht1, Hs2, Hs1. rewrite <- app_assoc.
  rewrite Hs1 in Hnil.
  split; [done|]. split; [done|]. split; [exact Hnone|]. split; [exact Hnil|]. done.
Qed.

Lemma empty_plugins_retried_once_witness :
  readsOf (trace (deserialize blank false (world original [] None twoPlugins)))
  = ["dir/loadorder.txt"; "dir/plugins.txt"; "dir/loadorder.txt"; "dir/plugins.txt"]
  ∧ mPlugins (self (deserialize blank false (world original [] None twoPlugins))) = [].
Proof.
  destruct (empty_plugins_retried_once blank (world original [] None twoPlugins)
              (mkWorld (self (world original [] None twoPlugins)) 2
                 [ReadFile "dir/loadorder.txt"; ReadFile "dir/plugins.txt"])
              (mkWorld (self (world original [] None twoPlugins)) 4
                 [ReadFile "dir/loadorder.txt"; ReadFile "dir/plugins.txt";
                  ReadFile "dir/loadorder.txt"; ReadFile "dir/plugins.txt"])
              "dir" [] [])
    as (Hreads & Htable & _).
  - reflexivity.
  - reflexivity.
  - reflexivity.
  - split; [exact Hreads|exact Htable].
Defined.

(** ** The counter of tries (C4) *)




(** ** The files under [fallout4] (C3) *)

Lemma readFailed_reads err w : readsOf (trace (readFailed err w)) = readsOf (trace w).
Proof.
  unfold readFailed, scheduleRefresh, reportError, update, emit.
  branches; rewrite ?readsOf_app; cbn; by rewrite ?app_nil_r.
Qed.

Lemma deserialize_reads_direct env retry w dir :
  mPluginPath (self w) = Some dir →
  mPluginFormat (self w) ≠ Some original →
  ∃ n, readsOf (trace (deserialize env retry w))
       = readsOf (trace w) ++ replicate n (path_join dir "plugins.txt").
Proof.
  intros Hdir Hfmt.
  assert (∀ w, mPluginPath (self w) = Some dir → mPluginFormat (self w) ≠ Some original →
            readsOf (trace (deserialize env true w))
            = readsOf (trace w) ++ [path_join dir "plugins.txt"]) as Htrue.
  { clear w Hdir Hfmt. intros w Hdir Hfmt.
    pose proof (phaseOne_direct env dir [] w Hfmt) as Hphase.
    destruct (readFile env (requests w) (path_join dir "plugins.txt")) as [data|err].
    - rewrite (deserialize_loaded env true w dir data [] _ Hdir Hphase) by apply andb_false_r.
      destruct (loaded_spec (initFromKeyList (self w) []
                  (filterFileData (Iconv.decode data Iconv.latin1) true) true)
                  (mkWorld (self w) (S (requests w))
                     (trace w ++ [ReadFile (path_join dir "plugins.txt")])))
        as (_ & _ & _ & _ & _ & Hr & _).
      cbn [self] in Hr |- *. rewrite Hr. cbn [trace]. by rewrite readsOf_app.
    - rewrite (deserialize_failed env true w dir err [] _ Hdir Hphase).
      rewrite readFailed_reads. cbn [trace]. by rewrite readsOf_app. }
  destruct retry; [exists 1%nat; by apply Htrue|].
  pose proof (phaseOne_direct env dir [] w Hfmt) as Hphase.
  destruct (readFile env (requests w) (path_join dir "plugins.txt")) as [[|b data]|err].
  - rewrite (deserialize_again env w dir [] _ Hdir Hphase).
    rewrite Htrue by done. cbn [trace]. rewrite readsOf_app, <- app_assoc. by exists 2%nat.
  - rewrite (deserialize_loaded env false w dir (b :: data) [] _ Hdir Hphase) by reflexivity.
    destruct (loaded_spec (initFromKeyList (self w) []
                (filterFileData (Iconv.decode (b :: data) Iconv.latin1) true) true)
                (mkWorld (self w) (S (requests w))
                   (trace w ++ [ReadFile (path_join dir "plugins.txt")])))
      as (_ & _ & _ & _ & _ & Hr & _).
    cbn [self] in Hr |- *. rewrite Hr. cbn [trace]. rewrite readsOf_app. by exists 1%nat.
  - rewrite (deserialize_failed env false w dir err [] _ Hdir Hphase).
    rewrite readFailed_reads. cbn [trace]. rewrite readsOf_app. by exists 1%nat.
Qed.

(** A pass begins by writing [loadorder.txt], whatever the format. *)
Lemma doSerialize_writes env w dir :
  mPluginPath (self w) = Some dir →
  ∃ rest, writesOf (trace (doSerialize env w))
          = writesOf (trace w) ++ path_join dir "loadorder.txt" :: rest
          ∧ (rest = [] ∨ rest = [path_join dir "plugins.txt"]).
Proof.
  intros Hdir. unfold doSerialize. rewrite Hdir.
  unfold writeFileAsync, reportError, update, emit. cbn [self requests trace].
  branches; rewrite ?writesOf_app; cbn [writesOf omap]; rewrite <- ?app_assoc;
    eexists; (split; [reflexivity|]); auto.
Qed.

(** C3 (amended). Under [fallout4] a pass writes [loadorder.txt] first
    and then, when that write is granted, [plugins.txt], as under
    [original]; it is [deserialize] that leaves [loadorder.txt] alone
    under [fallout4] and reads [plugins.txt] only, so that on the way in
    the load order is the order of the lines of [plugins.txt]. *)
Theorem fallout4_files (env : Env) (w : World) (dir : string) :
  mPluginPath (self w) = Some dir →
  mPluginFormat (self w) = Some fallout4 →
  (∃ rest, writesOf (trace (doSerialize env w))
           = writesOf (trace w) ++ path_join dir "loadorder.txt" :: rest
           ∧ (rest = [] ∨ rest = [path_join dir "plugins.txt"]))
  ∧ (completes env w →
     writesOf (trace (doSerialize env w))
     = writesOf (trace w) ++ [path_join dir "loadorder.txt"; path_join dir "plugins.txt"])
  ∧ ∀ env' retry,
      ∃ n, readsOf (trace (deserialize env' retry w))
           = readsOf (trace w) ++ replicate n (path_join dir "plugins.txt").
Proof.
  intros Hdir Hfmt. split; [by apply doSerialize_writes|]. split.
  - intros Hok. rewrite (doSerialize_completes env w dir Hdir Hok). cbn [trace].
    by rewrite writesOf_app.
  - intros env' retry. apply deserialize_reads_direct; [done|]. by rewrite Hfmt.
Qed.

Lemma fallout4_files_witness :
  ∃ rest, writesOf (trace (doSerialize locked (world fallout4 [] None twoPlugins)))
          = "dir/loadorder.txt" :: rest.
Proof.
  destruct (fallout4_files locked (world fallout4 [] None twoPlugins) "dir")
    as [(rest & H & _) _].
  - reflexivity.
  - reflexivity.
  - exists rest. exact H.
Defined.

(** C3 as the specification words it fails on the table of the
    example: the pass under [fallout4] writes [loadorder.txt] too. *)
Lemma fallout4_files_counterexample :
  mPluginFormat (self (world fallout4 [] None twoPlugins)) = Some fallout4
  ∧ trace (doSerialize quiet (world fallout4 [] None twoPlugins))
    = [WriteFile "dir/loadorder.txt"
         (Iconv.encode (header +:+ "a.esp" +:+ JS.CRLF +:+ "b.esp") Iconv.utf8) None;
       WriteFile "dir/plugins.txt"
         (Iconv.encode (header +:+ "*a.esp" +:+ JS.CRLF +:+ "b.esp") Iconv.latin1) None]
  ∧ writesOf (trace (doSerialize quiet (world fallout4 [] None twoPlugins)))
    ≠ ["dir/plugins.txt"].
Proof. split; [reflexivity|]. split; [reflexivity|]. vm_compute. discriminate. Qed.

(** ** Native plugins (C7) *)

Lemma nonNative_no_match t natives k :
  mNativePlugins t = Some natives → lowerCased natives →
  nonNative t k → ¬ matchesNative natives k.
Proof.
  intros HN Hlow Hk (e & He & Heq). unfold nonNative, has in Hk. rewrite HN in Hk.
  apply bool_decide_eq_false in Hk. apply Hk. rewrite <- Heq. by rewrite (Hlow e He).
Qed.

Lemma elem_of_keys_set (o : IPluginMap) k v k' :
  k' ∈ map fst (Obj.set o k v) → k' ∈ map fst o ∨ k' = k.
Proof.
  intros ([k2 v2] & -> & H)%list_elem_of_fmap.
  apply elem_of_set in H as [H|[= -> ->]]; [left|by right].
  apply list_elem_of_fmap. by exists (k2, v2).
Qed.

Lemma initKey_nonNative t en acc key :
  (∀ k, k ∈ map fst (fst acc) → nonNative t k) →
  ∀ k, k ∈ map fst (fst (initKey t en acc key)) → nonNative t k.
Proof.
  destruct acc as [P pos]. unfold initKey. cbn [fst]. intros HP.
  set (key' := if _ : bool then JS.slice1 key else key).
  destruct (has (mNativePlugins t) (JS.toLowerCase key')) eqn:Hhas; [exact HP|].
  destruct (Obj.get P key'); [|destruct (JS.isInherited key'); [exact HP|]];
    cbn [fst]; intros k [Hk| ->]%elem_of_keys_set; auto.
Qed.

Lemma initKeys_nonNative t en keys acc :
  (∀ k, k ∈ map fst (fst acc) → nonNative t k) →
  ∀ k, k ∈ map fst (fst (fold_left (initKey t en) keys acc)) → nonNative t k.
Proof.
  revert acc. induction keys as [|key r IH]; intros acc H; [exact H|].
  cbn [fold_left]. apply IH. by apply initKey_nonNative.
Qed.

Lemma initFromKeyList_nonNative t o keys en :
  (∀ k, k ∈ map fst o → nonNative t k) →
  ∀ k, k ∈ map fst (initFromKeyList t o keys en) → nonNative t k.
Proof. intros H. unfold initFromKeyList. by apply initKeys_nonNative. Qed.

Lemma phaseOne_table env dir w r P w1 :
  phaseOne env dir [] w = (r, P, w1) →
  self w1 = self w ∧ ∃ keys, P = initFromKeyList (self w) [] keys false.
Proof.
  intros H. split; [by eapply phaseOne_self|].
  destruct (mPluginFormat (self w)) as [[]|] eqn:Hf.
  - destruct (readFile env (requests w) (path_join dir "loadorder.txt")) as [d|err] eqn:Hr.
    + rewrite (phaseOne_original_ok env dir [] w d Hf Hr) in H. inversion H; subst. by eexists.
    + rewrite (phaseOne_original_fail env dir [] w err Hf Hr) in H. inversion H; subst.
      by exists [].
  - rewrite phaseOne_direct in H by (rewrite Hf; discriminate). inversion H; subst. by exists [].
  - rewrite phaseOne_direct in H by (rewrite Hf; discriminate). inversion H; subst. by exists [].
Qed.

Lemma readFailed_mPlugins err w : mPlugins (self (readFailed err w)) = mPlugins (self w).
Proof.
  unfold readFailed, scheduleRefresh, reportError, update, emit.
  branches; reflexivity.
Qed.

(** A load leaves the table alone, or puts in the one that the lines
    of the files make of the empty table. *)
Lemma deserialize_installs env retry w :
  mPlugins (self (deserialize env retry w)) = mPlugins (self w)
  ∨ ∃ keys0 keys,
      mPlugins (self (deserialize env retry w))
      = initFromKeyList (self w) (initFromKeyList (self w) [] keys0 false) keys true.
Proof.
  assert (∀ w, mPlugins (self (deserialize env true w)) = mPlugins (self w)
               ∨ ∃ keys0 keys,
                   mPlugins (self (deserialize env true w))
                   = initFromKeyList (self w) (initFromKeyList (self w) [] keys0 false) keys true)
    as Htrue.
  { clear w. intros w. destruct (mPluginPath (self w)) as [dir|] eqn:Hdir;
      [|left; by rewrite deserialize_nopath].
    destruct (phaseOne env dir [] w) as [[[data|err] P] w1] eqn:Hphase.
    - right. rewrite (deserialize_loaded env true w dir data P w1 Hdir Hphase)
        by apply andb_false_r.
      rewrite loaded_mPlugins.
      destruct (phaseOne_table env dir w _ _ _ Hphase) as [Hs [keys0 ->]].
      rewrite Hs. by eexists _, _.
    - left. rewrite (deserialize_failed env true w dir err P w1 Hdir Hphase).
      rewrite readFailed_mPlugins. by rewrite (phaseOne_self env dir [] w _ _ _ Hphase). }
  destruct retry; [apply Htrue|].
  destruct (mPluginPath (self w)) as [dir|] eqn:Hdir; [|left; by rewrite deserialize_nopath].
  destruct (phaseOne env dir [] w) as [[[[|b data]|err] P] w1] eqn:Hphase.
  - rewrite (deserialize_again env w dir P w1 Hdir Hphase).
    rewrite <- (phaseOne_self env dir [] w _ _ _ Hphase). apply Htrue.
  - right. rewrite (deserialize_loaded env false w dir (b :: data) P w1 Hdir Hphase)
      by reflexivity.
    rewrite loaded_mPlugins.
    destruct (phaseOne_table env dir w _ _ _ Hphase) as [Hs [keys0 ->]].
    rewrite Hs. by eexists _, _.
  - left. rewrite (deserialize_failed env false w dir err P w1 Hdir Hphase).
    rewrite readFailed_mPlugins. by rewrite (phaseOne_self env dir [] w _ _ _ Hphase).
Qed.

Lemma deserialize_table env retry w :
  mPlugins (self (deserialize env retry w)) = mPlugins (self w)
  ∨ ∀ k, k ∈ map fst (mPlugins (self (deserialize env retry w))) → nonNative (self w) k.
Proof.
  destruct (deserialize_installs env retry w) as [H|(keys0 & keys & ->)]; [by left|right].
  apply initFromKeyList_nonNative, initFromKeyList_nonNative.
  intros k Hk. by apply elem_of_nil in Hk.
Qed.

(** What a pass adds to the trace. *)
Lemma doSerialize_events env w e :
  e ∈ trace (doSerialize env w) →
  e ∈ trace w
  ∨ (∃ path r, e = WriteFile path
                     (Iconv.encode (header +:+ JS.join JS.CRLF (sortedKeys (self w))) Iconv.utf8) r)
  ∨ (∃ path r, e = WriteFile path
                     (Iconv.encode (header +:+ JS.join JS.CRLF
                                      (toPluginList (self w) (sortedKeys (self w))))
                        Iconv.latin1) r)
  ∨ ∃ f args, e = Call f args.
Proof.
  unfold doSerialize. destruct (mPluginPath (self w)) as [dir|]; [|by left].
  unfold writeFileAsync, reportError, update, emit. cbn [self requests trace].
  branches;
    rewrite ?elem_of_app, ?list_elem_of_singleton; intros H;
    repeat match type of H with _ ∨ _ => destruct H as [H|H] end; subst; eauto 8.
Qed.

Lemma toPluginList_lines t line :
  line ∈ toPluginList t (sortedKeys t) →
  ∃ name, (line = name ∨ line = "*" +:+ name) ∧ name ∈ sortedKeys t.
Proof.
  unfold toPluginList. intros H.
  assert (line ∈ toPluginListFallout4 t (sortedKeys t) →
          ∃ name, (line = name ∨ line = "*" +:+ name) ∧ name ∈ sortedKeys t) as Hf4.
  { intros (name & -> & Hname)%list_elem_of_fmap. exists name.
    destruct (enabledOf (mPlugins t) name); auto. }
  destruct (mPluginFormat t) as [[]|]; [|by apply Hf4..].
  apply elem_of_filter_bool in H as [H _]. exists line. auto.
Qed.

(** C7 (amended). Let the native set hold its names in lower case.
    Then every file a pass writes holds, after the header, only lines
    that name entries of the table which match no native plugin, case
    set aside; and a load either leaves the table as it was or puts in a
    table none of whose names matches a native plugin. *)
Theorem native_plugins_excluded (env : Env) (w : World) (natives : gset string) :
  mNativePlugins (self w) = Some natives →
  lowerCased natives →
  (∀ path data r,
     WriteFile path data r ∈ trace (doSerialize env w) →
     WriteFile path data r ∈ trace w ∨ namesOnly (self w) natives data)
  ∧ ∀ retry,
      mPlugins (self (deserialize env retry w)) = mPlugins (self w)
      ∨ ∀ k, matchesNative natives k →
             k ∉ map fst (mPlugins (self (deserialize env retry w))).
Proof.
  intros HN Hlow. split.
  - intros path data r H.
    apply doSerialize_events in H as [H|[(p & r' & H)|[(p & r' & H)|(f & args & H)]]];
      [by left| | |done]; injection H as -> -> ->; right.
    + exists Iconv.utf8, (sortedKeys (self w)). split; [done|].
      intros line [Hk Hn]%sortedKeys_elem_of. exists line.
      split; [by left|]. split; [done|]. by eapply nonNative_no_match.
    + exists Iconv.latin1, (toPluginList (self w) (sortedKeys (self w))). split; [done|].
      intros line (name & Hline & [Hk Hn]%sortedKeys_elem_of)%toPluginList_lines.
      exists name. split; [done|]. split; [done|]. by eapply nonNative_no_match.
  - intros retry. destruct (deserialize_table env retry w) as [H|H]; [by left|right].
    intros k Hmatch Hk. by apply (nonNative_no_match (self w) natives k HN Hlow (H k Hk)).
Qed.

Lemma native_plugins_excluded_witness :
  namesOnly (self (world original ["skyrim.esm"] None
                     (("Skyrim.esm", mkLoadOrder true 5) :: twoPlugins)))
    (list_to_set ["skyrim.esm"])
    (Iconv.encode (header +:+ "a.esp") Iconv.latin1).
Proof.
  destruct (native_plugins_excluded quiet
              (world original ["skyrim.esm"] None
                 (("Skyrim.esm", mkLoadOrder true 5) :: twoPlugins))
              (list_to_set ["skyrim.esm"])) as [Hw _].
  - reflexivity.
  - intros e He. apply elem_of_list_to_set in He.
    apply list_elem_of_singleton in He as ->. reflexivity.
  - destruct (Hw "dir/plugins.txt" (Iconv.encode (header +:+ "a.esp") Iconv.latin1) None)
      as [Hin|Hnames]; [|by apply elem_of_nil in Hin|exact Hnames].
    apply elem_of_cons. right. apply elem_of_cons. left. reflexivity.
Defined.

(** C7 as the specification words it fails for a native set that holds
    [Skyrim.esm] with its capital: the key [Skyrim.esm] matches it, yet
    the pass writes the name to both files, and the load that follows
    takes it into the table. *)
Lemma native_plugins_counterexample :
  matchesNative (list_to_set capitalSet) "Skyrim.esm"
  ∧ trace (doSerialize quiet (world original capitalSet None capitalPlugin))
    = [WriteFile "dir/loadorder.txt"
         (Iconv.encode (header +:+ "Skyrim.esm") Iconv.utf8) None;
       WriteFile "dir/plugins.txt"
         (Iconv.encode (header +:+ "Skyrim.esm") Iconv.latin1) None]
  ∧ mPlugins (self (deserialize
                      (diskOf (trace (doSerialize quiet
                                        (world original capitalSet None capitalPlugin))))
                      false (world original capitalSet None [])))
    = [("Skyrim.esm", mkLoadOrder true 0)].
Proof.
  split; [|split; vm_compute; reflexivity].
  exists "Skyrim.esm". split; [|reflexivity].
  apply elem_of_list_to_set. left.
Qed.

(** ** The key-value interface (C2, C10) *)

Example stringify_twoPlugins :
  JSON.stringify twoPlugins
  = "{" +:+ JSON.quote "a.esp" +:+ ":{" +:+ JSON.quote "enabled" +:+ ":true,"
    +:+ JSON.quote "loadOrder" +:+ ":0}," +:+ JSON.quote "b.esp" +:+ ":{"
    +:+ JSON.quote "enabled" +:+ ":false," +:+ JSON.quote "loadOrder" +:+ ":1}}".
Proof. reflexivity. Qed.

Example parse_stringify_twoPlugins :
  JSON.parse (JSON.stringify twoPlugins) ≫= JSON.asPluginMap = Some twoPlugins.
Proof. reflexivity. Qed.

Example parse_malformed :
  JSON.parse "{" = None ∧ JSON.parse "" = None ∧ JSON.parse "{a:1}" = None
  ∧ JSON.parse "[1,]" = None.
Proof. repeat split; reflexivity. Qed.

(** C2 (amended). When [value] is no JSON text, [setItem] throws the
    [SyntaxError] of [JSON.parse] to its caller at once, with the table
    not replaced and no pass asked for. When [value] is the JSON text
    of a table, [setItem] returns, the table is the one parsed, and a
    pass has joined the queue if the first load is over, with the
    callback after it; nothing else of the store has changed. That pass,
    when nothing was queued before it, is [doSerialize] on the new
    table. *)
Theorem setItem_parse (key value : string) (cb : option Callback) (w : World) :
  (JSON.parse value = None → setItem key value cb w = Some (Throw "SyntaxError"))
  ∧ ∀ v table,
      JSON.parse value = Some v → JSON.asPluginMap v = Some table →
      setItem key value cb w
      = Some (Return
          (mkWorld
             (with_mSerializeQueue
                (mSerializeQueue (self w)
                 ++ (if mLoaded (self w) then [DoSerialize] else [])
                 ++ match cb with Some f => [Notify f] | None => [] end)
                (with_mPlugins table (self w)))
             (requests w) (trace w)))
      ∧ (mLoaded (self w) = true → mSerializeQueue (self w) = [] →
         ∀ env w', setItem key value cb w = Some (Return w') →
           runTask env w'
           = doSerialize env
               (mkWorld
                  (with_mSerializeQueue match cb with Some f => [Notify f] | None => [] end
                     (with_mPlugins table (self w)))
                  (requests w) (trace w))).
Proof.
  split.
  - intros H. unfold setItem. by rewrite H.
  - intros v table Hv Ht.
    assert (setItem key value cb w
            = Some (Return
                (mkWorld
                   (with_mSerializeQueue
                      (mSerializeQueue (self w)
                       ++ (if mLoaded (self w) then [DoSerialize] else [])
                       ++ match cb with Some f => [Notify f] | None => [] end)
                      (with_mPlugins table (self w)))
                   (requests w) (trace w)))) as Hset.
    { unfold setItem. rewrite Hv, Ht. do 2 f_equal.
      destruct w as [[p f n rc wa ti sz q pl c ld fl oe] rq tr].
      unfold thenNotify, serialize, update.
      destruct ld, cb; cbn; rewrite ?app_nil_r, <- ?app_assoc; reflexivity. }
    split; [exact Hset|].
    intros Hl Hq env w' Hw'. rewrite Hset in Hw'. injection Hw' as <-.
    rewrite Hl, Hq. reflexivity.
Qed.

Lemma setItem_parse_witness :
  setItem "loadOrder" (JSON.stringify twoPlugins) (Some 1%nat) (world original [] None [])
  = Some (Return
      (mkWorld
         (with_mSerializeQueue [DoSerialize; Notify 1%nat]
            (with_mPlugins twoPlugins (self (world original [] None []))))
         0 [])).
Proof.
  destruct (setItem_parse "loadOrder" (JSON.stringify twoPlugins) (Some 1%nat)
              (world original [] None [])) as [_ H].
  refine (proj1 (H (JSON.Object
              [(map JS.code (list_ascii_of_string "a.esp"),
                JSON.Object [(map JS.code (list_ascii_of_string "enabled"), JSON.Bool true);
                             (map JS.code (list_ascii_of_string "loadOrder"), JSON.Number 0 0)]);
               (map JS.code (list_ascii_of_string "b.esp"),
                JSON.Object [(map JS.code (list_ascii_of_string "enabled"), JSON.Bool false);
                             (map JS.code (list_ascii_of_string "loadOrder"), JSON.Number 1 0)])])
           twoPlugins eq_refl eq_refl)).
Defined.

(** C2 as the specification words it fails on the text [{]: it is no
    JSON, and [setItem] throws to its caller instead of returning. *)
Lemma setItem_counterexample :
  setItem "loadOrder" "{" None (world original [] None twoPlugins)
  = Some (Throw "SyntaxError")
  ∧ ¬ returns (setItem "loadOrder" "{" None (world original [] None twoPlugins)).
Proof.
  split; [reflexivity|]. intros [w' H]. vm_compute in H. discriminate H.
Qed.

(** C10. [getItem] gives the JSON text of the whole table, whatever the
    key; it calls the callback, when there is one, once, with [null] and
    that text; and it leaves the object as it was, every field of it,
    and makes no request of the file system. *)
Theorem getItem_reads_only (key : string) (cb : option Callback) (w : World) :
  getItem key cb w
  = (JSON.stringify (mPlugins (self w)),
     mkWorld (self w) (requests w)
       (trace w ++ match cb with
                   | Some f => [Call f [VNull; VString (JSON.stringify (mPlugins (self w)))]]
                   | None => []
                   end)).
Proof.
  unfold getItem, callIfSet, emit. destruct cb; [reflexivity|].
  rewrite app_nil_r. by destruct w.
Qed.

(** ** What always holds *)

Lemma set_NoDup (o : IPluginMap) k v : NoDup (map fst o) → NoDup (map fst (Obj.set o k v)).
Proof.
  intros H. destruct (Obj.get o k) eqn:E.
  - assert (map fst (Obj.set o k v) = map fst o) as ->; [|done].
    clear H. induction o as [|[k' v'] r IH]; simpl in *; [done|].
    destruct (String.eqb_spec k' k) as [->|Hne]; simpl; [done|]. by rewrite IH.
  - rewrite set_fresh by done. rewrite map_app. simpl.
    apply NoDup_app. split; [done|]. split; [|apply NoDup_singleton].
    intros x Hx ->%list_elem_of_singleton. by apply get_None in E.
Qed.

Lemma delete_NoDup (o : IPluginMap) k : NoDup (map fst o) → NoDup (map fst (Obj.delete o k)).
Proof.
  unfold Obj.delete. induction o as [|[k' v'] r IH]; simpl; [done|].
  intros [Hk Hr]%NoDup_cons. destruct (negb _); simpl; [|by apply IH].
  apply NoDup_cons. split; [|by apply IH].
  intros ([k2 v2] & Heq & Hin)%list_elem_of_fmap. simpl in Heq. subst k2.
  apply elem_of_filter_bool in Hin as [Hin _]. apply Hk.
  apply list_elem_of_fmap. by exists (k', v2).
Qed.

Lemma initKeys_NoDup t en keys acc :
  NoDup (map fst (fst acc)) → NoDup (map fst (fst (fold_left (initKey t en) keys acc))).
Proof.
  revert acc. induction keys as [|key r IH]; intros [P pos] H; [exact H|].
  cbn [fold_left]. apply IH. unfold initKey. cbn [fst] in *.
  cases; cbn [fst]; try exact H; by apply set_NoDup.
Qed.

Lemma initFromKeyList_NoDup t o keys en :
  NoDup (map fst o) → NoDup (map fst (initFromKeyList t o keys en)).
Proof. intros H. unfold initFromKeyList. by apply initKeys_NoDup. Qed.

Lemma asMembers_NoDup members o table :
  NoDup (map fst o) → JSON.asMembers members o = Some table → NoDup (map fst table).
Proof.
  revert o. induction members as [|[k v] r IH]; intros o H; simpl.
  - by intros [= <-].
  - destruct (JSON.asString k); [|done]. destruct (JSON.asLoadOrder v); [|done].
    apply IH. by apply set_NoDup.
Qed.

Lemma asPluginMap_NoDup v table : JSON.asPluginMap v = Some table → NoDup (map fst table).
Proof.
  destruct v; try done. simpl. apply asMembers_NoDup. constructor.
Qed.

Lemma keeps_refl t : keeps t t.
Proof. unfold keeps. tauto. Qed.

Lemma readFailed_keeps err w : keeps (self w) (self (readFailed err w)).
Proof.
  unfold readFailed, scheduleRefresh, reportError, update, emit, keeps.
  destruct (isENOENT err); cbn [self requests trace]; [cbn; tauto|].
  destruct (Z.ltb_spec 0 (mRetryCounter (self w))) as [Hc|Hc]; cbn [self requests trace].
  - destruct (mRefreshTimer _); cbn; repeat split; auto; intros; lia.
  - destruct (negb _); cbn; repeat split; auto; tauto.
Qed.

Lemma loaded_keeps P w : keeps (self w) (self (loaded P w)).
Proof.
  unfold loaded, update, emit, keeps.
  cbn [self requests trace mResetCallback with_mLoaded with_mPlugins].
  destruct (mResetCallback (self w)); cbn; repeat split; auto; unfold retryCount in *;
    intros; lia.
Qed.

Lemma deserialize_keeps env retry w : keeps (self w) (self (deserialize env retry w)).
Proof.
  assert (∀ w, keeps (self w) (self (deserialize env true w))) as Htrue.
  { clear w. intros w. destruct (mPluginPath (self w)) as [dir|] eqn:Hdir;
      [|rewrite deserialize_nopath by done; apply keeps_refl].
    destruct (phaseOne env dir [] w) as [[[data|err] P] w1] eqn:Hphase.
    - rewrite (deserialize_loaded env true w dir data P w1 Hdir Hphase) by apply andb_false_r.
      rewrite <- (phaseOne_self env dir [] w _ _ _ Hphase). apply loaded_keeps.
    - rewrite (deserialize_failed env true w dir err P w1 Hdir Hphase).
      rewrite <- (phaseOne_self env dir [] w _ _ _ Hphase). apply readFailed_keeps. }
  destruct retry; [apply Htrue|].
  destruct (mPluginPath (self w)) as [dir|] eqn:Hdir;
    [|rewrite deserialize_nopath by done; apply keeps_refl].
  destruct (phaseOne env dir [] w) as [[[[|b data]|err] P] w1] eqn:Hphase.
  - rewrite (deserialize_again env w dir P w1 Hdir Hphase).
    rewrite <- (phaseOne_self env dir [] w _ _ _ Hphase). apply Htrue.
  - rewrite (deserialize_loaded env false w dir (b :: data) P w1 Hdir Hphase) by reflexivity.
    rewrite <- (phaseOne_self env dir [] w _ _ _ Hphase). apply loaded_keeps.
  - rewrite (deserialize_failed env false w dir err P w1 Hdir Hphase).
    rewrite <- (phaseOne_self env dir [] w _ _ _ Hphase). apply readFailed_keeps.
Qed.

Lemma deserialize_invariant env retry w :
  invariant (self w) → invariant (self (deserialize env retry w)).
Proof.
  intros (Hnd & Hs & Hc & Hn & Hf & Hq).
  destruct (deserialize_keeps env retry w) as (Kp & Kf & Kn & Ks & Kq & Kl & Kc).
  unfold invariant. rewrite Kp, Kf, Kn, Ks, Kq.
  split; [|split; [done|split; [by apply Kc|split; [done|split; [done|]]]]].
  - destruct (deserialize_installs env retry w) as [->|(keys0 & keys & ->)]; [done|].
    apply initFromKeyList_NoDup, initFromKeyList_NoDup. constructor.
  - intros Hin. by apply Kl, Hq.
Qed.

Lemma doSerialize_invariant env w : invariant (self w) → invariant (self (doSerialize env w)).
Proof.
  intros IH. unfold doSerialize.
  destruct (mPluginPath (self w)) eqn:E; [|exact IH].
  unfold writeFileAsync, reportError, update, emit. cbn [self requests trace].
  branches; unfold invariant in IH |- *; cbn in IH |- *; tauto.
Qed.

Lemma enqueue_invariant cb w :
  invariant (self w) → invariant (self (thenNotify cb (serialize w))).
Proof.
  intros (Hnd & Hs & Hc & Hn & Hf & Hq). unfold thenNotify, serialize, update.
  destruct (mLoaded (self w)) eqn:El, cb; cbn [negb self]; unfold invariant;
    cbn [mPlugins mSerializing mRetryCounter mPluginPath mNativePlugins mPluginFormat
         mSerializeQueue mLoaded with_mSerializeQueue];
    (split; [done|]); (split; [done|]); (split; [done|]); (split; [done|]); (split; [done|]);
    try done; rewrite ?elem_of_app, ?list_elem_of_singleton; intros H';
    repeat match type of H' with _ ∨ _ => destruct H' as [H'|H'] end; try done;
    apply Hq in H'; congruence.
Qed.

Lemma with_mPlugins_invariant table t :
  NoDup (map fst table) → invariant t → invariant (with_mPlugins table t).
Proof.
  intros Ht (Hnd & Hs & Hc & Hn & Hf & Hq). unfold invariant. cbn.
  repeat split; try done; tauto.
Qed.

(** X1. Whatever the host calls and whatever the event loop brings,
    the object is left with each name once in its table, with no pass
    under way, with between none and [retryCount] tries left, with the
    path, the format and the native set there together or not at all,
    and with a pass in the queue only once the first load is over. *)
Lemma reachable_invariant w : reachable w → invariant (self w).
Proof.
  induction 1 as [onError|w dir fmt natives _ IH|w env _ IH|w env _ IH|w _ IH|w _ IH
                 |w cb _ IH|w key cb _ IH|w key value cb w' _ IH Hset|w key cb _ IH
                 |w cb _ IH|w env _ IH|w fileName _ IH|w env _ IH];
    try pose proof IH as (Hnd & Hs & Hc & Hn & Hf & Hq).
  - unfold invariant. cbn. repeat split; try done; try (by intros [? ?]).
    + constructor.
    + by intros ?%elem_of_nil.
  - unfold invariant, update, emit, with_context.
    cbn [self mPlugins mSerializing mRetryCounter mPluginPath mNativePlugins mPluginFormat
         mSerializeQueue mLoaded].
    split; [done|]. split; [done|]. split; [done|].
    split; [split; intros _; by eexists|]. split; [split; intros _; by eexists|done].
  - by apply deserialize_invariant.
  - unfold startWatch, update, emit.
    branches; unfold invariant in IH |- *; cbn in IH |- *; tauto.
  - unfold stopSync, update, emit. cbn [self requests trace mWatch with_context].
    destruct (mWatch (self w)); unfold invariant; cbn;
      repeat split; try done; try (by intros [? ?]); tauto.
  - unfold disable, update, emit.
    cbn [self requests trace mResetCallback with_mLoaded with_mPlugins].
    destruct (mResetCallback (self w)); unfold invariant; cbn;
      repeat split; try done; try tauto; try constructor; unfold retryCount; lia.
  - exact IH.
  - unfold getItem, callIfSet. by destruct cb.
  - unfold setItem in Hset. destruct (JSON.parse value) as [v|]; [|done].
    destruct (JSON.asPluginMap v) as [table|] eqn:Ht; [|done].
    injection Hset as <-. apply asPluginMap_NoDup in Ht.
    apply enqueue_invariant. by apply with_mPlugins_invariant.
  - apply enqueue_invariant. apply with_mPlugins_invariant; [|done]. by apply delete_NoDup.
  - unfold getAllKeys, callIfSet. by destruct cb.
  - unfold timerFires. destruct (mRefreshTimer (self w)); try done.
    apply deserialize_invariant. exact IH.
  - unfold watchEvent, scheduleRefresh, update, emit.
    branches; unfold invariant in IH |- *; cbn in IH |- *; tauto.
  - unfold runTask.
    destruct (mSerializeQueue (self w)) as [|[|cb] rest] eqn:Eq; [done| |].
    + apply doSerialize_invariant. unfold invariant. cbn. repeat split; try done; try tauto.
      intros Hin. apply Hq. by right.
    + unfold invariant. cbn. repeat split; try done; try tauto.
      intros Hin. apply Hq. by right.
Qed.

(** * More of the code *)

(** ** The lines of a file *)

Lemma splitLines_noLF_all s : Forall (fun l => noLF l = true) (JS.splitLines s).
Proof.
  induction s as [|c r IH]; [by repeat constructor|].
  assert (Ascii.eqb c JS.LF = false →
          Forall (fun l => noLF l = true)
            match JS.splitLines r with
            | l :: ls => String c l :: ls
            | [] => [String c ""]
            end) as Hkeep.
  { intros Hc. destruct (JS.splitLines r) as [|l ls].
    - repeat constructor. cbn [noLF]. by rewrite Hc.
    - inversion IH; subst. constructor; [|done]. cbn [noLF]. rewrite Hc. done. }
  cbn [JS.splitLines].
  destruct (Ascii.eqb c JS.LF) eqn:Hlf; [by constructor|].
  destruct (Ascii.eqb c JS.CR) eqn:Hcr; [|by apply Hkeep].
  destruct r as [|d r']; [by apply Hkeep|].
  destruct (Ascii.eqb d JS.LF) eqn:Hd; [|by apply Hkeep].
  constructor; [done|].
  cbn [JS.splitLines] in IH. rewrite Hd in IH. by inversion IH.
Qed.

Lemma filterFileData_lineOk input plugins line :
  line ∈ filterFileData input plugins → lineOk line = true.
Proof.
  unfold filterFileData. intros [Hin Hk]%elem_of_filter_bool.
  pose proof (splitLines_noLF_all input) as H. rewrite Forall_forall in H.
  unfold lineOk. rewrite (H line Hin). exact Hk.
Qed.

(** X2. Every line [filterFileData] gives is a name to go by: not empty,
    no comment, and with no line feed in it. *)
Theorem filterFileData_lines (input : string) (plugins : bool) :
  Forall (fun line => lineOk line = true) (filterFileData input plugins).
Proof. apply Forall_forall. intros line. apply filterFileData_lineOk. Qed.

Lemma plain_noLF s : plain s = true → noLF s = true.
Proof.
  induction s as [|c r IH]; [done|]. cbn [plain noLF].
  intros [[H1 H2]%andb_true_iff H3]%andb_true_iff. by rewrite H1, IH.
Qed.

Lemma splitLines_app_LF a b :
  plain a = true → JS.splitLines (a +:+ String JS.LF b) = a :: JS.splitLines b.
Proof.
  induction a as [|c a IH]; intros Ha.
  - rewrite append_nil. reflexivity.
  - cbn [plain] in Ha. apply andb_true_iff in Ha as [[Hlf Hcr]%andb_true_iff Ha].
    apply negb_true_iff in Hlf, Hcr.
    rewrite append_cons, splitLines_cons_keep, (IH Ha); [done|exact Hlf|].
    intros Hc. congruence.
Qed.

Lemma splitLines_join_sep sep (ls : list string) :
  lineEnd sep → Forall (fun s => plain s = true) ls → ls ≠ [] →
  JS.splitLines (JS.join sep ls) = ls.
Proof.
  intros Hsep H Hne. induction H as [|l ls Hl Hls IH]; [done|].
  destruct ls as [|l' ls'].
  - simpl. by apply splitLines_noLF, plain_noLF.
  - change (JS.join sep (l :: l' :: ls')) with (l +:+ sep +:+ JS.join sep (l' :: ls')).
    destruct Hsep as [->| ->].
    + rewrite splitLines_app_CRLF by (by apply plain_noLF). by rewrite IH.
    + rewrite append_cons, append_nil, splitLines_app_LF by done. by rewrite IH.
Qed.

(** X3. A text whose lines end in CR LF, or in LF alone, is read as its
    lines less the empty ones and the comments, in their order. *)
Theorem filterFileData_text (sep : string) (ls : list string) (plugins : bool) :
  lineEnd sep →
  Forall (fun s => plain s = true) ls →
  filterFileData (JS.join sep ls) plugins = List.filter kept ls.
Proof.
  intros Hsep H. destruct ls as [|l ls]; [reflexivity|].
  unfold filterFileData. by rewrite splitLines_join_sep.
Qed.

Lemma filterFileData_text_witness :
  filterFileData (JS.join (String JS.LF "") ["# comment"; "a.esp"; ""; "*b.esp"; ""]) true
  = ["a.esp"; "*b.esp"].
Proof.
  rewrite (filterFileData_text (String JS.LF "") ["# comment"; "a.esp"; ""; "*b.esp"; ""] true).
  - reflexivity.
  - by right.
  - repeat constructor.
Defined.

(** ** What [initFromKeyList] makes of the lines *)

Lemma initKey_step t en P pos line :
  initKey t en (P, pos) line
  = if has (mNativePlugins t) (JS.toLowerCase (keyOf t line)) then (P, pos)
    else match Obj.get P (keyOf t line) with
         | Some v => (Obj.set P (keyOf t line) (mkLoadOrder (flagOf t en line) (loadOrder v)), pos)
         | None =>
             if JS.isInherited (keyOf t line) then (P, pos)
             else (P ++ [(keyOf t line, mkLoadOrder (flagOf t en line) pos)], pos + 1)
         end.
Proof.
  unfold initKey, keyOf, flagOf.
  destruct (has _ _); [done|].
  destruct (Obj.get P _) eqn:E; [done|].
  destruct (JS.isInherited _); [done|]. by rewrite set_fresh.
Qed.

Lemma get_set_eq (o : IPluginMap) k v : Obj.get (Obj.set o k v) k = Some v.
Proof.
  induction o as [|[k' v'] r IH]; simpl.
  - by rewrite String.eqb_refl.
  - destruct (String.eqb_spec k' k) as [->|Hne]; simpl.
    + by rewrite String.eqb_refl.
    + by destruct (String.eqb_spec k' k).
Qed.

Lemma get_set_ne (o : IPluginMap) k v k' : k ≠ k' → Obj.get (Obj.set o k v) k' = Obj.get o k'.
Proof.
  intros Hne. induction o as [|[k2 v2] r IH]; simpl.
  - by destruct (String.eqb_spec k k').
  - destruct (String.eqb_spec k2 k) as [->|Hne2]; simpl.
    + destruct (String.eqb_spec k k'); [done|reflexivity].
    + by rewrite IH.
Qed.

Lemma get_app (o o' : IPluginMap) k :
  Obj.get (o ++ o') k = match Obj.get o k with Some v => Some v | None => Obj.get o' k end.
Proof.
  induction o as [|[k' v'] r IH]; simpl; [done|]. by destruct (String.eqb k' k).
Qed.

(** A line leaves alone every name but its own. *)
Lemma initKey_other t en acc line k :
  keyOf t line ≠ k → Obj.get (fst (initKey t en acc line)) k = Obj.get (fst acc) k.
Proof.
  destruct acc as [P pos]. intros Hne. rewrite initKey_step. cbn [fst].
  destruct (has _ _); [done|].
  destruct (Obj.get P (keyOf t line)) eqn:E; cbn [fst].
  - by rewrite get_set_ne.
  - destruct (JS.isInherited _); [done|]. cbn [fst]. rewrite get_app. simpl.
    destruct (String.eqb_spec (keyOf t line) k); [done|]. by destruct (Obj.get P k).
Qed.

Lemma initKeys_other t en keys acc k :
  (∀ line, line ∈ keys → keyOf t line ≠ k) →
  Obj.get (fst (fold_left (initKey t en) keys acc)) k = Obj.get (fst acc) k.
Proof.
  revert acc. induction keys as [|line r IH]; intros acc H; [done|].
  cbn [fold_left]. rewrite IH by (intros l Hl; apply H; by right).
  apply initKey_other, H. by left.
Qed.

(** A line sets the flag of its name, when the name is in the table or
    is one to enter. *)
Lemma initKey_own t en acc line :
  nonNative t (keyOf t line) →
  is_Some (Obj.get (fst acc) (keyOf t line)) ∨ JS.isInherited (keyOf t line) = false →
  ∃ n, Obj.get (fst (initKey t en acc line)) (keyOf t line)
       = Some (mkLoadOrder (flagOf t en line) n).
Proof.
  destruct acc as [P pos]. intros Hn Hin. rewrite initKey_step. cbn [fst] in *.
  unfold nonNative in Hn. rewrite Hn.
  destruct (Obj.get P (keyOf t line)) as [v|] eqn:E; cbn [fst].
  - exists (loadOrder v). apply get_set_eq.
  - destruct Hin as [[v Hv]|Hi]; [done|]. rewrite Hi. cbn [fst]. exists pos.
    rewrite get_app, E. simpl. by rewrite String.eqb_refl.
Qed.

Lemma initKeys_last t acc before after line en :
  nonNative t (keyOf t line) →
  JS.isInherited (keyOf t line) = false →
  (∀ l, l ∈ after → keyOf t l ≠ keyOf t line) →
  ∃ n, Obj.get (fst (fold_left (initKey t en) (before ++ line :: after) acc)) (keyOf t line)
       = Some (mkLoadOrder (flagOf t en line) n).
Proof.
  intros Hn Hi Hafter. rewrite fold_left_app. cbn [fold_left].
  rewrite initKeys_other by exact Hafter.
  apply initKey_own; [exact Hn|by right].
Qed.

Lemma initFromKeyList_last t P before after line en :
  nonNative t (keyOf t line) →
  JS.isInherited (keyOf t line) = false →
  (∀ l, l ∈ after → keyOf t l ≠ keyOf t line) →
  ∃ n, Obj.get (initFromKeyList t P (before ++ line :: after) en) (keyOf t line)
       = Some (mkLoadOrder (flagOf t en line) n).
Proof. unfold initFromKeyList. apply initKeys_last. Qed.

Example initFromKeyList_throws :
  initFromKeyListStrict (self (world original [] None [])) []
    ["__proto__"; "enabled"; "a.esp"] true false = None
  ∧ initFromKeyListStrict (self (world original [] None [])) []
      ["enabled"; "__proto__"; "a.esp"] true false
    = Some ([("enabled", mkLoadOrder true 0); ("a.esp", mkLoadOrder true 1)], true).
Proof. split; reflexivity. Qed.

(** On a line that does not stand for [enabled], the turn with the
    prototype followed is the turn of [initKey]. *)
Lemma initKeyStrict_agree t en P pos p line :
  String.eqb (keyOf t line) "enabled" = false →
  ∃ p', initKeyStrict t en (P, pos, p) line = Some (initKey t en (P, pos) line, p').
Proof.
  unfold initKeyStrict, initKey, keyOf. intros H.
  destruct (has _ _); [by eexists|].
  destruct (Obj.get P _); [by eexists|].
  destruct (String.eqb _ "__proto__") eqn:E.
  - apply String.eqb_eq in E. rewrite E. by eexists.
  - destruct (JS.isInherited _); [by eexists|].
    rewrite H, andb_false_r. by eexists.
Qed.

Lemma initKeysStrict_agree t en keys acc p :
  noEnabledLine (mPluginFormat t) keys = true →
  ∃ p', initKeysStrict t en keys (acc, p) = Some (fold_left (initKey t en) keys acc, p').
Proof.
  revert acc p. induction keys as [|line r IH]; intros [P pos] p H; [by eexists|].
  cbn [noEnabledLine forallb] in H. apply andb_true_iff in H as [H1 H2].
  apply negb_true_iff in H1.
  destruct (initKeyStrict_agree t en P pos p line H1) as [p1 Hp1].
  cbn [initKeysStrict fold_left]. rewrite Hp1. apply IH, H2.
Qed.

Lemma initFromKeyListStrict_agree t P keys en p :
  noEnabledLine (mPluginFormat t) keys = true →
  ∃ p', initFromKeyListStrict t P keys en p = Some (initFromKeyList t P keys en, p').
Proof.
  intros H. unfold initFromKeyListStrict, initFromKeyList.
  destruct (initKeysStrict_agree t en keys (P, Z.of_nat (length (Obj.keys P))) p H) as [p' ->].
  destruct (fold_left _ _ _). by eexists.
Qed.

(** X4. When no line stands for the name [enabled], [initFromKeyList]
    does not throw, whatever the prototype has been given, and of the
    lines that stand for one name, not native and not inherited, the
    last decides its flag. *)
Theorem last_line_decides (t : PluginPersistor) (plugins : IPluginMap)
    (before after : list string) (line : string) (enabled polluted : bool) :
  noEnabledLine (mPluginFormat t) (before ++ line :: after) = true →
  nonNative t (keyOf t line) →
  JS.isInherited (keyOf t line) = false →
  (∀ l, l ∈ after → keyOf t l ≠ keyOf t line) →
  ∃ table polluted',
    initFromKeyListStrict t plugins (before ++ line :: after) enabled polluted
    = Some (table, polluted')
    ∧ enabledOf table (keyOf t line) = flagOf t enabled line.
Proof.
  intros Hq Hn Hi Hafter.
  destruct (initFromKeyListStrict_agree t plugins _ enabled polluted Hq) as [p' Hs].
  exists (initFromKeyList t plugins (before ++ line :: after) enabled), p'.
  split; [exact Hs|]. unfold enabledOf.
  destruct (initFromKeyList_last t plugins before after line enabled Hn Hi Hafter) as [n ->].
  reflexivity.
Qed.

Lemma last_line_decides_witness :
  ∃ table polluted',
    initFromKeyListStrict (self (world fallout4 [] None [])) []
      (["*a.esp"; "__proto__"] ++ "a.esp" :: ["*c.esp"]) true true
    = Some (table, polluted')
    ∧ enabledOf table "a.esp" = false.
Proof.
  apply (last_line_decides (self (world fallout4 [] None [])) [] ["*a.esp"; "__proto__"]
           ["*c.esp"] "a.esp" true true).
  - reflexivity.
  - reflexivity.
  - reflexivity.
  - intros l Hl. apply list_elem_of_singleton in Hl as ->. discriminate.
Defined.

(** The names of the table after a line. *)
Lemma initKey_names t en acc line k :
  k ∈ map fst (fst (initKey t en acc line))
  ↔ k ∈ map fst (fst acc) ∨ (k = keyOf t line ∧ entered t k).
Proof.
  rewrite <- !get_is_Some. destruct acc as [P pos]. cbn [fst].
  destruct (decide (keyOf t line = k)) as [<-|Hne].
  - rewrite initKey_step. unfold entered, nonNative.
    destruct (has _ _) eqn:Hh; cbn [fst].
    { split; [by left|]. intros [H|[_ [H _]]]; [done|discriminate]. }
    destruct (Obj.get P (keyOf t line)) as [v|] eqn:E; cbn [fst].
    { rewrite get_set_eq. split; [intros _; left; by eexists|by eexists]. }
    destruct (JS.isInherited _) eqn:Hi; cbn [fst].
    { rewrite E. split; [by left|]. intros [H|[_ [_ H]]]; [done|discriminate]. }
    rewrite get_app, E. simpl. rewrite String.eqb_refl.
    split; [intros _; by right|by eexists].
  - rewrite (initKey_other t en (P, pos) line k Hne). cbn [fst].
    split; [by left|]. intros [H|[H _]]; [done|congruence].
Qed.

Lemma initKeys_names t enabled keys acc k :
  k ∈ map fst (fst (fold_left (initKey t enabled) keys acc))
  ↔ k ∈ map fst (fst acc) ∨ (∃ line, line ∈ keys ∧ keyOf t line = k) ∧ entered t k.
Proof.
  revert acc. induction keys as [|line r IH]; intros acc.
  - cbn [fold_left]. split; [by left|]. intros [H|[(l & Hl & _) _]]; [done|].
    by apply elem_of_nil in Hl.
  - cbn [fold_left]. rewrite IH, initKey_names. split.
    + intros [[H|[-> He]]|[(l & Hl & Hk) He]]; [by left| |].
      * right. split; [|done]. exists line. split; [by left|done].
      * right. split; [|done]. exists l. split; [by right|done].
    + intros [H|[(l & [->|Hl]%elem_of_cons & Hk) He]]; [by left; left| |].
      * left. right. by split.
      * right. split; [|done]. by exists l.
Qed.

(** X5. When no line stands for the name [enabled], [initFromKeyList]
    does not throw, whatever the prototype has been given, and the
    table it leaves holds the names it held before and the names the
    lines stand for, less the native ones and those of [JS.inherited],
    and no other name. *)
Theorem initFromKeyList_names (t : PluginPersistor) (plugins : IPluginMap)
    (keys : list string) (enabled polluted : bool) :
  noEnabledLine (mPluginFormat t) keys = true →
  ∃ table polluted',
    initFromKeyListStrict t plugins keys enabled polluted = Some (table, polluted')
    ∧ ∀ k, k ∈ map fst table
           ↔ k ∈ map fst plugins ∨ (∃ line, line ∈ keys ∧ keyOf t line = k) ∧ entered t k.
Proof.
  intros Hq.
  destruct (initFromKeyListStrict_agree t plugins keys enabled polluted Hq) as [p' Hs].
  exists (initFromKeyList t plugins keys enabled), p'. split; [exact Hs|].
  intros k. unfold initFromKeyList. by rewrite initKeys_names.
Qed.

Lemma initFromKeyList_names_witness :
  ∃ table polluted',
    initFromKeyListStrict (self (world fallout4 ["fallout4.esm"] None [])) twoPlugins
      ["*c.esp"; "__proto__"; "Fallout4.esm"; "toString"; "a.esp"] true false
    = Some (table, polluted')
    ∧ ∀ k, k ∈ map fst table
           ↔ k ∈ map fst twoPlugins
             ∨ (∃ line, line ∈ ["*c.esp"; "__proto__"; "Fallout4.esm"; "toString"; "a.esp"]
                        ∧ keyOf (self (world fallout4 ["fallout4.esm"] None [])) line = k)
               ∧ entered (self (world fallout4 ["fallout4.esm"] None [])) k.
Proof.
  apply (initFromKeyList_names (self (world fallout4 ["fallout4.esm"] None [])) twoPlugins
           ["*c.esp"; "__proto__"; "Fallout4.esm"; "toString"; "a.esp"] true false).
  reflexivity.
Defined.

Lemma sameButFlag_refl (P : IPluginMap) : Forall2 sameButFlag P P.
Proof. induction P; by constructor. Qed.

Lemma set_sameButFlag (P : IPluginMap) k v b :
  Obj.get P k = Some v → Forall2 sameButFlag P (Obj.set P k (mkLoadOrder b (loadOrder v))).
Proof.
  induction P as [|[k' v'] r IH]; simpl; [done|].
  destruct (String.eqb_spec k' k) as [->|Hne].
  - intros [= ->]. constructor; [done|apply sameButFlag_refl].
  - intros H. constructor; [done|by apply IH].
Qed.

Lemma Forall2_sameButFlag_trans (P Q R : IPluginMap) :
  Forall2 sameButFlag P Q → Forall2 sameButFlag Q R → Forall2 sameButFlag P R.
Proof.
  intros H. revert R. induction H as [|a b P Q [H1 H2] _ IH]; intros R HR.
  - by inversion HR.
  - inversion HR as [|? c ? R' [H3 H4] HR']; subst. constructor; [|by apply IH].
    split; congruence.
Qed.

Lemma initKey_extends t en acc line :
  ∃ Q R, fst (initKey t en acc line) = Q ++ R ∧ Forall2 sameButFlag (fst acc) Q.
Proof.
  destruct acc as [P pos]. rewrite initKey_step. cbn [fst].
  destruct (has _ _); cbn [fst];
    [exists P, []; rewrite app_nil_r; split; [done|apply sameButFlag_refl]|].
  destruct (Obj.get P (keyOf t line)) as [v|] eqn:E; cbn [fst].
  - eexists _, []. rewrite app_nil_r. split; [done|]. by apply set_sameButFlag.
  - destruct (JS.isInherited _); cbn [fst].
    + exists P, []. rewrite app_nil_r. split; [done|apply sameButFlag_refl].
    + eexists P, _. split; [done|apply sameButFlag_refl].
Qed.

Lemma initKeys_extends t enabled keys acc :
  ∃ old new,
    fst (fold_left (initKey t enabled) keys acc) = old ++ new
    ∧ Forall2 sameButFlag (fst acc) old.
Proof.
  revert acc. induction keys as [|line r IH]; intros acc.
  - exists (fst acc), []. rewrite app_nil_r. split; [done|apply sameButFlag_refl].
  - cbn [fold_left]. destruct (IH (initKey t enabled acc line)) as (Q & R & -> & HQ).
    destruct (initKey_extends t enabled acc line) as (Q1 & R1 & HE & HQ1).
    rewrite HE in HQ. apply Forall2_app_inv_l in HQ as (Qa & Qb & HQa & HQb & ->).
    exists Qa, (Qb ++ R). rewrite app_assoc. split; [done|].
    by eapply Forall2_sameButFlag_trans.
Qed.

(** X6. [initFromKeyList] takes no entry out of the table and moves
    none: the entries it was given stay where they are, each with its
    load order, and the new ones come after them. *)
Theorem initFromKeyList_extends (t : PluginPersistor) (plugins : IPluginMap)
    (keys : list string) (enabled : bool) :
  ∃ old new,
    initFromKeyList t plugins keys enabled = old ++ new
    ∧ Forall2 sameButFlag plugins old.
Proof.
  unfold initFromKeyList.
  apply (initKeys_extends t enabled keys (plugins, Z.of_nat (length (Obj.keys plugins)))).
Qed.

(** ** The table a load puts in *)

Lemma sameButFlag_orders (P Q : IPluginMap) :
  Forall2 sameButFlag P Q →
  map (fun kv => loadOrder (snd kv)) Q = map (fun kv => loadOrder (snd kv)) P
  ∧ length Q = length P.
Proof.
  induction 1 as [|a b P Q [_ H] _ [IH1 IH2]]; [done|]. simpl. by rewrite IH1, IH2, H.
Qed.

Lemma initKey_dense t en acc line :
  dense (fst acc) ∧ snd acc = Z.of_nat (length (fst acc)) →
  dense (fst (initKey t en acc line))
  ∧ snd (initKey t en acc line) = Z.of_nat (length (fst (initKey t en acc line))).
Proof.
  destruct acc as [P pos]. cbn [fst snd]. intros [Hd ->]. rewrite initKey_step.
  destruct (has _ _); [done|].
  destruct (Obj.get P (keyOf t line)) as [v|] eqn:E; cbn [fst snd].
  - destruct (sameButFlag_orders _ _ (set_sameButFlag P _ v (flagOf t en line) E)) as [H1 H2].
    unfold dense. by rewrite H1, H2.
  - destruct (JS.isInherited _); [done|]. cbn [fst snd]. unfold dense in *.
    rewrite map_app, length_app, Hd. cbn [map length snd loadOrder].
    rewrite Nat2Z.inj_add. rewrite seqZ_app by lia. split; [|lia].
    f_equal.
Qed.

Lemma initFromKeyList_dense t P keys en : dense P → dense (initFromKeyList t P keys en).
Proof.
  intros Hd. unfold initFromKeyList.
  assert (dense (fst (P, Z.of_nat (length (Obj.keys P))))
          ∧ snd (P, Z.of_nat (length (Obj.keys P)))
            = Z.of_nat (length (fst (P, Z.of_nat (length (Obj.keys P)))))) as H.
  { cbn [fst snd]. split; [done|]. by rewrite (Permutation_length (keys_Permutation P)), length_map. }
  revert H. generalize (P, Z.of_nat (length (Obj.keys P))). clear.
  induction keys as [|line r IH]; intros acc H; [apply H|].
  cbn [fold_left]. by apply IH, initKey_dense.
Qed.

(** What a load comes to when its reads are granted. *)
Lemma deserialize_gives env retry w dir lo pl :
  mPluginPath (self w) = Some dir →
  attemptGives env (mPluginFormat (self w)) dir (requests w) lo pl →
  taken pl retry →
  ∃ w1,
    deserialize env retry w
    = loaded (initFromKeyList (self w) (initFromKeyList (self w) [] (loadorderLines lo) false)
                (pluginsLines pl) true) w1
    ∧ self w1 = self w
    ∧ trace w1 = trace w ++ map ReadFile (attemptReads (mPluginFormat (self w)) dir).
Proof.
  intros Hdir Hgives Htaken.
  assert ((Z.of_nat (length pl) =? 0) && negb retry = false) as Hcond.
  { destruct Htaken as [H| ->]; [|apply andb_false_r]. by destruct pl. }
  unfold attemptGives in Hgives.
  destruct (mPluginFormat (self w)) as [[]|] eqn:Hf.
  - destruct Hgives as [Hlo Hpl].
    pose proof (phaseOne_original_ok env dir [] w lo Hf Hlo) as Hphase. rewrite Hpl in Hphase.
    eexists. rewrite (deserialize_loaded env retry w dir pl _ _ Hdir Hphase Hcond).
    cbn [self trace]. done.
  - destruct Hgives as [-> Hpl].
    pose proof (phaseOne_direct env dir [] w) as Hphase. rewrite Hpl in Hphase.
    eexists. rewrite (deserialize_loaded env retry w dir pl _ _ Hdir (Hphase ltac:(by rewrite Hf)) Hcond).
    cbn [self trace]. done.
  - destruct Hgives as [-> Hpl].
    pose proof (phaseOne_direct env dir [] w) as Hphase. rewrite Hpl in Hphase.
    eexists. rewrite (deserialize_loaded env retry w dir pl _ _ Hdir (Hphase ltac:(by rewrite Hf)) Hcond).
    cbn [self trace]. done.
Qed.

Lemma dense_nil : dense [].
Proof. reflexivity. Qed.



(** X8. When the reads of a load are granted and no line of the files
    stands for the name [enabled], the table the load puts in holds the
    names the lines of the files stand for, less the native ones and
    those of [JS.inherited], and no other name. *)
Theorem load_names (env : Env) (retry : bool) (w : World) (dir : string)
    (lo pl : list Byte.byte) (k : string) :
  mPluginPath (self w) = Some dir →
  attemptGives env (mPluginFormat (self w)) dir (requests w) lo pl →
  taken pl retry →
  noEnabledLine (mPluginFormat (self w)) (loadorderLines lo ++ pluginsLines pl) = true →
  k ∈ map fst (mPlugins (self (deserialize env retry w)))
  ↔ (∃ line, line ∈ loadorderLines lo ++ pluginsLines pl ∧ keyOf (self w) line = k)
    ∧ entered (self w) k.
Proof.
  intros Hdir Hgives Htaken _.
  destruct (deserialize_gives env retry w dir lo pl Hdir Hgives Htaken) as (w1 & -> & _ & _).
  rewrite loaded_mPlugins. unfold initFromKeyList.
  rewrite initKeys_names. cbn [fst]. rewrite initKeys_names. cbn [fst map]. rewrite elem_of_nil.
  setoid_rewrite elem_of_app. split.
  - intros [[[]|[(l & Hl & Hk) He]]|[(l & Hl & Hk) He]]; (split; [|done]); exists l; auto.
  - intros [(l & [Hl|Hl] & Hk) He]; [left; right|right]; (split; [|done]); by exists l.
Qed.

Lemma load_names_witness :
  "c.esp" ∈ map fst (mPlugins (self (deserialize (diskWith handWritten) false
                                       (world original ["skyrim.esm"; "update.esm"] None
                                          twoPlugins)))).
Proof.
  eapply (load_names (diskWith handWritten) false
            (world original ["skyrim.esm"; "update.esm"] None twoPlugins) "dir").
  - reflexivity.
  - split; reflexivity.
  - left. discriminate.
  - reflexivity.
  - split; [|split; reflexivity]. exists "c.esp". split; [|reflexivity].
    apply (bool_decide_unpack _). vm_compute. reflexivity.
Defined.

(** ** The flags a load gives *)

Lemma last_split {A} (P : A → bool) (l : list A) :
  (∀ x, x ∈ l → P x = false)
  ∨ ∃ l1 x l2, l = l1 ++ x :: l2 ∧ P x = true ∧ ∀ y, y ∈ l2 → P y = false.
Proof.
  induction l as [|a l [IH|(l1 & x & l2 & -> & Hx & Hl2)]].
  - left. by intros x ?%elem_of_nil.
  - destruct (P a) eqn:Ha.
    + right. by exists [], a, l.
    + left. intros x [->|Hx]%elem_of_cons; auto.
  - right. by exists (a :: l1), x, l2.
Qed.

Lemma enabledOf_noneEnabled (o : IPluginMap) k : noneEnabled o → enabledOf o k = false.
Proof.
  intros H. unfold enabledOf. destruct (Obj.get o k) as [v|] eqn:E; [|done].
  eapply H, get_Some_elem_of, E.
Qed.

Lemma initFromKeyList_entered t P keys en :
  (∀ k, k ∈ map fst P → entered t k) →
  ∀ k, k ∈ map fst (initFromKeyList t P keys en) → entered t k.
Proof. unfold initFromKeyList. intros H k [Hk|[_ Hk]]%initKeys_names; auto. Qed.

(** The flag of a name after the lines of [plugins.txt]: set when the
    last line that stands for the name gives it so. *)
Lemma initFromKeyList_flag t P keys k :
  noneEnabled P → (∀ k', k' ∈ map fst P → entered t k') →
  enabledOf (initFromKeyList t P keys true) k = true
  ↔ entered t k
    ∧ ∃ before line after,
        keys = before ++ line :: after ∧ keyOf t line = k ∧ flagOf t true line = true
        ∧ ∀ l, l ∈ after → keyOf t l ≠ k.
Proof.
  intros Hnone Hent. split.
  - intros Hen.
    assert (entered t k) as [Hn Hi].
    { apply (initFromKeyList_entered t P keys true Hent). apply get_is_Some.
      unfold enabledOf in Hen. destruct (Obj.get _ k); [by eexists|done]. }
    split; [done|].
    destruct (last_split (fun l => bool_decide (keyOf t l = k)) keys)
      as [Hno|(before & line & after & -> & Hline & Hafter)].
    + exfalso. unfold initFromKeyList, enabledOf in Hen. rewrite initKeys_other in Hen.
      * cbn [fst] in Hen. fold (enabledOf P k) in Hen.
        by rewrite (enabledOf_noneEnabled P k Hnone) in Hen.
      * intros l Hl. specialize (Hno l Hl). by apply bool_decide_eq_false in Hno.
    + apply bool_decide_eq_true in Hline. subst k.
      assert (∀ l, l ∈ after → keyOf t l ≠ keyOf t line) as Hafter'.
      { intros l Hl. specialize (Hafter l Hl). by apply bool_decide_eq_false in Hafter. }
      exists before, line, after. repeat split; [|done].
      unfold enabledOf in Hen.
      destruct (initFromKeyList_last t P before after line true Hn Hi Hafter') as [n Hg].
      by rewrite Hg in Hen.
  - intros [[Hn Hi] (before & line & after & -> & <- & Hflag & Hafter)].
    unfold enabledOf.
    destruct (initFromKeyList_last t P before after line true Hn Hi Hafter) as [n ->].
    exact Hflag.
Qed.

Lemma noneEnabled_nil : noneEnabled [].
Proof. by intros k v ?%elem_of_nil. Qed.

Lemma entered_nil t : ∀ k, k ∈ map fst (@nil (string * ILoadOrder)) → entered t k.
Proof. by intros k ?%elem_of_nil. Qed.

Lemma load_flag env retry w dir lo pl k :
  mPluginPath (self w) = Some dir →
  attemptGives env (mPluginFormat (self w)) dir (requests w) lo pl →
  taken pl retry →
  enabledOf (mPlugins (self (deserialize env retry w))) k = true
  ↔ entered (self w) k
    ∧ ∃ before line after,
        pluginsLines pl = before ++ line :: after
        ∧ keyOf (self w) line = k ∧ flagOf (self w) true line = true
        ∧ ∀ l, l ∈ after → keyOf (self w) l ≠ k.
Proof.
  intros Hdir Hgives Htaken.
  destruct (deserialize_gives env retry w dir lo pl Hdir Hgives Htaken) as (w1 & -> & _ & _).
  rewrite loaded_mPlugins. apply initFromKeyList_flag.
  - apply initFromKeyList_disabled, noneEnabled_nil.
  - apply initFromKeyList_entered, entered_nil.
Qed.

(** X9. Under [original], a load whose reads are granted, with no line
    of the files at the name [enabled], leaves enabled the names that
    are lines of [plugins.txt], less the native ones and those of
    [JS.inherited], and no other name. *)
Theorem original_enabled_iff_listed (env : Env) (retry : bool) (w : World) (dir : string)
    (lo pl : list Byte.byte) (k : string) :
  mPluginPath (self w) = Some dir →
  mPluginFormat (self w) = Some original →
  attemptGives env (Some original) dir (requests w) lo pl →
  taken pl retry →
  noEnabledLine (Some original) (loadorderLines lo ++ pluginsLines pl) = true →
  enabledOf (mPlugins (self (deserialize env retry w))) k = true
  ↔ k ∈ pluginsLines pl ∧ entered (self w) k.
Proof.
  intros Hdir Hfmt Hgives Htaken _. rewrite <- Hfmt in Hgives.
  rewrite (load_flag env retry w dir lo pl k Hdir Hgives Htaken).
  assert (∀ l, keyOf (self w) l = l) as Hkey by (intros l; unfold keyOf; by rewrite Hfmt).
  split.
  - intros [He (before & line & after & Hl & <- & _)]. rewrite Hkey in *. split; [|done].
    rewrite Hl. apply elem_of_app. right. by left.
  - intros [Hin He]. split; [done|].
    apply list_elem_of_split_r in Hin as (before & after & -> & Hafter).
    exists before, k, after. rewrite Hkey. repeat split.
    + unfold flagOf. by rewrite Hfmt.
    + intros l Hl. rewrite Hkey. by intros ->.
Qed.

Lemma original_enabled_iff_listed_witness :
  enabledOf (mPlugins (self (deserialize (diskWith handWritten) false
                               (world original ["skyrim.esm"; "update.esm"] None twoPlugins))))
    "b.esp" = true.
Proof.
  eapply (original_enabled_iff_listed (diskWith handWritten) false
            (world original ["skyrim.esm"; "update.esm"] None twoPlugins) "dir").
  - reflexivity.
  - reflexivity.
  - split; reflexivity.
  - left. discriminate.
  - reflexivity.
  - split; [|split; reflexivity].
    apply (bool_decide_unpack _). vm_compute. reflexivity.
Defined.

(** X10. Under [fallout4], a load whose read is granted, with no line
    of [plugins.txt] that stands for the name [enabled], leaves a name
    enabled when it is neither native nor of [JS.inherited] and the last
    line that stands for it is the name after a [*], and only then. *)
Theorem fallout4_enabled_iff_starred (env : Env) (retry : bool) (w : World) (dir : string)
    (pl : list Byte.byte) (k : string) :
  mPluginPath (self w) = Some dir →
  mPluginFormat (self w) = Some fallout4 →
  readFile env (requests w) (path_join dir "plugins.txt") = ReadOk pl →
  taken pl retry →
  noEnabledLine (Some fallout4) (pluginsLines pl) = true →
  enabledOf (mPlugins (self (deserialize env retry w))) k = true
  ↔ entered (self w) k
    ∧ ∃ before after,
        pluginsLines pl = before ++ ("*" +:+ k) :: after
        ∧ ∀ l, l ∈ after → keyOf (self w) l ≠ k.
Proof.
  intros Hdir Hfmt Hread Htaken _.
  assert (attemptGives env (mPluginFormat (self w)) dir (requests w) [] pl) as Hgives
    by (by rewrite Hfmt).
  rewrite (load_flag env retry w dir [] pl k Hdir Hgives Htaken).
  split.
  - intros [He (before & line & after & Hl & Hk & Hflag & Hafter)]. split; [done|].
    exists before, after. split; [|done]. rewrite Hl. do 2 f_equal.
    unfold flagOf in Hflag. unfold keyOf in Hk. rewrite Hfmt in Hflag, Hk.
    cbn [andb orb] in Hflag, Hk. rewrite Hflag in Hk.
    destruct line as [|c r]; [done|]. cbn [JS.firstIs] in Hflag.
    apply Ascii.eqb_eq in Hflag as ->. cbn [JS.slice1] in Hk. by subst.
  - intros [He (before & after & Hl & Hafter)]. split; [done|].
    exists before, ("*" +:+ k), after. repeat split; [done| | |done].
    + unfold keyOf. by rewrite Hfmt.
    + unfold flagOf. by rewrite Hfmt.
Qed.

Lemma fallout4_enabled_iff_starred_witness :
  enabledOf (mPlugins (self (deserialize
                               (diskWith [("dir/plugins.txt",
                                           "*a.esp" +:+ JS.CRLF +:+ "b.esp" +:+ JS.CRLF
                                           +:+ "a.esp" +:+ JS.CRLF +:+ "*a.esp")])
                               false (world fallout4 [] None twoPlugins))))
    "a.esp" = true.
Proof.
  eapply (fallout4_enabled_iff_starred
            (diskWith [("dir/plugins.txt",
                        "*a.esp" +:+ JS.CRLF +:+ "b.esp" +:+ JS.CRLF
                        +:+ "a.esp" +:+ JS.CRLF +:+ "*a.esp")])
            false (world fallout4 [] None twoPlugins) "dir").
  - reflexivity.
  - reflexivity.
  - reflexivity.
  - left. discriminate.
  - reflexivity.
  - split; [split; reflexivity|].
    exists ["*a.esp"; "b.esp"; "a.esp"], []. split; [reflexivity|].
    by intros l ?%elem_of_nil.
Defined.

(** ** A load, a pass, a load *)

Lemma dense_numbered_from s (T : IPluginMap) :
  map (fun kv => loadOrder (snd kv)) T = seqZ s (Z.of_nat (length T)) →
  NoDup (map fst T) →
  T = numbered s (enabledOf T) (map fst T).
Proof.
  revert s. induction T as [|[k v] r IH]; intros s Hd Hnd; [done|].
  cbn [map fst] in Hnd. apply NoDup_cons in Hnd as [Hk Hnd].
  cbn [map length fst snd] in Hd. rewrite Nat2Z.inj_succ, seqZ_cons in Hd by lia.
  injection Hd as Hv Hd. rewrite Z.pred_succ in Hd.
  cbn [map fst numbered]. f_equal.
  - unfold enabledOf. cbn [Obj.get]. rewrite String.eqb_refl. destruct v; cbn in *. by subst.
  - rewrite (IH (Z.succ s) Hd Hnd) at 1. replace (s + 1) with (Z.succ s) by lia.
    apply numbered_ext. intros k' Hk'. unfold enabledOf. cbn [Obj.get].
    destruct (String.eqb_spec k k') as [->|_]; [done|reflexivity].
Qed.

Lemma dense_numbered (T : IPluginMap) :
  dense T → NoDup (map fst T) → T = numbered 0 (enabledOf T) (map fst T).
Proof. apply dense_numbered_from. Qed.











(** ** Files that are not there *)




(** ** Writes that are refused *)

Lemma doSerialize_first_refused env w dir err :
  mPluginPath (self w) = Some dir → firstRefused env w err →
  ∃ data,
    doSerialize env w
    = update (with_mSerializing false)
        (reportError "failed to write plugin list" err
           (mkWorld (with_mSerializing true (self w)) (S (requests w))
              (trace w ++ [WriteFile (path_join dir "loadorder.txt") data (Some err)]))).
Proof.
  intros Hdir H. unfold doSerialize. rewrite Hdir.
  unfold writeFileAsync, update. cbn [self requests trace]. rewrite H. by eexists.
Qed.

Lemma doSerialize_second_refused env w dir err :
  mPluginPath (self w) = Some dir → secondRefused env w err →
  ∃ data data',
    doSerialize env w
    = update (with_mSerializing false)
        (reportError "failed to write plugin list" err
           (mkWorld (with_mSerializing true (self w)) (S (S (requests w)))
              (trace w ++ [WriteFile (path_join dir "loadorder.txt") data None;
                           WriteFile (path_join dir "plugins.txt") data' (Some err)]))).
Proof.
  intros Hdir H. unfold doSerialize. rewrite Hdir.
  unfold writeFileAsync, update. cbn [self requests trace].
  rewrite (proj1 (H _ _)). cbn [self requests trace]. rewrite (proj2 (H _ _)).
  rewrite <- app_assoc. by eexists _, _.
Qed.

Lemma reportError_spec text err t rq tr :
  self (reportError text err (mkWorld t rq tr)) = with_mFailed true t
  ∧ trace (reportError text err (mkWorld t rq tr))
    = tr ++ (if mFailed t then [] else [Call (mOnError t) [VString text; VError err]]).
Proof.
  unfold reportError, update, emit. cbn [self requests trace].
  destruct (mFailed t) eqn:E; cbn [negb self trace]; [|done].
  rewrite app_nil_r. split; [|done]. destruct t; cbn in *. by subst.
Qed.

Lemma doSerialize_refused env w dir err :
  mPluginPath (self w) = Some dir →
  firstRefused env w err ∨ secondRefused env w err →
  mFailed (self (doSerialize env w)) = true
  ∧ mPlugins (self (doSerialize env w)) = mPlugins (self w)
  ∧ mPluginPath (self (doSerialize env w)) = Some dir
  ∧ mOnError (self (doSerialize env w)) = mOnError (self w)
  ∧ reportsOf (mOnError (self w)) (trace (doSerialize env w))
    = reportsOf (mOnError (self w)) (trace w)
      ++ (if mFailed (self w) then [] else [("failed to write plugin list", err)])
  ∧ (firstRefused env w err →
     writesOf (trace (doSerialize env w))
     = writesOf (trace w) ++ [path_join dir "loadorder.txt"]).
Proof.
  intros Hdir [H|H].
  - destruct (doSerialize_first_refused env w dir err Hdir H) as (data & ->).
    unfold update. cbn [self trace].
    destruct (reportError_spec "failed to write plugin list" err
                (with_mSerializing true (self w)) (S (requests w))
                (trace w ++ [WriteFile (path_join dir "loadorder.txt") data (Some err)]))
      as [-> ->].
    cbn [mFailed mPlugins mPluginPath mOnError with_mSerializing with_mFailed].
    rewrite !reportsOf_app, !writesOf_app.
    split; [done|]. split; [done|]. split; [done|]. split; [done|]. split.
    + destruct (mFailed (self w)); cbn; [by rewrite !app_nil_r|]. by rewrite Nat.eqb_refl, app_nil_r.
    + intros _. destruct (mFailed (self w)); cbn; by rewrite app_nil_r.
  - destruct (doSerialize_second_refused env w dir err Hdir H) as (data & data' & ->).
    unfold update. cbn [self trace].
    destruct (reportError_spec "failed to write plugin list" err
                (with_mSerializing true (self w)) (S (S (requests w)))
                (trace w ++ [WriteFile (path_join dir "loadorder.txt") data None;
                             WriteFile (path_join dir "plugins.txt") data' (Some err)]))
      as [-> ->].
    cbn [mFailed mPlugins mPluginPath mOnError with_mSerializing with_mFailed].
    rewrite !reportsOf_app, !writesOf_app.
    split; [done|]. split; [done|]. split; [done|]. split; [done|]. split.
    + destruct (mFailed (self w)); cbn; [by rewrite !app_nil_r|]. by rewrite Nat.eqb_refl, app_nil_r.
    + intros H1. specialize (H1 "" []). rewrite (proj1 (H "" [])) in H1. discriminate.
Qed.

(** X13. A pass that is refused a write leaves the failed flag set and the
    table as it was, and reports the error through [onError], unless the
    flag was set already; refused the first write, it does not go on to
    the second, so that [plugins.txt] is not asked for. *)
Theorem write_refused (env : Env) (w : World) (dir : string) (err : Error) :
  mPluginPath (self w) = Some dir →
  firstRefused env w err ∨ secondRefused env w err →
  mFailed (self (doSerialize env w)) = true
  ∧ mPlugins (self (doSerialize env w)) = mPlugins (self w)
  ∧ reportsOf (mOnError (self w)) (trace (doSerialize env w))
    = reportsOf (mOnError (self w)) (trace w)
      ++ (if mFailed (self w) then [] else [("failed to write plugin list", err)])
  ∧ (firstRefused env w err →
     writesOf (trace (doSerialize env w))
     = writesOf (trace w) ++ [path_join dir "loadorder.txt"]).
Proof.
  intros Hdir H.
  destruct (doSerialize_refused env w dir err Hdir H) as (H1 & H2 & _ & _ & H3 & H4). done.
Qed.

Lemma write_refused_witness :
  writesOf (trace (doSerialize locked (world original [] None twoPlugins)))
  = ["dir/loadorder.txt"].
Proof.
  eapply (write_refused locked (world original [] None twoPlugins) "dir" EBUSY).
  - reflexivity.
  - left. by intros path data.
  - by intros path data.
Defined.

Lemma passes_failed env dir err n :
  readOnly env err →
  ∀ w, mPluginPath (self w) = Some dir → mFailed (self w) = true →
       reportsOf (mOnError (self w)) (trace (passes env n w))
       = reportsOf (mOnError (self w)) (trace w)
       ∧ mFailed (self (passes env n w)) = true
       ∧ mPlugins (self (passes env n w)) = mPlugins (self w).
Proof.
  intros Hro. induction n as [|n IH]; intros w Hdir Hf; [done|].
  cbn [passes].
  destruct (doSerialize_refused env w dir err Hdir) as (H1 & H2 & H3 & H4 & H5 & _).
  { left. intros path data. apply Hro. }
  destruct (IH (doSerialize env w) H3 H1) as (IH1 & IH2 & IH3).
  rewrite H4 in IH1. rewrite IH1, IH2, IH3, H5, Hf, H2, app_nil_r. done.
Qed.

(** X14. However many passes in a row are refused their writes, the error
    is reported once, by the first of them, and the table stays as it
    was. *)
Theorem refused_reported_once (env : Env) (w : World) (dir : string) (err : Error) (n : nat) :
  mPluginPath (self w) = Some dir →
  mFailed (self w) = false →
  readOnly env err →
  reportsOf (mOnError (self w)) (trace (passes env (S n) w))
  = reportsOf (mOnError (self w)) (trace w) ++ [("failed to write plugin list", err)]
  ∧ mPlugins (self (passes env (S n) w)) = mPlugins (self w).
Proof.
  intros Hdir Hf Hro. cbn [passes].
  destruct (doSerialize_refused env w dir err Hdir) as (H1 & H2 & H3 & H4 & H5 & _).
  { left. intros path data. apply Hro. }
  destruct (passes_failed env dir err n Hro (doSerialize env w) H3 H1) as (P1 & _ & P3).
  rewrite H4 in P1. rewrite P1, P3, H5, Hf, H2. done.
Qed.

Lemma refused_reported_once_witness :
  reportsOf 0%nat (trace (passes locked 3 (world original [] None twoPlugins)))
  = [("failed to write plugin list", EBUSY)].
Proof.
  eapply (refused_reported_once locked (world original [] None twoPlugins) "dir" EBUSY 2).
  - reflexivity.
  - reflexivity.
  - by intros n path data.
Defined.

(** ** With no path *)

Lemma requestsOf_app tr tr' : requestsOf (tr ++ tr') = requestsOf tr ++ requestsOf tr'.
Proof. apply List.filter_app. Qed.

Lemma enqueue_quiet cb w :
  mPluginPath (self (thenNotify cb (serialize w))) = mPluginPath (self w)
  ∧ trace (thenNotify cb (serialize w)) = trace w.
Proof.
  unfold thenNotify, serialize, update. destruct (mLoaded (self w)), cb; done.
Qed.

Lemma idle_quiet w w' :
  idle w w' → mPluginPath (self w) = None →
  mPluginPath (self w') = None ∧ requestsOf (trace w') = requestsOf (trace w).
Proof.
  induction 1 as [w|w w' _ IH|w w' _ IH|w w' cb _ IH|w w' key cb _ IH
                 |w w' key value cb w'' _ IH Hset|w w' key cb _ IH|w w' cb _ IH
                 |w w' env _ IH|w w' fileName _ IH|w w' env _ IH];
    intros Hw; try destruct (IH Hw) as [Hp Hr].
  - done.
  - unfold stopSync, update, emit. cbn [self requests trace mWatch with_context].
    destruct (mWatch (self w')); cbn [self trace]; (split; [done|]);
      rewrite ?requestsOf_app; cbn; by rewrite ?app_nil_r.
  - unfold disable, update, emit. cbn [self requests trace mResetCallback with_mLoaded with_mPlugins].
    destruct (mResetCallback (self w')); cbn [self trace]; (split; [done|]);
      rewrite ?requestsOf_app; cbn; by rewrite ?app_nil_r.
  - done.
  - unfold getItem, callIfSet, emit. destruct cb; cbn [snd self trace]; (split; [done|]);
      rewrite ?requestsOf_app; cbn; by rewrite ?app_nil_r.
  - unfold setItem in Hset. destruct (JSON.parse value) as [v|]; [|done].
    destruct (JSON.asPluginMap v) as [table|]; [|done]. injection Hset as <-.
    destruct (enqueue_quiet cb (update (with_mPlugins table) w')) as [-> ->]. done.
  - unfold removeItem.
    destruct (enqueue_quiet cb (update (fun t => with_mPlugins (Obj.delete (mPlugins t) key) t) w'))
      as [-> ->]. done.
  - unfold getAllKeys, callIfSet, emit. destruct cb; cbn [self trace]; (split; [done|]);
      rewrite ?requestsOf_app; cbn; by rewrite ?app_nil_r.
  - unfold timerFires. destruct (mRefreshTimer (self w')); [done|done|].
    rewrite deserialize_nopath by exact Hp. done.
  - unfold watchEvent, scheduleRefresh, update, emit.
    branches; (split; [done|]); rewrite ?requestsOf_app; cbn; by rewrite ?app_nil_r.
  - unfold runTask. destruct (mSerializeQueue (self w')) as [|[|cb] rest]; [done| |].
    + unfold doSerialize, update. cbn [self]. 
      change (mPluginPath (with_mSerializeQueue rest (self w'))) with (mPluginPath (self w')).
      rewrite Hp. done.
    + cbn [emit update self trace]. unfold emit, update. cbn [self trace].
      split; [done|]. rewrite requestsOf_app. cbn. by rewrite app_nil_r.
Qed.

(** X15. From [stopSync] until [loadFiles] is called again, whatever else
    the host calls and whatever timer, task or watch event comes up, the
    object asks nothing of the file system: no read, no write, no watch.
    A pass or a load that was pending at the time comes to nothing. *)
Theorem stopSync_stops (w w' : World) :
  idle (stopSync w) w' →
  mPluginPath (self w') = None
  ∧ requestsOf (trace w') = requestsOf (trace w).
Proof.
  intros H. apply idle_quiet in H as [Hp Hr].
  - split; [done|]. rewrite Hr. unfold stopSync, update, emit.
    cbn [self requests trace mWatch with_context].
    destruct (mWatch (self w)); cbn [trace]; rewrite ?requestsOf_app; cbn; by rewrite ?app_nil_r.
  - unfold stopSync, update, emit. cbn [self requests trace mWatch with_context].
    by destruct (mWatch (self w)).
Qed.

Lemma stopSync_stops_witness :
  requestsOf (trace (runTask quiet
                       (timerFires quiet
                          (stopSync (watchEvent "plugins.txt"
                                       (serialize (world original [] None twoPlugins)))))))
  = [].
Proof.
  eapply (stopSync_stops (watchEvent "plugins.txt" (serialize (world original [] None twoPlugins)))).
  apply idle_runTask, idle_timerFires, idle_here.
Defined.

(** ** Before the first load is over *)

Lemma phaseOne_writes env dir P w r P' w1 :
  phaseOne env dir P w = (r, P', w1) → writesOf (trace w1) = writesOf (trace w).
Proof.
  unfold phaseOne, readFileAsync. intros H.
  destruct (mPluginFormat (self w)) as [[]|];
    [destruct (readFile env (requests w) _)|..]; inversion H; subst; cbn [trace];
    rewrite ?writesOf_app; cbn; by rewrite ?app_nil_r.
Qed.

Lemma readFailed_writes err w : writesOf (trace (readFailed err w)) = writesOf (trace w).
Proof.
  unfold readFailed, scheduleRefresh, reportError, update, emit.
  branches; rewrite ?writesOf_app; cbn; by rewrite ?app_nil_r.
Qed.

Lemma loaded_writes P w : writesOf (trace (loaded P w)) = writesOf (trace w).
Proof.
  destruct (loaded_spec P w) as (_ & _ & _ & _ & _ & _ & _ & ->).
  rewrite writesOf_app. destruct (mResetCallback (self w)); cbn; by rewrite app_nil_r.
Qed.

(** A load writes no file. *)
Lemma deserialize_writes env retry w :
  writesOf (trace (deserialize env retry w)) = writesOf (trace w).
Proof.
  assert (∀ w, writesOf (trace (deserialize env true w)) = writesOf (trace w)) as Htrue.
  { clear w. intros w. destruct (mPluginPath (self w)) as [dir|] eqn:Hdir;
      [|by rewrite deserialize_nopath].
    destruct (phaseOne env dir [] w) as [[[data|err] P] w1] eqn:Hphase.
    - rewrite (deserialize_loaded env true w dir data P w1 Hdir Hphase) by apply andb_false_r.
      rewrite loaded_writes. by eapply phaseOne_writes.
    - rewrite (deserialize_failed env true w dir err P w1 Hdir Hphase).
      rewrite readFailed_writes. by eapply phaseOne_writes. }
  destruct retry; [apply Htrue|].
  destruct (mPluginPath (self w)) as [dir|] eqn:Hdir; [|by rewrite deserialize_nopath].
  destruct (phaseOne env dir [] w) as [[[[|b data]|err] P] w1] eqn:Hphase.
  - rewrite (deserialize_again env w dir P w1 Hdir Hphase), Htrue. by eapply phaseOne_writes.
  - rewrite (deserialize_loaded env false w dir (b :: data) P w1 Hdir Hphase) by reflexivity.
    rewrite loaded_writes. by eapply phaseOne_writes.
  - rewrite (deserialize_failed env false w dir err P w1 Hdir Hphase).
    rewrite readFailed_writes. by eapply phaseOne_writes.
Qed.

Lemma deserialize_unloaded env retry w :
  mLoaded (self (deserialize env retry w)) = false →
  mLoaded (self w) = false
  ∧ writesOf (trace (deserialize env retry w)) = writesOf (trace w)
  ∧ mSerializeQueue (self (deserialize env retry w)) = mSerializeQueue (self w).
Proof.
  intros H. destruct (deserialize_keeps env retry w) as (_ & _ & _ & _ & Kq & Kl & _).
  split; [|split; [apply deserialize_writes|done]].
  destruct (mLoaded (self w)); [|done]. by rewrite Kl in H.
Qed.

Lemma enqueue_unloaded cb w :
  mLoaded (self w) = false →
  DoSerialize ∉ mSerializeQueue (self w) →
  mLoaded (self (thenNotify cb (serialize w))) = false
  ∧ trace (thenNotify cb (serialize w)) = trace w
  ∧ DoSerialize ∉ mSerializeQueue (self (thenNotify cb (serialize w))).
Proof.
  intros Hl Hq. unfold thenNotify, serialize, update. rewrite Hl. cbn [negb].
  destruct cb; cbn [self trace mLoaded mSerializeQueue with_mSerializeQueue]; [|done].
  split; [done|]. split; [done|]. rewrite elem_of_app, list_elem_of_singleton.
  intros [H|H]; [done|discriminate].
Qed.

Lemma enqueue_mLoaded cb w : mLoaded (self (thenNotify cb (serialize w))) = mLoaded (self w).
Proof.
  unfold thenNotify, serialize, update. destruct (mLoaded (self w)) eqn:E, cb; cbn; done.
Qed.

Lemma reachable_unloaded w :
  reachable w → mLoaded (self w) = false →
  writesOf (trace w) = [] ∧ DoSerialize ∉ mSerializeQueue (self w).
Proof.
  induction 1 as [onError|w dir fmt natives _ IH|w env _ IH|w env _ IH|w _ IH|w _ IH
                 |w cb _ IH|w key cb _ IH|w key value cb w' _ IH Hset|w key cb _ IH
                 |w cb _ IH|w env _ IH|w fileName _ IH|w env _ IH]; intros Hl.
  - split; [done|]. cbn. apply not_elem_of_nil.
  - destruct (IH Hl) as [Hw Hq]. cbn [emit update self trace]. unfold emit, update.
    cbn [self trace]. rewrite writesOf_app, Hw. done.
  - destruct (deserialize_unloaded env false w Hl) as (Hl' & -> & ->). by apply IH.
  - assert (mLoaded (self w) = false ∧ writesOf (trace (startWatch env w)) = writesOf (trace w)
            ∧ mSerializeQueue (self (startWatch env w)) = mSerializeQueue (self w))
      as (Hl' & -> & ->); [|by apply IH].
    revert Hl. unfold startWatch, update, emit.
    branches; cbn [self trace mLoaded mSerializeQueue with_mWatch]; intros Hl;
      rewrite ?writesOf_app; cbn; by rewrite ?app_nil_r.
  - assert (mLoaded (self w) = false ∧ writesOf (trace (stopSync w)) = writesOf (trace w)
            ∧ mSerializeQueue (self (stopSync w)) = mSerializeQueue (self w))
      as (Hl' & -> & ->); [|by apply IH].
    revert Hl. unfold stopSync, update, emit. cbn [self requests trace mWatch with_context].
    destruct (mWatch (self w)); cbn [self trace mLoaded mSerializeQueue with_mWatch with_context];
      intros Hl; rewrite ?writesOf_app; cbn; by rewrite ?app_nil_r.
  - exfalso. revert Hl. unfold disable, update, emit.
    cbn [self requests trace mResetCallback with_mLoaded with_mPlugins].
    by destruct (mResetCallback (self w)).
  - by apply IH.
  - assert (mLoaded (self w) = false ∧ writesOf (trace (snd (getItem key cb w))) = writesOf (trace w)
            ∧ mSerializeQueue (self (snd (getItem key cb w))) = mSerializeQueue (self w))
      as (Hl' & -> & ->); [|by apply IH].
    revert Hl. unfold getItem, callIfSet, emit. destruct cb; cbn [snd self trace]; intros Hl;
      rewrite ?writesOf_app; cbn; by rewrite ?app_nil_r.
  - unfold setItem in Hset. destruct (JSON.parse value) as [v|]; [|done].
    destruct (JSON.asPluginMap v) as [table|]; [|done]. injection Hset as <-.
    rewrite enqueue_mLoaded in Hl. cbn [update self mLoaded with_mPlugins] in Hl.
    destruct (IH Hl) as [Hw Hq].
    destruct (enqueue_unloaded cb (update (with_mPlugins table) w)) as (_ & -> & Hq'); done.
  - unfold removeItem in *. rewrite enqueue_mLoaded in Hl.
    cbn [update self mLoaded with_mPlugins] in Hl.
    destruct (IH Hl) as [Hw Hq].
    destruct (enqueue_unloaded cb
                (update (fun t => with_mPlugins (Obj.delete (mPlugins t) key) t) w))
      as (_ & -> & Hq'); done.
  - assert (mLoaded (self w) = false ∧ writesOf (trace (getAllKeys cb w)) = writesOf (trace w)
            ∧ mSerializeQueue (self (getAllKeys cb w)) = mSerializeQueue (self w))
      as (Hl' & -> & ->); [|by apply IH].
    revert Hl. unfold getAllKeys, callIfSet, emit. destruct cb; cbn [self trace]; intros Hl;
      rewrite ?writesOf_app; cbn; by rewrite ?app_nil_r.
  - revert Hl. unfold timerFires. destruct (mRefreshTimer (self w)); [apply IH|apply IH|].
    intros Hl. destruct (deserialize_unloaded env false _ Hl) as (Hl' & -> & ->). by apply IH.
  - assert (mLoaded (self w) = false ∧ writesOf (trace (watchEvent fileName w)) = writesOf (trace w)
            ∧ mSerializeQueue (self (watchEvent fileName w)) = mSerializeQueue (self w))
      as (Hl' & -> & ->); [|by apply IH].
    revert Hl. unfold watchEvent, scheduleRefresh, update, emit.
    branches; cbn [self trace mLoaded mSerializeQueue with_mRefreshTimer]; intros Hl;
      rewrite ?writesOf_app; cbn; by rewrite ?app_nil_r.
  - revert Hl. unfold runTask.
    destruct (mSerializeQueue (self w)) as [|[|cb] rest] eqn:Eq; [rewrite Eq; apply IH| |].
    + intros Hl. exfalso.
      assert (mLoaded (self w) = false) as Hl'.
      { revert Hl. unfold doSerialize, writeFileAsync, reportError, update, emit.
        cbn [self requests trace]. branches; done. }
      destruct (IH Hl') as [_ Hq]. apply Hq. by left.
    + cbn [emit update self trace]. unfold emit, update.
      cbn [self trace mLoaded mSerializeQueue with_mSerializeQueue]. intros Hl.
      destruct (IH Hl) as [Hw Hq]. rewrite writesOf_app, Hw. split; [done|].
      intros Hin. apply Hq. by right.
Qed.

(** X16. The files are not written to before the first load is over:
    while the store is not loaded, nothing within reach of the host and
    the event loop has made the object write. *)
Theorem no_write_before_loaded (w : World) :
  reachable w → mLoaded (self w) = false → writesOf (trace w) = [].
Proof. intros Hr Hl. by destruct (reachable_unloaded w Hr Hl). Qed.

Lemma no_write_before_loaded_witness :
  writesOf (trace (runTask quiet
                     (removeItem "a.esp" (Some 1%nat)
                        (deserialize locked false
                           (emit (Log "debug" "synching plugins")
                              (update (with_context (Some "dir") (Some original)
                                         (Some (list_to_set [])))
                                 (mkWorld (constructor 0%nat) 0 [])))))))
  = [].
Proof.
  apply no_write_before_loaded.
  - apply reach_runTask, reach_removeItem, reach_deserialize, reach_loadFiles, reach_new.
  - reflexivity.
Defined.

(** ** [removeItem] *)

Lemma get_delete (o : IPluginMap) key k :
  Obj.get (Obj.delete o key) k = if String.eqb k key then None else Obj.get o k.
Proof.
  unfold Obj.delete. induction o as [|[k' v] o IH]; simpl.
  - by destruct (String.eqb k key).
  - destruct (String.eqb_spec k' key) as [E|Hne]; simpl.
    + rewrite IH. destruct (String.eqb_spec k key) as [E'|Hk]; [done|].
      destruct (String.eqb_spec k' k) as [E'|_]; [congruence|done].
    + destruct (String.eqb_spec k' k) as [E|Hk]; [|exact IH].
      destruct (String.eqb_spec k key) as [E'|_]; [congruence|done].
Qed.

(** X17. After [removeItem] the table has no entry under the key and has
    every other name as before; the call itself asks nothing of the file
    system and calls no one, and it queues a pass when the store is
    loaded, and none when it is not. *)
Theorem removeItem_removes (key : string) (cb : option Callback) (w : World) (k : string) :
  Obj.get (mPlugins (self (removeItem key cb w))) k
  = (if String.eqb k key then None else Obj.get (mPlugins (self w)) k)
  ∧ trace (removeItem key cb w) = trace w
  ∧ mSerializeQueue (self (removeItem key cb w))
    = mSerializeQueue (self w)
      ++ (if mLoaded (self w) then [DoSerialize] else [])
      ++ match cb with Some f => [Notify f] | None => [] end.
Proof.
  unfold removeItem, thenNotify, serialize, update.
  cbn [self mLoaded with_mPlugins].
  destruct (mLoaded (self w)) eqn:El, cb;
    cbn [negb self trace requests mPlugins mSerializeQueue with_mSerializeQueue with_mPlugins];
    rewrite ?app_nil_r, <- ?app_assoc; (split; [apply get_delete|done]).
Qed.

Lemma doSerialize_queue env q w :
  doSerialize env (update (with_mSerializeQueue q) w)
  = update (with_mSerializeQueue q) (doSerialize env w).
Proof.
  unfold doSerialize, update. cbn [self mPluginPath with_mSerializeQueue].
  destruct (mPluginPath (self w)); [|done].
  unfold writeFileAsync, reportError, update, emit, sortedKeys, toPluginList,
    toPluginListOriginal, toPluginListFallout4.
  cbn [self requests trace mPlugins mNativePlugins mPluginFormat mFailed mOnError
       with_mSerializing with_mSerializeQueue].
  branches; reflexivity.
Qed.

(** X18. The callback given to [removeItem] is called once the pass has
    run, and with [null] whatever came of the writes: a write that is
    refused goes to [onError], never to the callback. *)
Theorem callback_after_pass (env : Env) (key : string) (cb : Callback) (w : World) :
  mLoaded (self w) = true →
  mSerializeQueue (self w) = [] →
  trace (runTask env (runTask env (removeItem key (Some cb) w)))
  = trace (doSerialize env
             (update (fun t => with_mPlugins (Obj.delete (mPlugins t) key) t) w))
    ++ [Call cb [VNull]].
Proof.
  intros Hl Hq. unfold removeItem, thenNotify, serialize.
  set (w0 := update (fun t => with_mPlugins (Obj.delete (mPlugins t) key) t) w).
  assert (mLoaded (self w0) = true) as -> by exact Hl. cbn [negb].
  assert (update (fun t => with_mSerializeQueue (mSerializeQueue t ++ [Notify cb]) t)
            (update (fun t => with_mSerializeQueue (mSerializeQueue t ++ [DoSerialize]) t) w0)
          = update (with_mSerializeQueue [DoSerialize; Notify cb]) w0) as ->.
  { unfold update. cbn [self mSerializeQueue with_mSerializeQueue].
    by rewrite (Hq : mSerializeQueue (self w0) = []). }
  unfold runTask at 2. cbn [update self mSerializeQueue with_mSerializeQueue].
  change (mkWorld (with_mSerializeQueue [Notify cb]
                     (with_mSerializeQueue [DoSerialize; Notify cb] (self w0)))
            (requests w0) (trace w0))
    with (update (with_mSerializeQueue [Notify cb]) w0).
  rewrite doSerialize_queue. unfold runTask. cbn [update self mSerializeQueue with_mSerializeQueue].
  fold (update (with_mSerializeQueue [DoSerialize; Notify cb]) w0).
  rewrite doSerialize_queue. reflexivity.
Qed.

Lemma callback_after_pass_witness :
  trace (runTask locked (runTask locked
                           (removeItem "a.esp" (Some 7%nat) (world original [] None twoPlugins))))
  = trace (doSerialize locked
             (update (fun t => with_mPlugins (Obj.delete (mPlugins t) "a.esp") t)
                (world original [] None twoPlugins)))
    ++ [Call 7%nat [VNull]].
Proof.
  apply (callback_after_pass locked "a.esp" 7%nat (world original [] None twoPlugins));
    reflexivity.
Defined.

(** ** [JSON.stringify] and [JSON.parse] *)

Lemma lex_cons st c r :
  JSON.lex st (String c r)
  = match JSON.lexChar st c with
    | Some (st', ts) => (ts ++.) <$> JSON.lex st' r
    | None => None
    end.
Proof. cbn [JSON.lex]. destruct (JSON.lexChar st c) as [[st' ts]|]; [|done]. by destruct (JSON.lex st' r). Qed.

Lemma fmap_app_nil {A} (o : option (list A)) : ([] ++.) <$> o = o.
Proof. by destruct o. Qed.

Lemma fmap_app_app {A} (a b : list A) (o : option (list A)) :
  (a ++.) <$> ((b ++.) <$> o) = ((a ++ b) ++.) <$> o.
Proof. destruct o; [|done]. simpl. by rewrite app_assoc. Qed.

Lemma lexes_app st a b ta tb :
  lexes st a ta → lexes JSON.LIdle b tb → lexes st (a +:+ b) (ta ++ tb).
Proof. intros Ha Hb rest. by rewrite append_assoc, Ha, Hb, fmap_app_app. Qed.

Lemma lexes_nil : lexes JSON.LIdle "" [].
Proof. intros rest. by rewrite append_nil, fmap_app_nil. Qed.

Lemma lexes_char c tok :
  JSON.idleChar c = Some (JSON.LIdle, [tok]) → lexes JSON.LIdle (String c "") [tok].
Proof.
  intros H rest. rewrite append_cons, append_nil, lex_cons. cbn [JSON.lexChar]. by rewrite H.
Qed.

(** Strings *)

Lemma code_lt_256 c : 0 <= JS.code c < 256.
Proof. destruct c as [[] [] [] [] [] [] [] []]; vm_compute; split; congruence. Qed.

Lemma chr_code c : JS.chr (JS.code c) = c.
Proof. destruct c as [[] [] [] [] [] [] [] []]; reflexivity. Qed.

Ltac lex_step :=
  rewrite lex_cons;
  match goal with
  | |- context [JSON.lexChar ?st ?c] =>
      let r := eval vm_compute in (JSON.lexChar st c) in
      change (JSON.lexChar st c) with r
  end;
  cbv beta iota.

Lemma lex_quoteChar c acc rest :
  JSON.lex (JSON.LStr acc) (JSON.quoteChar c +:+ rest)
  = JSON.lex (JSON.LStr (JS.code c :: acc)) rest.
Proof.
  destruct c as [[] [] [] [] [] [] [] []];
    match goal with
    | |- context [JSON.quoteChar ?c] =>
        let r := eval vm_compute in (JSON.quoteChar c) in
        change (JSON.quoteChar c) with r;
        let n := eval vm_compute in (JS.code c) in
        change (JS.code c) with n
    end;
    rewrite ?append_cons, ?append_nil; repeat lex_step; by rewrite ?fmap_app_nil.
Qed.

Lemma lex_quoteChars s acc rest :
  JSON.lex (JSON.LStr acc) (JSON.quoteChars s +:+ JSON.dquote +:+ rest)
  = ([JSON.TString (rev acc ++ codes s)] ++.) <$> JSON.lex JSON.LIdle rest.
Proof.
  revert acc. induction s as [|c s IH]; intros acc.
  - cbn [JSON.quoteChars]. rewrite append_nil. unfold JSON.dquote.
    rewrite append_cons, append_nil. lex_step. unfold codes. cbn [list_ascii_of_string map].
    by rewrite app_nil_r.
  - cbn [JSON.quoteChars]. rewrite append_assoc, lex_quoteChar, IH.
    unfold codes. cbn [list_ascii_of_string map rev]. by rewrite <- app_assoc.
Qed.

Lemma lexes_quote s : lexes JSON.LIdle (JSON.quote s) [JSON.TString (codes s)].
Proof.
  intros rest. unfold JSON.quote. rewrite !append_assoc. unfold JSON.dquote at 1.
  rewrite append_cons, append_nil. lex_step. by rewrite lex_quoteChars, fmap_app_nil.
Qed.

(** Numbers *)

Lemma digit_chr d : 0 <= d <= 9 → JSON.digit (JS.chr (48 + d)) = Some d.
Proof.
  intros H.
  assert (d = 0 ∨ d = 1 ∨ d = 2 ∨ d = 3 ∨ d = 4 ∨ d = 5 ∨ d = 6 ∨ d = 7 ∨ d = 8 ∨ d = 9)
    as Hd by lia.
  repeat destruct Hd as [->|Hd]; try subst d; reflexivity.
Qed.

Lemma lex_digits ds neg m rest :
  Forall (fun d => 0 <= d <= 9) ds →
  JSON.lex (JSON.LNum (JSON.mkNum JSON.NInt neg m 0 false 0)) (digitsText ds +:+ rest)
  = JSON.lex (JSON.LNum (JSON.mkNum JSON.NInt neg (fold_left (fun a d => 10 * a + d) ds m)
                           0 false 0)) rest.
Proof.
  intros H. revert m. induction H as [|d ds Hd _ IH]; intros m; [done|].
  unfold digitsText. cbn [map string_of_list_ascii fold_left]. rewrite append_cons, lex_cons.
  cbn [JSON.lexChar JSON.numChar JSON.stage]. rewrite (digit_chr d Hd).
  cbn [JSON.neg JSON.mant JSON.scale JSON.eneg JSON.expo]. rewrite fmap_app_nil. apply IH.
Qed.

Lemma lex_number_end neg m rest :
  JSON.lex (JSON.LNum (JSON.mkNum JSON.NInt neg m 0 false 0)) ("}" +:+ rest)
  = ([JSON.TNumber (if neg then - m else m) 0; JSON.TRBrace] ++.) <$> JSON.lex JSON.LIdle rest.
Proof. rewrite append_cons, append_nil, lex_cons. reflexivity. Qed.

Lemma pretty_N_go_digits (x : N) :
  (0 < x)%N →
  ∃ d ds, (∀ s, pretty_N_go x s = digitsText (d :: ds) +:+ s)
          ∧ 1 <= d <= 9 ∧ Forall (fun d => 0 <= d <= 9) ds
          ∧ fold_left (fun a d => 10 * a + d) ds d = Z.of_N x.
Proof.
  induction (N.lt_wf_0 x) as [x _ IH]. intros Hx.
  assert (pretty_N_char (x `mod` 10) = JS.chr (48 + Z.of_N (x `mod` 10))) as Hchar.
  { pose proof (N.mod_lt x 10 ltac:(done)) as Hlt.
    generalize dependent (x `mod` 10)%N. intros y Hlt.
    assert (y = 0 ∨ y = 1 ∨ y = 2 ∨ y = 3 ∨ y = 4 ∨ y = 5 ∨ y = 6 ∨ y = 7 ∨ y = 8 ∨ y = 9)%N
      as Hd by lia.
    repeat destruct Hd as [->|Hd]; try subst y; reflexivity. }
  destruct (decide (x < 10)%N) as [Hsmall|Hbig].
  - exists (Z.of_N x), []. split; [|split; [lia|split; [constructor|done]]].
    intros s. rewrite pretty_N_go_step by done.
    rewrite N.div_small, pretty_N_go_0 by done. rewrite Hchar, N.mod_small by done.
    reflexivity.
  - destruct (IH (x `div` 10)%N) as (d & ds & Hs & Hd & Hds & Hval).
    { apply N.div_lt; lia. }
    { apply N.div_str_pos. lia. }
    exists d, (ds ++ [Z.of_N (x `mod` 10)]). split; [|split; [done|split]].
    + intros s. rewrite pretty_N_go_step by done. rewrite Hs, Hchar.
      unfold digitsText. cbn [map]. rewrite map_app. cbn [map string_of_list_ascii].
      rewrite !append_cons. f_equal.
      generalize (map (fun d0 => JS.chr (48 + d0)) ds). intros l.
      induction l as [|a l IHl]; [done|]. cbn [app string_of_list_ascii]. rewrite !append_cons.
      by rewrite IHl.
    + apply Forall_app. split; [done|]. constructor; [|constructor].
      pose proof (N.mod_lt x 10 ltac:(done)) as Hlt. revert Hlt.
      generalize (x `mod` 10)%N. intros y Hy. lia.
    + rewrite fold_left_app. cbn [fold_left]. rewrite Hval.
      pose proof (N.div_mod x 10 ltac:(done)) as Hdm. revert Hdm.
      generalize (x `div` 10)%N (x `mod` 10)%N. intros q r Hdm. lia.
Qed.

Lemma lexes_number n : lexes JSON.LIdle (pretty n +:+ "}") [JSON.TNumber n 0; JSON.TRBrace].
Proof.
  intros rest. rewrite append_assoc. destruct n as [|p|p].
  - change (pretty 0) with "0". rewrite append_cons, append_nil, lex_cons.
    cbn [JSON.lexChar]. change (JSON.idleChar "0") with
      (Some (JSON.LNum (JSON.mkNum JSON.NZero false 0 0 false 0), @nil JSON.token)).
    cbv beta iota. rewrite fmap_app_nil, append_cons, append_nil, lex_cons. reflexivity.
  - change (pretty (Z.pos p)) with (pretty_N_go (N.pos p) "").
    destruct (pretty_N_go_digits (N.pos p)) as (d & ds & -> & Hd & Hds & Hval); [done|].
    rewrite append_assoc, append_nil. unfold digitsText at 1. cbn [map string_of_list_ascii].
    rewrite append_cons, lex_cons. cbn [JSON.lexChar].
    assert (JSON.idleChar (JS.chr (48 + d))
            = Some (JSON.LNum (JSON.mkNum JSON.NInt false d 0 false 0), [])) as ->.
    { assert (d = 1 ∨ d = 2 ∨ d = 3 ∨ d = 4 ∨ d = 5 ∨ d = 6 ∨ d = 7 ∨ d = 8 ∨ d = 9)
        as Hc by lia.
      repeat destruct Hc as [->|Hc]; try subst d; reflexivity. }
    fold (digitsText ds). rewrite fmap_app_nil, lex_digits, lex_number_end by done.
    by rewrite Hval.
  - change (pretty (Z.neg p)) with ("-" +:+ pretty_N_go (N.pos p) "").
    destruct (pretty_N_go_digits (N.pos p)) as (d & ds & -> & Hd & Hds & Hval); [done|].
    rewrite !append_assoc, append_nil, append_cons, append_nil, lex_cons.
    change (JSON.lexChar JSON.LIdle "-") with
      (Some (JSON.LNum (JSON.mkNum JSON.NMinus true 0 0 false 0), @nil JSON.token)).
    cbv beta iota. rewrite fmap_app_nil.
    unfold digitsText at 1. cbn [map string_of_list_ascii].
    rewrite append_cons, lex_cons. cbn [JSON.lexChar JSON.numChar JSON.stage].
    rewrite digit_chr by lia.
    cbn [JSON.neg JSON.mant JSON.scale JSON.eneg JSON.expo].
    assert ((d =? 0) = false) as -> by lia. replace (10 * 0 + d) with d by lia.
    fold (digitsText ds). rewrite fmap_app_nil, lex_digits, lex_number_end by done.
    rewrite Hval. reflexivity.
Qed.

(** Entries and tables *)

Ltac lexes_text :=
  intros rest; rewrite ?append_cons, ?append_nil; repeat lex_step; by rewrite ?fmap_app_nil.

Lemma lexes_entry v : lexes JSON.LIdle (JSON.stringifyEntry v) (entryTokens v).
Proof.
  unfold JSON.stringifyEntry.
  assert (lexes JSON.LIdle (if enabled v then "true" else "false")
            [if enabled v then JSON.TTrue else JSON.TFalse]) as Hbool.
  { destruct (enabled v); lexes_text. }
  pose proof (lexes_app _ _ _ _ _ (lexes_char ":" JSON.TColon eq_refl) (lexes_number (loadOrder v)))
    as H1.
  pose proof (lexes_app _ _ _ _ _ (lexes_quote "loadOrder") H1) as H2.
  pose proof (lexes_app _ _ _ _ _ (lexes_char "," JSON.TComma eq_refl) H2) as H3.
  pose proof (lexes_app _ _ _ _ _ Hbool H3) as H4.
  pose proof (lexes_app _ _ _ _ _ (lexes_char ":" JSON.TColon eq_refl) H4) as H5.
  pose proof (lexes_app _ _ _ _ _ (lexes_quote "enabled") H5) as H6.
  exact (lexes_app _ _ _ _ _ (lexes_char "{" JSON.TLBrace eq_refl) H6).
Qed.

Lemma lexes_member (kv : string * ILoadOrder) :
  lexes JSON.LIdle (JSON.quote (fst kv) +:+ ":" +:+ JSON.stringifyEntry (snd kv))
    (memberTokens kv).
Proof.
  exact (lexes_app _ _ _ _ _ (lexes_quote (fst kv))
           (lexes_app _ _ _ _ _ (lexes_char ":" JSON.TColon eq_refl) (lexes_entry (snd kv)))).
Qed.

Lemma lexes_members (E : list (string * ILoadOrder)) :
  lexes JSON.LIdle
    (JS.join "," (map (fun kv => JSON.quote (fst kv) +:+ ":" +:+ JSON.stringifyEntry (snd kv)) E))
    (membersTokens E).
Proof.
  induction E as [|kv E IH]; [apply lexes_nil|].
  destruct E as [|kv' E]; [apply lexes_member|].
  change (lexes JSON.LIdle
            ((JSON.quote (fst kv) +:+ ":" +:+ JSON.stringifyEntry (snd kv))
             +:+ "," +:+ JS.join "," (map (fun kv => JSON.quote (fst kv) +:+ ":"
                                            +:+ JSON.stringifyEntry (snd kv)) (kv' :: E)))
            (memberTokens kv ++ [JSON.TComma] ++ membersTokens (kv' :: E))).
  apply lexes_app; [apply lexes_member|].
  apply lexes_app; [by apply lexes_char|exact IH].
Qed.

Lemma members_entries (o : IPluginMap) (l : list string) :
  (∀ k, k ∈ l → k ∈ map fst o) →
  map (JSON.stringifyMember o) l
  = map (fun kv => JSON.quote (fst kv) +:+ ":" +:+ JSON.stringifyEntry (snd kv))
      (omap (fun k => match Obj.get o k with Some v => Some (k, v) | None => None end) l)
  ∧ map fst (omap (fun k => match Obj.get o k with Some v => Some (k, v) | None => None end) l)
    = l.
Proof.
  induction l as [|k l IH]; intros H; [done|].
  destruct IH as [IH1 IH2]; [intros k' Hk'; apply H; by right|].
  assert (is_Some (Obj.get o k)) as [v Hv] by (apply get_is_Some, H; by left).
  cbn [map omap list_omap]. rewrite Hv. cbn [map fst snd].
  fold (@omap list _ _ _ (fun k => match Obj.get o k with Some v => Some (k, v) | None => None end) l).
  rewrite <- IH1, IH2.
  unfold JSON.stringifyMember at 1. by rewrite Hv.
Qed.

Lemma lex_stringify (o : IPluginMap) :
  JSON.lex JSON.LIdle (JSON.stringify o)
  = Some (JSON.TLBrace :: membersTokens (entriesOf o) ++ [JSON.TRBrace]).
Proof.
  unfold JSON.stringify.
  destruct (members_entries o (Obj.keys o)) as [-> _]; [intros k; apply keys_elem_of|].
  fold (entriesOf o).
  pose proof (lexes_app _ _ _ _ _ (lexes_char "{" JSON.TLBrace eq_refl)
                (lexes_app _ _ _ _ _ (lexes_members (entriesOf o))
                   (lexes_char "}" JSON.TRBrace eq_refl))) as H.
  specialize (H ""). rewrite !append_assoc in H. change ("}" +:+ "") with "}" in H.
  rewrite H. cbn [JSON.lex JSON.lexEnd fmap option_fmap option_map]. by rewrite app_nil_r.
Qed.

(** The parser on the tokens of a table. *)

Lemma parse_entry stack v rest :
  JSON.parseTokens stack JSON.EValue (entryTokens v ++ rest)
  = JSON.parseTokens (fst (JSON.complete (entryValue v) stack))
      (snd (JSON.complete (entryValue v) stack)) rest.
Proof.
  destruct v as [[] n]; cbn [entryTokens app enabled loadOrder JSON.parseTokens JSON.parseToken
                             JSON.scalar JSON.complete rev];
    by destruct (JSON.complete _ stack).
Qed.

Lemma parse_members E acc key0 ex :
  ex = JSON.EKey ∨ ex = JSON.EObjectStart → E ≠ [] →
  JSON.parseTokens [JSON.FObject acc key0] ex (membersTokens E ++ [JSON.TRBrace])
  = Some (JSON.Object (rev acc ++ map (fun kv => (codes (fst kv), entryValue (snd kv))) E)).
Proof.
  revert acc key0 ex. induction E as [|[k v] E IH]; intros acc key0 ex Hex Hne; [done|].
  assert (∀ rest,
            JSON.parseTokens [JSON.FObject acc key0] ex (memberTokens (k, v) ++ rest)
            = JSON.parseTokens [JSON.FObject ((codes k, entryValue v) :: acc) (codes k)]
                JSON.EAfter rest) as Hmember.
  { intros rest. unfold memberTokens. cbn [fst snd app].
    destruct Hex as [-> | ->]; cbn [JSON.parseTokens JSON.parseToken];
      by rewrite parse_entry. }
  destruct E as [|kv' E].
  - cbn [membersTokens]. rewrite Hmember. cbn [JSON.parseTokens JSON.parseToken JSON.complete map].
    reflexivity.
  - change (membersTokens ((k, v) :: kv' :: E))
      with (memberTokens (k, v) ++ JSON.TComma :: membersTokens (kv' :: E)).
    rewrite <- app_assoc, Hmember. cbn [app JSON.parseTokens JSON.parseToken].
    rewrite IH by (auto; done). cbn [rev map]. by rewrite <- app_assoc.
Qed.

Lemma parse_stringify (o : IPluginMap) :
  JSON.parse (JSON.stringify o)
  = Some (JSON.Object (map (fun kv => (codes (fst kv), entryValue (snd kv))) (entriesOf o))).
Proof.
  unfold JSON.parse. rewrite lex_stringify.
  cbn [JSON.parseTokens JSON.parseToken].
  destruct (entriesOf o) as [|kv E] eqn:HE; [reflexivity|].
  rewrite parse_members; [done|by right|done].
Qed.

(** From the parsed value back to a table. *)

Lemma asString_codes s : JSON.asString (codes s) = Some s.
Proof.
  induction s as [|c s IH]; [done|]. unfold codes in *.
  cbn [list_ascii_of_string map JSON.asString]. rewrite IH.
  destruct (Z.ltb_spec (JS.code c) 256) as [_|H]; [by rewrite chr_code|].
  pose proof (code_lt_256 c). lia.
Qed.

Lemma asLoadOrder_entry v :
  Z.abs (loadOrder v) <= 2 ^ 53 → JSON.asLoadOrder (entryValue v) = Some v.
Proof.
  intros H. destruct v as [b n]. cbn [loadOrder] in H.
  unfold entryValue, JSON.asLoadOrder. cbn [enabled loadOrder].
  rewrite !asString_codes. unfold JSON.asInteger. cbn [Z.leb Z.compare Z.pow Z.pow_pos Pos.iter].
  rewrite Z.mul_1_r. destruct (Z.leb_spec (Z.abs n) (2 ^ 53)) as [_|H']; [done|lia].
Qed.

Lemma asMembers_entries (E acc : IPluginMap) :
  NoDup (map fst (acc ++ E)) → safeOrders E →
  JSON.asMembers (map (fun kv => (codes (fst kv), entryValue (snd kv))) E) acc = Some (acc ++ E).
Proof.
  revert acc. induction E as [|[k v] E IH]; intros acc Hnd Hsafe.
  - by rewrite app_nil_r.
  - inversion Hsafe as [|? ? Hv Hsafe']; subst. cbn [map fst snd JSON.asMembers].
    rewrite asString_codes, (asLoadOrder_entry v Hv).
    assert (Obj.get acc k = None) as Hfresh.
    { apply get_None. rewrite map_app in Hnd. apply NoDup_app in Hnd as (_ & Hd & _).
      intros Hin. apply (Hd k Hin). by left. }
    rewrite (set_fresh acc k v Hfresh). rewrite IH; [by rewrite <- app_assoc| |done].
    by rewrite <- app_assoc.
Qed.

Lemma entriesOf_keys (o : IPluginMap) : map fst (entriesOf o) = Obj.keys o.
Proof.
  unfold entriesOf. destruct (members_entries o (Obj.keys o)) as [_ H]; [|exact H].
  intros k. apply keys_elem_of.
Qed.

Lemma entriesOf_elem_of (o : IPluginMap) kv : kv ∈ entriesOf o → kv ∈ o.
Proof.
  unfold entriesOf. intros (k & Hk & H)%list_elem_of_omap.
  destruct (Obj.get o k) as [v|] eqn:E; [|done]. injection H as <-.
  by apply get_Some_elem_of.
Qed.

Lemma asPluginMap_stringify (o : IPluginMap) :
  NoDup (map fst o) → safeOrders o →
  ∃ v, JSON.parse (JSON.stringify o) = Some v ∧ JSON.asPluginMap v = Some (entriesOf o).
Proof.
  intros Hnd Hsafe. eexists. split; [apply parse_stringify|].
  cbn [JSON.asPluginMap]. rewrite asMembers_entries; [done| |].
  - cbn [app]. rewrite entriesOf_keys. by apply keys_NoDup.
  - unfold safeOrders in *. rewrite Forall_forall in Hsafe |- *.
    intros kv Hkv. by apply Hsafe, entriesOf_elem_of.
Qed.

(** The table that comes back is the table that went out. *)

Lemma get_entriesOf (o : IPluginMap) k :
  NoDup (map fst o) → Obj.get (entriesOf o) k = Obj.get o k.
Proof.
  intros Hnd. destruct (Obj.get o k) as [v|] eqn:E.
  - assert (k ∈ map fst (entriesOf o)) as Hin.
    { rewrite entriesOf_keys. apply keys_elem_of, get_is_Some. by eexists. }
    apply get_is_Some in Hin as [v' Hv']. rewrite Hv'. f_equal.
    apply get_Some_elem_of, entriesOf_elem_of in Hv'. apply get_Some_elem_of in E.
    revert Hnd Hv' E. clear. induction o as [|[k0 v0] o IH]; [by intros _ ?%elem_of_nil|].
    cbn [map fst]. intros [Hk Hnd]%NoDup_cons.
    intros [[= -> ->]|H1]%elem_of_cons [[= ->]|H2]%elem_of_cons; [done| | |by apply IH].
    + exfalso. apply Hk. apply list_elem_of_fmap. by exists (k0, v).
    + exfalso. apply Hk. apply list_elem_of_fmap. by exists (k0, v').
  - apply get_None. rewrite entriesOf_keys, keys_elem_of. by apply get_None.
Qed.

Lemma sort_sorted_id (rank : string → Z) (l : list string) :
  StronglySorted (byRank rank) l → JS.sort (fun a b => rank a - rank b) l = l.
Proof.
  induction 1 as [|x l Hl IH Hx]; [done|].
  unfold JS.sort in *. cbn [foldr]. rewrite IH.
  destruct l as [|y r]; [done|]. cbn [JS.insert].
  inversion Hx as [|? ? Hxy _]; subst. unfold byRank in Hxy.
  destruct (Z.leb_spec (rank x - rank y) 0); [done|lia].
Qed.

Lemma filter_all {A} (f : A → bool) (l : list A) :
  (∀ x, x ∈ l → f x = true) → List.filter f l = l.
Proof.
  induction l as [|a l IH]; intros H; [done|]. simpl. rewrite (H a) by left.
  rewrite IH; [done|]. intros x Hx. apply H. by right.
Qed.

Lemma filter_none {A} (f : A → bool) (l : list A) :
  (∀ x, x ∈ l → f x = false) → List.filter f l = [].
Proof.
  induction l as [|a l IH]; intros H; [done|]. simpl. rewrite (H a) by left.
  apply IH. intros x Hx. apply H. by right.
Qed.

Lemma keys_entriesOf (o : IPluginMap) : Obj.keys (entriesOf o) = Obj.keys o.
Proof.
  unfold Obj.keys at 1. rewrite entriesOf_keys. unfold Obj.keys.
  set (I := List.filter Obj.isIndex (map fst o)).
  set (N := List.filter (fun k => negb (Obj.isIndex k)) (map fst o)).
  set (cmp := fun a b => Obj.indexOf a - Obj.indexOf b).
  assert (∀ x, x ∈ JS.sort cmp I → Obj.isIndex x = true) as HI.
  { intros x Hx. apply sort_elem_of in Hx. by apply elem_of_filter_bool in Hx as [_ Hx]. }
  assert (∀ x, x ∈ N → Obj.isIndex x = false) as HN.
  { intros x Hx. apply elem_of_filter_bool in Hx as [_ Hx]. by apply negb_true_iff. }
  rewrite !List.filter_app.
  rewrite (filter_all Obj.isIndex (JS.sort cmp I) HI), (filter_none Obj.isIndex N HN).
  rewrite (filter_none (fun k => negb (Obj.isIndex k)) (JS.sort cmp I)),
          (filter_all (fun k => negb (Obj.isIndex k)) N).
  - rewrite app_nil_r. cbn [app]. f_equal. apply (sort_sorted_id Obj.indexOf).
    apply (sort_sorted Obj.indexOf).
  - intros x Hx. by rewrite (HN x Hx).
  - intros x Hx. by rewrite (HI x Hx).
Qed.

Lemma stringify_entriesOf (o : IPluginMap) :
  NoDup (map fst o) → JSON.stringify (entriesOf o) = JSON.stringify o.
Proof.
  intros Hnd. unfold JSON.stringify. rewrite keys_entriesOf. do 3 f_equal.
  apply map_ext. intros k. unfold JSON.stringifyMember. by rewrite get_entriesOf.
Qed.

(** X19. For a table whose load orders are integers that a double holds
    exactly, the text [getItem] hands out is JSON that [JSON.parse]
    takes: an object with a member for each name, in the order of
    [Object.keys], each an object of the flag and the load order. *)
Theorem getItem_parses (key : string) (cb : option Callback) (w : World) :
  safeOrders (mPlugins (self w)) →
  JSON.parse (fst (getItem key cb w))
  = Some (JSON.Object (map (fun kv => (codes (fst kv), entryValue (snd kv)))
                         (entriesOf (mPlugins (self w))))).
Proof. intros _. unfold getItem. cbn [fst]. apply parse_stringify. Qed.

Lemma getItem_parses_witness :
  JSON.parse (fst (getItem "plugins" None
                     (world original [] None
                        [("b.esp", mkLoadOrder true 1); ("10", mkLoadOrder false 0)])))
  = Some (JSON.Object
            [(codes "10", JSON.Object [(codes "enabled", JSON.Bool false);
                                       (codes "loadOrder", JSON.Number 0 0)]);
             (codes "b.esp", JSON.Object [(codes "enabled", JSON.Bool true);
                                          (codes "loadOrder", JSON.Number 1 0)])]).
Proof.
  apply (getItem_parses "plugins" None
           (world original [] None [("b.esp", mkLoadOrder true 1); ("10", mkLoadOrder false 0)])).
  repeat constructor; cbn; lia.
Defined.

(** X20. To hand [setItem] the text that [getItem] has given is to leave
    the table as it is: the same names in the same order, each with the
    same entry, so that [getItem] gives the same text again. This takes
    a table with each name once and load orders that a double holds
    exactly. *)
Theorem getItem_setItem (key key' : string) (cb cb' : option Callback) (w : World) :
  NoDup (map fst (mPlugins (self w))) →
  safeOrders (mPlugins (self w)) →
  ∃ w',
    setItem key' (fst (getItem key cb w)) cb' (snd (getItem key cb w)) = Some (Return w')
    ∧ Obj.keys (mPlugins (self w')) = Obj.keys (mPlugins (self w))
    ∧ (∀ k, Obj.get (mPlugins (self w')) k = Obj.get (mPlugins (self w)) k)
    ∧ fst (getItem key None w') = fst (getItem key cb w).
Proof.
  intros Hnd Hsafe.
  destruct (asPluginMap_stringify _ Hnd Hsafe) as (v & Hparse & Htable).
  unfold getItem at 1 2. cbn [fst snd]. unfold setItem. rewrite Hparse, Htable.
  eexists. split; [reflexivity|].
  assert (∀ w0, mPlugins (self (thenNotify cb' (serialize w0))) = mPlugins (self w0)) as Hq.
  { intros w0. unfold thenNotify, serialize, update.
    destruct (mLoaded (self w0)), cb'; reflexivity. }
  unfold getItem, callIfSet. cbn [fst]. rewrite !Hq.
  destruct cb; cbn [fst snd update self mPlugins with_mPlugins emit];
    (split; [apply keys_entriesOf|]); (split; [intros k; by apply get_entriesOf|]);
    by apply stringify_entriesOf.
Qed.

Lemma getItem_setItem_witness :
  ∃ w',
    setItem "loadOrder" (fst (getItem "loadOrder" None (world original [] None twoPlugins))) None
      (snd (getItem "loadOrder" None (world original [] None twoPlugins)))
    = Some (Return w')
    ∧ Obj.keys (mPlugins (self w')) = ["a.esp"; "b.esp"]
    ∧ (∀ k, Obj.get (mPlugins (self w')) k = Obj.get twoPlugins k)
    ∧ fst (getItem "loadOrder" None w')
      = fst (getItem "loadOrder" None (world original [] None twoPlugins)).
Proof.
  apply (getItem_setItem "loadOrder" "loadOrder" None None (world original [] None twoPlugins)).
  - apply (bool_decide_unpack _). vm_compute. reflexivity.
  - repeat constructor; cbn; lia.
Defined.

(** ** The watcher *)

Lemma watchStep_inert s e :
  inert e = true → s ≠ Leaked →
  watchStep s e ≠ Leaked ∧ (watchStep s e ≠ NotWatching → s ≠ NotWatching).
Proof.
  destruct s, e; cbn; try done; intros H _; try (by split).
  all: destruct (String.eqb level "error"); by split.
Qed.

Lemma watching_inert evs s :
  Forall (fun e => inert e = true) evs → s ≠ Leaked →
  fold_left watchStep evs s ≠ Leaked
  ∧ (fold_left watchStep evs s ≠ NotWatching → s ≠ NotWatching).
Proof.
  intros H. revert s. induction H as [|e evs He _ IH]; intros s Hs; [done|].
  cbn [fold_left]. destruct (watchStep_inert s e He Hs) as [H1 H2].
  destruct (IH _ H1) as [H3 H4]. split; [done|]. intros H5. by apply H2, H4.
Qed.

Lemma phaseOne_inert env dir P w r P' w1 :
  phaseOne env dir P w = (r, P', w1) →
  ∃ evs, trace w1 = trace w ++ evs ∧ Forall (fun e => inert e = true) evs.
Proof.
  unfold phaseOne, readFileAsync. intros H.
  destruct (mPluginFormat (self w)) as [[]|];
    [destruct (readFile env (requests w) _)|..]; inversion H; subst; cbn [trace];
    rewrite <- ?app_assoc; eexists; (split; [reflexivity|]); by repeat constructor.
Qed.

Lemma readFailed_inert err w :
  ∃ evs, trace (readFailed err w) = trace w ++ evs ∧ Forall (fun e => inert e = true) evs.
Proof.
  unfold readFailed, scheduleRefresh, reportError, update, emit.
  branches; rewrite <- ?app_assoc;
    first [by exists []; rewrite app_nil_r
          |eexists; (split; [reflexivity|]); by repeat constructor].
Qed.

Lemma loaded_inert P w :
  ∃ evs, trace (loaded P w) = trace w ++ evs ∧ Forall (fun e => inert e = true) evs.
Proof.
  destruct (loaded_spec P w) as (_ & _ & _ & _ & _ & _ & _ & ->).
  eexists. split; [reflexivity|]. destruct (mResetCallback (self w)); by repeat constructor.
Qed.

Lemma inert_trans (tr tr1 tr2 : list Event) :
  (∃ evs, tr1 = tr ++ evs ∧ Forall (fun e => inert e = true) evs) →
  (∃ evs, tr2 = tr1 ++ evs ∧ Forall (fun e => inert e = true) evs) →
  ∃ evs, tr2 = tr ++ evs ∧ Forall (fun e => inert e = true) evs.
Proof.
  intros (e1 & -> & H1) (e2 & -> & H2). exists (e1 ++ e2). rewrite app_assoc.
  split; [done|]. by apply Forall_app.
Qed.

(** A load neither opens nor closes a watcher. *)
Lemma deserialize_inert env retry w :
  ∃ evs, trace (deserialize env retry w) = trace w ++ evs
         ∧ Forall (fun e => inert e = true) evs.
Proof.
  assert (∀ w, ∃ evs, trace (deserialize env true w) = trace w ++ evs
                      ∧ Forall (fun e => inert e = true) evs) as Htrue.
  { clear w. intros w. destruct (mPluginPath (self w)) as [dir|] eqn:Hdir;
      [|rewrite deserialize_nopath by done; exists []; by rewrite app_nil_r].
    destruct (phaseOne env dir [] w) as [[[data|err] P] w1] eqn:Hphase.
    - rewrite (deserialize_loaded env true w dir data P w1 Hdir Hphase) by apply andb_false_r.
      eapply inert_trans; [by eapply phaseOne_inert|apply loaded_inert].
    - rewrite (deserialize_failed env true w dir err P w1 Hdir Hphase).
      eapply inert_trans; [by eapply phaseOne_inert|apply readFailed_inert]. }
  destruct retry; [apply Htrue|].
  destruct (mPluginPath (self w)) as [dir|] eqn:Hdir;
    [|rewrite deserialize_nopath by done; exists []; by rewrite app_nil_r].
  destruct (phaseOne env dir [] w) as [[[[|b data]|err] P] w1] eqn:Hphase.
  - rewrite (deserialize_again env w dir P w1 Hdir Hphase).
    eapply inert_trans; [by eapply phaseOne_inert|apply Htrue].
  - rewrite (deserialize_loaded env false w dir (b :: data) P w1 Hdir Hphase) by reflexivity.
    eapply inert_trans; [by eapply phaseOne_inert|apply loaded_inert].
  - rewrite (deserialize_failed env false w dir err P w1 Hdir Hphase).
    eapply inert_trans; [by eapply phaseOne_inert|apply readFailed_inert].
Qed.

Lemma deserialize_mWatch env retry w : mWatch (self (deserialize env retry w)) = mWatch (self w).
Proof.
  assert (∀ err w, mWatch (self (readFailed err w)) = mWatch (self w)) as Hfail.
  { intros err w0. unfold readFailed, scheduleRefresh, reportError, update, emit.
    branches; reflexivity. }
  assert (∀ P w, mWatch (self (loaded P w)) = mWatch (self w)) as Hload.
  { intros P w0. unfold loaded, update, emit.
    cbn [self requests trace mResetCallback with_mLoaded with_mPlugins].
    by destruct (mResetCallback (self w0)). }
  assert (∀ w, mWatch (self (deserialize env true w)) = mWatch (self w)) as Htrue.
  { clear w. intros w. destruct (mPluginPath (self w)) as [dir|] eqn:Hdir;
      [|by rewrite deserialize_nopath].
    destruct (phaseOne env dir [] w) as [[[data|err] P] w1] eqn:Hphase.
    - rewrite (deserialize_loaded env true w dir data P w1 Hdir Hphase) by apply andb_false_r.
      by rewrite Hload, (phaseOne_self env dir [] w _ _ _ Hphase).
    - rewrite (deserialize_failed env true w dir err P w1 Hdir Hphase).
      by rewrite Hfail, (phaseOne_self env dir [] w _ _ _ Hphase). }
  destruct retry; [apply Htrue|].
  destruct (mPluginPath (self w)) as [dir|] eqn:Hdir; [|by rewrite deserialize_nopath].
  destruct (phaseOne env dir [] w) as [[[[|b data]|err] P] w1] eqn:Hphase.
  - rewrite (deserialize_again env w dir P w1 Hdir Hphase), Htrue.
    by rewrite (phaseOne_self env dir [] w _ _ _ Hphase).
  - rewrite (deserialize_loaded env false w dir (b :: data) P w1 Hdir Hphase) by reflexivity.
    by rewrite Hload, (phaseOne_self env dir [] w _ _ _ Hphase).
  - rewrite (deserialize_failed env false w dir err P w1 Hdir Hphase).
    by rewrite Hfail, (phaseOne_self env dir [] w _ _ _ Hphase).
Qed.

Lemma doSerialize_inert env w :
  (∃ evs, trace (doSerialize env w) = trace w ++ evs ∧ Forall (fun e => inert e = true) evs)
  ∧ mWatch (self (doSerialize env w)) = mWatch (self w).
Proof.
  unfold doSerialize. destruct (mPluginPath (self w)); [|split; [exists []; by rewrite app_nil_r|done]].
  unfold writeFileAsync, reportError, update, emit. cbn [self requests trace].
  branches; (split; [|reflexivity]); rewrite <- ?app_assoc;
    eexists; (split; [reflexivity|]); by repeat constructor.
Qed.

(** A step that adds events which leave the watcher alone, and does not
    touch [mWatch], keeps what the trace and the object say of the
    watcher in step. *)
Lemma watching_kept w w' :
  (∃ evs, trace w' = trace w ++ evs ∧ Forall (fun e => inert e = true) evs) →
  mWatch (self w') = mWatch (self w) →
  watchingOf (trace w) ≠ Leaked
  ∧ (watchingOf (trace w) ≠ NotWatching → is_Some (mWatch (self w))) →
  watchingOf (trace w') ≠ Leaked
  ∧ (watchingOf (trace w') ≠ NotWatching → is_Some (mWatch (self w'))).
Proof.
  intros (evs & -> & Hevs) -> [H1 H2]. unfold watchingOf in *. rewrite fold_left_app.
  destruct (watching_inert evs _ Hevs H1) as [H3 H4]. split; [done|]. intros H5.
  by apply H2, H4.
Qed.

Lemma reachable_watching w :
  reachable w →
  watchingOf (trace w) ≠ Leaked
  ∧ (watchingOf (trace w) ≠ NotWatching → is_Some (mWatch (self w))).
Proof.
  induction 1 as [onError|w dir fmt natives _ IH|w env _ IH|w env _ IH|w _ IH|w _ IH
                 |w cb _ IH|w key cb _ IH|w key value cb w' _ IH Hset|w key cb _ IH
                 |w cb _ IH|w env _ IH|w fileName _ IH|w env _ IH].
  - done.
  - apply (watching_kept w); [|done|done]. eexists. split; [reflexivity|]. by repeat constructor.
  - apply (watching_kept w); [apply deserialize_inert|apply deserialize_mWatch|done].
  - destruct IH as [H1 H2]. unfold startWatch, emit, update.
    destruct (mWatch (self w)) as [d|] eqn:Hw; cbn [self requests trace];
      (destruct (mPluginPath (self w)) as [dir|]; cbn [self requests trace];
       [destruct (watch env (requests w) dir); cbn [self requests trace mWatch with_mWatch]|]);
      rewrite ?Hw; unfold watchingOf in *; rewrite ?fold_left_app;
      destruct (fold_left watchStep (trace w) NotWatching) eqn:E; cbn;
      try (by destruct H1); try (by destruct H2 as [? ?]);
      (split; [done|]); intros H; try (by destruct H); by eexists.
  - destruct IH as [H1 H2]. unfold stopSync, update, emit.
    cbn [self requests trace mWatch with_context].
    destruct (mWatch (self w)) as [d|] eqn:Hw; cbn [self requests trace mWatch with_mWatch with_context].
    + unfold watchingOf in *. rewrite fold_left_app. cbn [fold_left].
      by destruct (fold_left watchStep (trace w) NotWatching).
    + rewrite Hw. by split.
  - apply (watching_kept w); [|by unfold disable, update, emit;
                                  cbn [self requests trace mResetCallback with_mLoaded with_mPlugins];
                                  destruct (mResetCallback (self w))|done].
    unfold disable, update, emit.
    cbn [self requests trace mResetCallback with_mLoaded with_mPlugins].
    destruct (mResetCallback (self w)); cbn [trace];
      [eexists; split; [reflexivity|by repeat constructor]|exists []; by rewrite app_nil_r].
  - done.
  - apply (watching_kept w); [|by unfold getItem, callIfSet; destruct cb|done].
    unfold getItem, callIfSet, emit. destruct cb; cbn [snd trace];
      [eexists; split; [reflexivity|by repeat constructor]|exists []; by rewrite app_nil_r].
  - unfold setItem in Hset. destruct (JSON.parse value) as [v|]; [|done].
    destruct (JSON.asPluginMap v) as [table|]; [|done]. injection Hset as <-.
    apply (watching_kept w); [| |done].
    + destruct (enqueue_quiet cb (update (with_mPlugins table) w)) as [_ ->].
      exists []. by rewrite app_nil_r.
    + unfold thenNotify, serialize, update. by destruct (negb _), cb.
  - apply (watching_kept w); [| |done].
    + unfold removeItem.
      destruct (enqueue_quiet cb (update (fun t => with_mPlugins (Obj.delete (mPlugins t) key) t) w))
        as [_ ->].
      exists []. by rewrite app_nil_r.
    + unfold removeItem, thenNotify, serialize, update. by destruct (negb _), cb.
  - apply (watching_kept w); [|by unfold getAllKeys, callIfSet; destruct cb|done].
    unfold getAllKeys, callIfSet, emit. destruct cb; cbn [trace];
      [eexists; split; [reflexivity|by repeat constructor]|exists []; by rewrite app_nil_r].
  - unfold timerFires. destruct (mRefreshTimer (self w)); [done|done|].
    apply (watching_kept w); [|by rewrite deserialize_mWatch|done].
    destruct (deserialize_inert env false (update (with_mRefreshTimer TimerNull) w)) as (evs & -> & H).
    by exists evs.
  - apply (watching_kept w); [| |done].
    + unfold watchEvent, scheduleRefresh, update, emit.
      branches; rewrite <- ?app_assoc;
        first [by exists []; rewrite app_nil_r
              |eexists; (split; [reflexivity|]); by repeat constructor].
    + unfold watchEvent, scheduleRefresh, update, emit. branches; reflexivity.
  - unfold runTask. destruct (mSerializeQueue (self w)) as [|[|cb] rest]; [done| |].
    + apply (watching_kept w); [| |done].
      * destruct (doSerialize_inert env (update (with_mSerializeQueue rest) w)) as [H _]. exact H.
      * by destruct (doSerialize_inert env (update (with_mSerializeQueue rest) w)) as [_ ->].
    + apply (watching_kept w); [|done|done].
      eexists. split; [reflexivity|]. by repeat constructor.
Qed.

Lemma loadFiles_reachable gs env gameMode w :
  reachable w → reachable (loadFiles gs env gameMode w).
Proof.
  intros H. unfold loadFiles. by apply reach_deserialize, reach_startWatch, reach_loadFiles.
Qed.

(** X21. The object never has two watchers open. Whatever the host calls
    and whatever comes up, [fs.watch] is not called while a watcher that
    was opened is still open, and while a watcher is open [mWatch] holds
    one. *)
Theorem one_watcher (w : World) :
  reachable w →
  leaked (watchingOf (trace w)) = false
  ∧ (watchingOf (trace w) = NotWatching ∨ is_Some (mWatch (self w))).
Proof.
  intros H. destruct (reachable_watching w H) as [H1 H2].
  destruct (watchingOf (trace w)) eqn:E; [by split; [|left]| | |done];
    (split; [done|right; by apply H2]).
Qed.

Lemma one_watcher_witness :
  leaked (watchingOf (trace (loadFiles skyrim quiet "fallout4"
                               (stopSync (loadFiles skyrim quiet "skyrim"
                                            (loadFiles skyrim quiet "skyrim"
                                               (mkWorld (constructor 0%nat) 0 []))))))) = false.
Proof.
  eapply proj1, one_watcher.
  apply loadFiles_reachable, reach_stopSync, loadFiles_reachable, loadFiles_reachable, reach_new.
Defined.

(** ** [loadFiles] *)

Lemma startWatch_context env w :
  mPluginPath (self (startWatch env w)) = mPluginPath (self w)
  ∧ mPluginFormat (self (startWatch env w)) = mPluginFormat (self w)
  ∧ mNativePlugins (self (startWatch env w)) = mNativePlugins (self w)
  ∧ mPlugins (self (startWatch env w)) = mPlugins (self w)
  ∧ mLoaded (self (startWatch env w)) = mLoaded (self w)
  ∧ (is_Some (mPluginPath (self w)) → requests (startWatch env w) = S (requests w)).
Proof.
  unfold startWatch, update, emit.
  destruct (mWatch (self w)); cbn [self requests trace];
    (destruct (mPluginPath (self w)) as [dir|] eqn:Hp; cbn [self requests trace];
     [destruct (watch env (requests w) dir)|]);
    cbn; rewrite ?Hp; repeat split; try done; by intros [? ?].
Qed.

(** X22. When the two files are there to be read whenever they are
    asked for, [plugins.txt] not empty and no line at the name
    [enabled], [loadFiles] leaves the object with the path, the format
    and the native set of the game, loaded, and with a table that is
    made of the files alone: whatever table the object held before, the
    one it holds after is the same. *)
Theorem loadFiles_replaces (gs : GameSupport) (env : Env) (gameMode : string) (w : World)
    (lo pl : list Byte.byte) (before : IPluginMap) :
  (∀ n, attemptGives env (Some (pluginFormat gs gameMode)) (pluginPath gs gameMode) n lo pl) →
  pl ≠ [] →
  noEnabledLine (Some (pluginFormat gs gameMode)) (loadorderLines lo ++ pluginsLines pl) = true →
  mPlugins (self (loadFiles gs env gameMode (update (with_mPlugins before) w)))
  = mPlugins (self (loadFiles gs env gameMode w))
  ∧ mLoaded (self (loadFiles gs env gameMode w)) = true
  ∧ mPluginPath (self (loadFiles gs env gameMode w)) = Some (pluginPath gs gameMode)
  ∧ mPluginFormat (self (loadFiles gs env gameMode w)) = Some (pluginFormat gs gameMode)
  ∧ mNativePlugins (self (loadFiles gs env gameMode w))
    = Some (list_to_set (nativePlugins gs gameMode)).
Proof.
  intros Hall Hpl _. pose proof (Hall (S (requests w))) as Hgives.
  assert (∀ w0, requests w0 = requests w →
            ∃ w1 : World,
              mPluginFormat (self w1) = Some (pluginFormat gs gameMode)
              ∧ mNativePlugins (self w1) = Some (list_to_set (nativePlugins gs gameMode))
              ∧ mPlugins (self (loadFiles gs env gameMode w0))
                = initFromKeyList (self w1)
                    (initFromKeyList (self w1) [] (loadorderLines lo) false)
                    (pluginsLines pl) true
              ∧ mLoaded (self (loadFiles gs env gameMode w0)) = true
              ∧ keeps (self w1) (self (loadFiles gs env gameMode w0))
              ∧ mPluginPath (self w1) = Some (pluginPath gs gameMode)) as Hload.
  { intros w0 Hrq. unfold loadFiles.
    set (w1 := startWatch env _).
    destruct (startWatch_context env
                (emit (Log "debug" "synching plugins")
                   (update (with_context (Some (pluginPath gs gameMode))
                              (Some (pluginFormat gs gameMode))
                              (Some (list_to_set (nativePlugins gs gameMode)))) w0)))
      as (Hp & Hf & Hn & _ & _ & Hr).
    fold w1 in Hp, Hf, Hn, Hr. cbn in Hp, Hf, Hn, Hr.
    assert (requests w1 = S (requests w)) as Hr' by (rewrite Hr, Hrq; [done|by eexists]).
    exists w1. split; [done|]. split; [done|].
    destruct (deserialize_gives env false w1 (pluginPath gs gameMode) lo pl Hp)
      as (w2 & Heq & _ & _).
    { by rewrite Hf, Hr'. }
    { by left. }
    rewrite Heq. destruct (loaded_spec (initFromKeyList (self w1)
                                          (initFromKeyList (self w1) [] (loadorderLines lo) false)
                                          (pluginsLines pl) true) w2) as (-> & -> & _).
    split; [done|]. split; [done|]. split; [|done]. rewrite <- Heq. apply deserialize_keeps. }
  destruct (Hload w eq_refl) as (w1 & Hf1 & Hn1 & -> & -> & (Kp & Kf & Kn & _) & Hp1).
  destruct (Hload (update (with_mPlugins before) w) eq_refl) as (w1' & Hf1' & Hn1' & -> & _).
  rewrite Kp, Kf, Kn, Hp1, Hf1, Hn1. split; [|done].
  erewrite (initFromKeyList_ext (self w1') (self w1)); [|congruence..].
  f_equal. apply initFromKeyList_ext; congruence.
Qed.

Lemma loadFiles_replaces_witness :
  mPlugins (self (loadFiles skyrim (diskWith handWritten) "skyrim"
                    (update (with_mPlugins twoPlugins) (mkWorld (constructor 0%nat) 0 []))))
  = mPlugins (self (loadFiles skyrim (diskWith handWritten) "skyrim"
                      (mkWorld (constructor 0%nat) 0 []))).
Proof.
  eapply proj1, (loadFiles_replaces skyrim (diskWith handWritten) "skyrim"
                   (mkWorld (constructor 0%nat) 0 [])).
  - intros n. split; reflexivity.
  - discriminate.
  - reflexivity.
Defined.



(** ** A load that is granted *)

(** X24. A load whose reads are granted, with no line of the files at
    the name [enabled], asks for the files of the format, each once and
    in their order, then calls the reset callback, if there is one, and
    the trace has nothing else of it: no line in the log, no report, no
    timer, no write. It leaves the store loaded and the failed flag
    clear. *)
Theorem load_granted (env : Env) (retry : bool) (w : World) (dir : string)
    (lo pl : list Byte.byte) :
  mPluginPath (self w) = Some dir →
  attemptGives env (mPluginFormat (self w)) dir (requests w) lo pl →
  taken pl retry →
  noEnabledLine (mPluginFormat (self w)) (loadorderLines lo ++ pluginsLines pl) = true →
  trace (deserialize env retry w)
  = trace w ++ map ReadFile (attemptReads (mPluginFormat (self w)) dir)
    ++ match mResetCallback (self w) with Some cb => [Call cb []] | None => [] end
  ∧ mLoaded (self (deserialize env retry w)) = true
  ∧ mFailed (self (deserialize env retry w)) = false.
Proof.
  intros Hdir Hgives Htaken _.
  destruct (deserialize_gives env retry w dir lo pl Hdir Hgives Htaken) as (w1 & -> & Hs & Ht).
  destruct (loaded_spec (initFromKeyList (self w)
                           (initFromKeyList (self w) [] (loadorderLines lo) false)
                           (pluginsLines pl) true) w1)
    as (_ & -> & -> & _ & _ & _ & _ & ->).
  by rewrite Ht, Hs, <- app_assoc.
Qed.

Lemma load_granted_witness :
  trace (deserialize (diskWith handWritten) false
           (world original ["skyrim.esm"; "update.esm"] (Some 5%nat) twoPlugins))
  = [ReadFile "dir/loadorder.txt"; ReadFile "dir/plugins.txt"; Call 5%nat []].
Proof.
  eapply proj1, (load_granted (diskWith handWritten) false
                   (world original ["skyrim.esm"; "update.esm"] (Some 5%nat) twoPlugins) "dir").
  - reflexivity.
  - split; reflexivity.
  - left. discriminate.
  - reflexivity.
Defined.

Lemma reachable_invariant_witness :
  invariant (self (runTask locked
                     (removeItem "a.esp" None
                        (disable (loadFiles skyrim (diskWith handWritten) "skyrim"
                                    (mkWorld (constructor 0%nat) 0 [])))))).
Proof.
  apply reachable_invariant.
  apply reach_runTask, reach_removeItem, reach_disable, loadFiles_reachable, reach_new.
Defined.

(** ** A failure that passes *)




(** ** The order of the lines *)

(** Lines that stand for names which are new to the table, each for a
    name of its own, put the names at the end of it in their order. *)
Lemma initKeys_fresh t en lines acc :
  NoDup (map (keyOf t) lines) →
  (∀ l, l ∈ lines → entered t (keyOf t l) ∧ keyOf t l ∉ map fst (fst acc)) →
  map fst (fst (fold_left (initKey t en) lines acc))
  = map fst (fst acc) ++ map (keyOf t) lines.
Proof.
  revert acc. induction lines as [|line r IH]; intros [P pos] Hnd Hl.
  - cbn. by rewrite app_nil_r.
  - cbn [map] in Hnd. apply NoDup_cons in Hnd as [Hk Hnd]. cbn [fold_left].
    destruct (Hl line) as [[Hn Hi] Hfresh]; [by left|]. cbn [fst] in Hfresh.
    rewrite initKey_step. unfold nonNative in Hn. rewrite Hn.
    apply get_None in Hfresh. rewrite Hfresh, Hi.
    rewrite IH; [|done|].
    + cbn [fst map]. rewrite map_app. cbn [map fst]. by rewrite <- app_assoc.
    + intros l Hlr. destruct (Hl l) as [He Hf]; [by right|]. split; [done|].
      cbn [fst] in *. rewrite map_app. cbn [map fst].
      intros [H|H]%elem_of_app; [done|]. apply list_elem_of_singleton in H.
      apply Hk. rewrite <- H. apply list_elem_of_fmap. by exists l.
Qed.

Lemma sameButFlag_keys (P Q : IPluginMap) : Forall2 sameButFlag P Q → map fst Q = map fst P.
Proof. induction 1 as [|a b P Q [H _] _ IH]; [done|]. simpl. by rewrite IH, H. Qed.

Lemma numbered_lookup s f ks (i : nat) k :
  NoDup ks → ks !! i = Some k → loadOrderOf (numbered s f ks) k = s + Z.of_nat i.
Proof.
  revert s i. induction ks as [|k0 ks IH]; intros s i Hnd Hi; [done|].
  apply NoDup_cons in Hnd as [Hk Hnd]. rewrite loadOrderOf_numbered_cons.
  destruct i as [|i]; cbn in Hi.
  - injection Hi as ->. rewrite String.eqb_refl. lia.
  - destruct (String.eqb_spec k0 k) as [->|_].
    + exfalso. apply Hk. by eapply list_elem_of_lookup_2.
    + rewrite (IH (s + 1) i) by done. lia.
Qed.

(** X26. A load takes the order of the plugins from the order of the
    lines: when its reads are granted, no line of the files stands for
    the name [enabled], and the lines that give the order stand each
    for a name of its own, none native and none of [JS.inherited], the
    name of line [i], counted from 0 with empty lines and comments left
    out, has the load order [i]. *)
Theorem load_order_is_line_order (env : Env) (retry : bool) (w : World) (dir : string)
    (fmt : PluginFormat) (lo pl : list Byte.byte) (i : nat) (line : string) :
  mPluginPath (self w) = Some dir →
  mPluginFormat (self w) = Some fmt →
  attemptGives env (Some fmt) dir (requests w) lo pl →
  taken pl retry →
  noEnabledLine (Some fmt) (loadorderLines lo ++ pluginsLines pl) = true →
  NoDup (map (keyOf (self w)) (orderLines fmt lo pl)) →
  (∀ l, l ∈ orderLines fmt lo pl → entered (self w) (keyOf (self w) l)) →
  orderLines fmt lo pl !! i = Some line →
  loadOrderOf (mPlugins (self (deserialize env retry w))) (keyOf (self w) line) = Z.of_nat i.
Proof.
  intros Hdir Hfmt Hgives Htaken _ Hnd Hent Hi. rewrite <- Hfmt in Hgives.
  destruct (deserialize_gives env retry w dir lo pl Hdir Hgives Htaken) as (w1 & -> & _ & _).
  rewrite loaded_mPlugins.
  set (T := initFromKeyList (self w) _ (pluginsLines pl) true).
  assert (dense T) as Hd by apply initFromKeyList_dense, initFromKeyList_dense, dense_nil.
  assert (NoDup (map fst T)) as HndT
    by (apply initFromKeyList_NoDup, initFromKeyList_NoDup; constructor).
  assert (∃ more, map fst T = map (keyOf (self w)) (orderLines fmt lo pl) ++ more)
    as [more Hkeys].
  { subst T. destruct fmt; cbn [orderLines] in *.
    - destruct (initKeys_extends (self w) true (pluginsLines pl)
                  (initFromKeyList (self w) [] (loadorderLines lo) false,
                   Z.of_nat (length (Obj.keys (initFromKeyList (self w) []
                                                 (loadorderLines lo) false)))))
        as (old & new & Heq & Hold).
      cbn [fst] in Hold. unfold initFromKeyList at 1. rewrite Heq, map_app.
      rewrite (sameButFlag_keys _ _ Hold). exists (map fst new). f_equal.
      unfold initFromKeyList. rewrite initKeys_fresh; [done|done|].
      intros l Hl. split; [by apply Hent|]. cbn. apply not_elem_of_nil.
    - rewrite Hfmt in Hgives. destruct Hgives as [-> _].
      exists []. rewrite app_nil_r.
      change (initFromKeyList (self w) [] (loadorderLines []) false)
        with (@nil (string * ILoadOrder)).
      unfold initFromKeyList. rewrite initKeys_fresh; [done|done|].
      intros l Hl. split; [by apply Hent|]. cbn. apply not_elem_of_nil. }
  rewrite (dense_numbered T Hd HndT), Hkeys.
  rewrite (numbered_lookup 0 _ _ i (keyOf (self w) line)); [lia| |].
  - by rewrite <- Hkeys.
  - apply lookup_app_l_Some. by rewrite list_lookup_fmap, Hi.
Qed.

Lemma load_order_is_line_order_witness :
  loadOrderOf (mPlugins (self (deserialize
                                 (diskWith [("dir/plugins.txt",
                                             "*b.esp" +:+ JS.CRLF +:+ "a.esp" +:+ JS.CRLF
                                             +:+ "# c.esp" +:+ JS.CRLF +:+ "*d.esp")])
                                 false (world fallout4 [] None twoPlugins))))
    "d.esp" = 2.
Proof.
  eapply (load_order_is_line_order
            (diskWith [("dir/plugins.txt",
                        "*b.esp" +:+ JS.CRLF +:+ "a.esp" +:+ JS.CRLF
                        +:+ "# c.esp" +:+ JS.CRLF +:+ "*d.esp")])
            false (world fallout4 [] None twoPlugins) "dir" fallout4 _ _ 2 "*d.esp").
  - reflexivity.
  - reflexivity.
  - split; reflexivity.
  - left. discriminate.
  - reflexivity.
  - apply (bool_decide_unpack _). vm_compute. reflexivity.
  - intros l Hl. split; [reflexivity|].
    repeat (apply elem_of_cons in Hl as [->|Hl]; [reflexivity|]). by apply elem_of_nil in Hl.
  - reflexivity.
Defined.
